(** * Motion2Music: beat extraction, tempo refinement, BVH kinematics

    A shallow embedding of the numerical core of the Motion2Music
    repository:

    - [motion2music/beats/helpers.py]   (signal primitives, NMS)
    - [motion2music/beats/cues.py]      (the five cue extractors)
    - [motion2music/ml/ml_helpers.py]   (tempo-aware refinement)
    - [motion2music/beats/BeatExtraction.py] (fusion and event detection)
    - [motion2music/io/loadbvh.py]      (channel decoding, forward kinematics)
    - [scripts/build_ml_dataset.py]     (audio/motion offset estimation)

    Conventions of the embedding.

    - In the signal code a NumPy float array is a [list Q]: float64 values
      are read as the rationals they denote and arithmetic is exact.  Square
      roots (used by [np.linalg.norm] and [np.std]) are not rational; they
      are taken from a [Libm] instance and every theorem is proved for all
      instances.  The BVH loader never compares floats; it is embedded over
      an abstract number type with its operations ([FloatOps]).
      Rounding, overflow and NaN are outside this reading: the theorems
      over [Q] are about shapes, positions, order and exceptions, which do
      not depend on them, or carry the hypothesis that excludes them.
    - A Python [int] is a [Z]; array positions produced by [np.where] or
      [range] are kept as [Z] as well, since the code subtracts windows
      from them before clamping with [max(0, .)].
    - A Python exception is a value of [exn]; a function that may raise
      returns a [result].
    - Where overflow decides what the code does, the function is embedded a
      second time over IEEE 754 binary64 numbers (module [Float64], on the
      primitive floats of the kernel), with NaN and the infinities. *)

From Stdlib Require Import ZArith QArith Qround Qabs Lia Lqa.
From Stdlib Require Floats.
From stdpp Require Import base list sets sorting.

#[local] Open Scope Z_scope.

(** ** Python and NumPy primitives *)

Module Py.

Inductive exn : Type :=
  | IndexError
  | ValueError
  | TypeError
  | AttributeError
  | ZeroDivisionError
  | AssertionError
  | LinAlgError.

Inductive result (A : Type) : Type :=
  | Ok (a : A)
  | Raise (e : exn).
Arguments Ok {A} a.
Arguments Raise {A} e.

(** Sequencing: an exception raised by [m] propagates. *)
Definition bind {A B} (m : result A) (f : A → result B) : result B :=
  match m with
  | Ok a => f a
  | Raise e => Raise e
  end.

Notation "x <- m ;; k" := (bind m (fun x => k))
  (at level 100, m at next level, right associativity).

(** [[f(a) for a in l]] where [f] may raise. *)
Fixpoint mapR {A B} (f : A → result B) (l : list A) : result (list B) :=
  match l with
  | [] => Ok []
  | a :: l' => b <- f a ;; bs <- mapR f l' ;; Ok (b :: bs)
  end.

Definition is_ok {A} (m : result A) : bool :=
  match m with Ok _ => true | Raise _ => false end.

(** [len(l)] as a Python int. *)
Definition len {A} (l : list A) : Z := Z.of_nat (length l).

(** [l[i]] with Python's wrap-around of negative positions. *)
Definition getitem {A} (l : list A) (i : Z) : result A :=
  let j := if i <? 0 then i + len l else i in
  if j <? 0 then Raise IndexError
  else match l !! Z.to_nat j with
       | Some a => Ok a
       | None => Raise IndexError
       end.

(** Normalisation of one bound of a slice [l[lo:hi]]. *)
Definition slice_bound {A} (l : list A) (i : Z) : nat :=
  Z.to_nat (if i <? 0 then Z.max 0 (i + len l) else Z.min i (len l)).

(** [l[lo:hi]]; never raises. *)
Definition slice {A} (l : list A) (lo hi : Z) : list A :=
  let a := slice_bound l lo in
  let b := slice_bound l hi in
  take (b - a)%nat (drop a l).

(** [l[lo:]] and [l[:hi]]. *)
Definition slice_from {A} (l : list A) (lo : Z) : list A :=
  drop (slice_bound l lo) l.
Definition slice_to {A} (l : list A) (hi : Z) : list A :=
  take (slice_bound l hi) l.

(** [a[lo:hi] = v] on a NumPy array with a scalar right-hand side. *)
Definition fill_slice {A} (l : list A) (lo hi : Z) (v : A) : list A :=
  imap (fun j a => if (lo <=? Z.of_nat j) && (Z.of_nat j <? hi) then v else a) l.

(** [np.where(mask)[0]]: the positions holding [True], ascending. *)
Definition np_where (mask : list bool) : list Z :=
  omap (fun p : nat * bool => if p.2 then Some (Z.of_nat p.1) else None)
       (imap pair mask).

(** Comparisons of floats, as booleans. *)
Definition Qltb (a b : Q) : bool := negb (Qle_bool b a).
Definition Qleb (a b : Q) : bool := Qle_bool a b.

(** [round(x)] of a float: to the nearest integer, ties to even. *)
Definition round (x : Q) : Z :=
  let f := Qfloor x in
  let r := (x - inject_Z f)%Q in
  if Qltb r (1 # 2) then f
  else if Qltb (1 # 2) r then f + 1
  else if Z.even f then f else f + 1.

(** Stable insertion of [i] into the index list [acc], ordered by [key]. *)
Fixpoint insert_by (key : Z → Q) (i : Z) (acc : list Z) : list Z :=
  match acc with
  | [] => [i]
  | j :: acc' =>
      if Qltb (key i) (key j) then i :: acc
      else j :: insert_by key i acc'
  end.

(** [np.argsort(keys)]: positions of [keys] in ascending order of value.
    NumPy leaves the order of equal keys to the sorting kind; the model
    keeps them in their original order. *)
Definition argsort (keys : list Q) : list Z :=
  let key i := default 0%Q (keys !! Z.to_nat i) in
  foldr (fun i acc => insert_by key i acc) [] (Z.of_nat <$> seq 0 (length keys)).

(** [a[idx]] with an integer index array, positions known to be in range. *)
Definition take_at {A} (d : A) (l : list A) (idx : list Z) : list A :=
  (fun i => default d (l !! Z.to_nat i)) <$> idx.

(** [sorted(l)] on Python ints. *)
Definition sorted (l : list Z) : list Z := merge_sort Z.le l.

(** [np.unique(a)] on an int array: the distinct values, ascending. *)
Definition np_unique (l : list Z) : list Z := merge_sort Z.le (remove_dups l).

(** [np.arange(n)] as floats and [np.arange(lo, hi)] as ints. *)
Definition arange (n : nat) : list Q := (fun i => inject_Z (Z.of_nat i)) <$> seq 0 n.
Definition arange_int (lo hi : Z) : list Z := seqZ lo (hi - lo).

(** [a[mask]] with a boolean mask of the same length. *)
Definition mask_select {A} (mask : list bool) (a : list A) : list A :=
  omap (fun p : bool * A => if p.1 then Some p.2 else None) (zip mask a).

(** A loop [for a in l: st = f(st, a)] whose body may raise. *)
Fixpoint foldR {A S} (f : S → A → result S) (st : S) (l : list A) : result S :=
  match l with
  | [] => Ok st
  | a :: l' => st' <- f st a ;; foldR f st' l'
  end.

(** Square roots are supplied from outside: [np.sqrt] is not rational. *)
Class Libm : Type := { np_sqrt : Q → Q }.

(** The float literal [1e-9] (and [1e-6]) read as rationals. *)
Definition eps9 : Q := 1 # 1000000000.
Definition eps6 : Q := 1 # 1000000.

Definition Qmax2 (a b : Q) : Q := if Qltb a b then b else a.
Definition Qmin2 (a b : Q) : Q := if Qltb b a then b else a.

(** [np.clip(v, lo, hi)] is [minimum(maximum(v, lo), hi)]. *)
Definition clip (lo hi v : Q) : Q := Qmin2 (Qmax2 v lo) hi.
(** [np.clip(v, 0.0, None)]. *)
Definition clip_lo (lo v : Q) : Q := Qmax2 v lo.

Definition Qsum (l : list Q) : Q := foldr Qplus 0%Q l.

(** [np.mean] of a non-empty array. *)
Definition mean (l : list Q) : Q := (Qsum l / inject_Z (len l))%Q.

(** [np.std]: population standard deviation. *)
Definition std `{Libm} (l : list Q) : Q :=
  let m := mean l in
  np_sqrt (mean ((fun v => (v - m) * (v - m))%Q <$> l)).

(** [np.linalg.norm] of one vector (the reduced axis). *)
Definition norm `{Libm} (v : list Q) : Q :=
  np_sqrt (Qsum ((fun a => a * a)%Q <$> v)).

(** [np.dot] of two 1-D arrays of the same length. *)
Definition dot (a b : list Q) : Q := Qsum (zip_with Qmult a b).

Fixpoint insert_sorted (v : Q) (l : list Q) : list Q :=
  match l with
  | [] => [v]
  | w :: l' => if Qltb v w then v :: l else w :: insert_sorted v l'
  end.

(** [np.sort] of a float array. *)
Definition np_sort (l : list Q) : list Q := foldr insert_sorted [] l.

(** [np.median] of a 1-D array; NumPy yields NaN on an empty one, which the
    rationals cannot express: the model yields [0] there. *)
Definition median (l : list Q) : Q :=
  let s := np_sort l in
  let n := length l in
  if (n =? 0)%nat then 0%Q
  else if Nat.odd n then default 0%Q (s !! (n / 2)%nat)
  else ((default 0%Q (s !! (n / 2 - 1)%nat) + default 0%Q (s !! (n / 2)%nat)) / 2)%Q.

(** [np.percentile(x, q)] of a non-empty 1-D array, method "linear":
    the virtual position [(n-1) * q/100] is interpolated between its two
    neighbours in the sorted array.  A percentile outside [0, 100] raises. *)
Definition percentile (x : list Q) (q : Q) : result Q :=
  if Qltb q 0 || Qltb 100 q then Raise ValueError
  else
    let s := np_sort x in
    let n := len x in
    let virt := (inject_Z (n - 1) * (q / 100))%Q in
    let prev := Qfloor virt in
    let next := Z.min (prev + 1) (n - 1) in
    let gamma := (virt - inject_Z prev)%Q in
    let a := default 0%Q (s !! Z.to_nat prev) in
    let b := default 0%Q (s !! Z.to_nat next) in
    Ok (a + (b - a) * gamma)%Q.

(** First position of the maximum ([np.argmax]) and of the minimum
    ([np.argmin]) of a non-empty array. *)
Fixpoint argmax_from (best : Q) (bi : Z) (i : Z) (l : list Q) : Z :=
  match l with
  | [] => bi
  | v :: l' => if Qltb best v then argmax_from v i (i + 1) l'
               else argmax_from best bi (i + 1) l'
  end.
Definition argmax (l : list Q) : result Z :=
  match l with
  | [] => Raise ValueError
  | v :: l' => Ok (argmax_from v 0 1 l')
  end.
Definition argmin (l : list Q) : result Z := argmax (Qopp <$> l).

(** [np.max] and [np.min] of a non-empty array. *)
Definition np_max (l : list Q) : result Q :=
  match l with
  | [] => Raise ValueError
  | v :: l' => Ok (foldl Qmax2 v l')
  end.
Definition np_min (l : list Q) : result Q :=
  match l with
  | [] => Raise ValueError
  | v :: l' => Ok (foldl Qmin2 v l')
  end.

(** [np.pad(x, (pad, pad), mode="edge")]: an empty axis cannot be extended. *)
Definition pad_edge (x : list Q) (pad : Z) : result (list Q) :=
  match x with
  | [] => if 0 <? pad then Raise ValueError else Ok []
  | v :: _ =>
      Ok (replicate (Z.to_nat pad) v ++ x
          ++ replicate (Z.to_nat pad) (List.last x v))
  end.

(** [np.convolve(a, v, mode="valid")]: the shorter array slides inside the
    longer one, reversed; the result has [max(M,N) - min(M,N) + 1] entries.
    Empty operands raise. *)
Definition convolve_valid (a v : list Q) : result (list Q) :=
  if (len a =? 0) || (len v =? 0) then Raise ValueError
  else
    let '(a, v) := if len a <? len v then (v, a) else (a, v) in
    let n := (length a - length v + 1)%nat in
    Ok ((fun i => dot (take (length v) (drop i a)) (reverse v)) <$> seq 0 n).

(** [np.correlate(a, v, mode="full")] for arrays of equal length [n]:
    entry [k] is the lag [k - (n-1)], from [-(n-1)] to [n-1]. *)
Definition correlate_full (a v : list Q) : list Q :=
  let n := length a in
  (fun k => if (k <? n - 1)%nat
            then dot a (drop (n - 1 - k)%nat v)
            else dot (drop (k - (n - 1))%nat a) v)
  <$> seq 0 (2 * n - 1).

(** Assignment [out[:, c] = rhs] into an axis of length [T]: equal lengths,
    or a right-hand side of length one, which NumPy broadcasts. *)
Definition assign_axis (T : nat) (rhs : list Q) : result (list Q) :=
  if (length rhs =? T)%nat then Ok rhs
  else match rhs with
       | [v] => Ok (replicate T v)
       | _ => Raise ValueError
       end.

(** Elementwise arithmetic on arrays, by broadcasting over the leading
    axes. *)
Class Arr (A : Type) : Type := {
  asub : A → A → A;
  adiv : A → Q → A
}.
#[export] Hint Mode Arr ! : typeclass_instances.
#[export] Instance Arr_Q : Arr Q := {| asub := Qminus; adiv := Qdiv |}.
#[export] Instance Arr_list `{Arr A} : Arr (list A) :=
  {| asub := zip_with asub; adiv := fun l d => (fun a => adiv a d) <$> l |}.

(** [a[:, j]] on an array with at least two axes. *)
Definition column {A} (a : list (list A)) (j : Z) : result (list A) :=
  mapR (fun row => getitem row j) a.

End Py.
Import Py.

(** ** helpers.py *)

(** [_ma1d]: centred moving average of window [k] with edge padding. *)
Definition _ma1d (x : list Q) (k : Z) : result (list Q) :=
  let k := Z.max 1 k in
  if k =? 1 then Ok x
  else
    let pad := k `div` 2 in
    xp <- pad_edge x pad;;
    convolve_valid xp (replicate (Z.to_nat k) (1 / inject_Z k)%Q).

(** [_ma3]: [_ma1d] on each of the three coordinates of a [(T, 3)] array;
    each smoothed coordinate is stored into a column of length [T]. *)
Definition _ma3 (v : list (list Q)) (k : Z) : result (list (list Q)) :=
  let T := length v in
  c0 <- column v 0;; s0 <- _ma1d c0 k;; o0 <- assign_axis T s0;;
  c1 <- column v 1;; s1 <- _ma1d c1 k;; o1 <- assign_axis T s1;;
  c2 <- column v 2;; s2 <- _ma1d c2 k;; o2 <- assign_axis T s2;;
  Ok (zip_with (fun a bc => a :: bc) o0 (zip_with (fun b c => [b; c]) o1 o2)).

(** [_grad], branch [x.ndim == 1]: one-sided differences at the two ends,
    central differences inside; a single sample has derivative zero. *)
Definition _grad (x : list Q) (dt : Q) : result (list Q) :=
  let n := len x in
  if n =? 1 then Ok [0%Q]
  else
    x1 <- getitem x 1;; x0 <- getitem x 0;;
    let g0 := ((x1 - x0) / dt)%Q in
    xl <- getitem x (-1);; xl2 <- getitem x (-2);;
    let gl := ((xl - xl2) / dt)%Q in
    let mid := if 2 <? n
               then zip_with (fun a b => ((a - b) / (2 * dt))%Q)
                      (slice_from x 2) (slice_to x (-2))
               else [] in
    Ok (if 2 <? n then g0 :: mid ++ [gl] else [g0; gl]).

(** [_grad], branch [x.ndim > 1]: the same differences along the first
    axis, without the single-sample case. *)
Definition _grad_nd `{Arr A} (x : list A) (dt : Q) : result (list A) :=
  let n := len x in
  x1 <- getitem x 1;; x0 <- getitem x 0;;
  let g0 := adiv (asub x1 x0) dt in
  xl <- getitem x (-1);; xl2 <- getitem x (-2);;
  let gl := adiv (asub xl xl2) dt in
  let mid := if 2 <? n
             then (fun d => adiv d (2 * dt)%Q)
                    <$> zip_with asub (slice_from x 2) (slice_to x (-2))
             else [] in
  Ok (if 2 <? n then g0 :: mid ++ [gl] else [g0; gl]).

(** [_local_minima]: strictly below the left neighbour, at most the right
    one; the two boundary samples are never marked. *)
Definition _local_minima (x : list Q) : list bool :=
  let m := replicate (length x) false in
  if 3 <=? len x then
    take 1 m
    ++ zip_with andb
         (zip_with (fun c l => Qltb c l) (slice x 1 (-1)) (slice_to x (-2)))
         (zip_with (fun c r => Qleb c r) (slice x 1 (-1)) (slice_from x 2))
    ++ drop (length x - 1) m
  else m.

(** [_local_maxima]: strictly above the left neighbour, at least the right
    one; the two boundary samples are never marked. *)
Definition _local_maxima (x : list Q) : list bool :=
  let m := replicate (length x) false in
  if 3 <=? len x then
    take 1 m
    ++ zip_with andb
         (zip_with (fun c l => Qltb l c) (slice x 1 (-1)) (slice_to x (-2)))
         (zip_with (fun c r => Qleb r c) (slice x 1 (-1)) (slice_from x 2))
    ++ drop (length x - 1) m
  else m.

(** One iteration of the greedy loop of [_nms_basic]: state is
    [(taken, picked)]. *)
Definition nms_step (T win : Z) (st : list bool * list Z) (i : Z)
    : list bool * list Z :=
  let '(taken, picked) := st in
  if negb (default false (taken !! Z.to_nat i)) then
    let lo := Z.max 0 (i - win) in
    let hi := Z.min T (i + win + 1) in
    (fill_slice taken lo hi true, picked ++ [i])
  else st.

(** The loop [for i in order: ...] of [_nms_basic]. *)
Definition nms_loop (T win : Z) (order : list Z) (taken : list bool) : list Z :=
  (foldl (nms_step T win) (taken, []) order).2.

(** [win = max(1, int(round(float(min_sep_s) * float(fps))))]. *)
Definition nms_window (fps min_sep_s : Q) : Z :=
  Z.max 1 (round (min_sep_s * fps)%Q).

(** [_nms_basic]: local maxima visited by decreasing score, each kept unless
    already suppressed, and suppressing [win] frames on both sides. *)
Definition _nms_basic (score : list Q) (fps min_sep_s : Q) : list Z :=
  let idx := np_where (_local_maxima score) in
  if len idx =? 0 then idx
  else
    let order := take_at 0 idx (reverse (argsort (take_at 0%Q score idx))) in
    let taken := replicate (length score) false in
    let win := nms_window fps min_sep_s in
    sorted (nms_loop (len score) win order taken).


(** [_robust_norm]: percentile normalisation to [0, 1]; the Python defaults
    are [lo = 5.0], [hi = 95.0], [eps = 1e-9]. *)
Definition _robust_norm (x : list Q) (lo hi eps : Q) : result (list Q) :=
  if len x =? 0 then Ok x
  else
    a <- percentile x lo;;
    b <- percentile x hi;;
    if Qltb (b - a) eps then Ok (replicate (length x) 0%Q)
    else
      let y := (fun v => ((v - a) / (b - a))%Q) <$> x in
      Ok (clip 0 1 <$> y).

(** Samples of magnitude at most [1e300].  On such samples the float64
    arithmetic of [_robust_norm] cannot overflow: the percentiles lie
    between the samples, and the differences [b - a] and [x - a] stay
    finite, so that neither [inf] nor NaN arises. *)
Definition no_overflow (x : list Q) : Prop :=
  Forall (fun v => (Qabs v <= inject_Z (10 ^ 300))%Q) x.

(** [_hysteresis_mask]: sequential two-threshold gate. *)
Definition _hysteresis_mask (score : list Q) (thr_hi thr_lo : Q) : list bool :=
  (foldl (fun (st : bool * list bool) s =>
            let '(on, m) := st in
            let on' := if negb on && Qleb thr_hi s then true
                       else if on && Qltb s thr_lo then false
                       else on in
            (on', m ++ [on']))
         (false, []) score).2.

(** [np.trapz(w, dx=1.0)]. *)
Definition trapz (w : list Q) : Q :=
  Qsum (zip_with (fun a b => ((a + b) / 2)%Q) (drop 1 w) w).

(** [_prominence_and_area] around position [i] (known to be in range). *)
Definition _prominence_and_area (x : list Q) (i radius : Z)
    : result (Q * Q) :=
  let lo := Z.max 0 (i - radius) in
  let hi := Z.min (len x) (i + radius + 1) in
  let win := slice x lo hi in
  peak <- getitem x i;;
  wmin <- np_min win;;
  el <- (if 0 <? lo then getitem x lo else Ok peak);;
  er <- (if hi <? len x then getitem x (hi - 1) else Ok peak);;
  let base := Qmax2 wmin (Qmin2 el er) in
  let prom := (peak - base)%Q in
  let area := trapz (clip_lo 0 <$> win) in
  Ok (prom, area).

(** [_estimate_period_from_autocorr]: lag of the autocorrelation maximum,
    in seconds; [None] on short signals or a non-positive lag.  The final
    [float(k) / float(fps)] divides Python floats: a zero [fps] raises
    [ZeroDivisionError]. *)
Definition _estimate_period_from_autocorr `{Libm} (x : list Q) (fps : Q)
    : result (option Q) :=
  if len x <? 8 then Ok None
  else
    let m := mean x in
    let sd := std x in
    let x := (fun v => ((v - m) / (sd + eps9))%Q) <$> x in
    let ac := slice_from (correlate_full x x) (len x - 1) in
    let ac := fill_slice ac 0 2 0%Q in
    k <- argmax ac;;
    if k <=? 0 then Ok None
    else if Qeq_bool fps 0 then Raise ZeroDivisionError
    else Ok (Some (inject_Z k / fps)%Q).

(** [_valid_idx] and [_safe_idx] on an optional joint index. *)
Definition _valid_idx (idx : option Z) (N : Z) : bool :=
  match idx with
  | None => false
  | Some i => (0 <=? i) && (i <? N)
  end.

Definition _safe_idx (idx : option Z) (J : Z) : option Z :=
  match idx with
  | Some i => if (0 <=? i) && (i <? J) then Some i else None
  | None => None
  end.

(** [_estimate_ground_level]: a low quantile of a height trajectory. *)
Definition _estimate_ground_level (y_traj : list Q) (q : Q) : result Q :=
  if len y_traj =? 0 then Ok 0%Q
  else percentile y_traj (q * 100)%Q.

(** The texture rows of the joint listed at position [k], read at frame
    [t] and put back in [(x, y, z)] order: the textures hold [(x, z, y)]. *)
Definition texture_xyz (x y z : list Q) (t : nat) : list Q :=
  [default 0%Q (x !! t); default 0%Q (y !! t); default 0%Q (z !! t)].

(** One iteration of the loop of [pack_positions_from_textures], for the
    joint [jidx] listed at position [k]. *)
Definition pack_joint (textures : list (list Q)) (n_total_joints : Z)
    (pos : list (list (list Q))) (kj : nat * Z)
    : result (list (list (list Q))) :=
  if negb (_valid_idx (Some kj.2) n_total_joints) then Ok pos
  else
    x <- getitem textures (3 * Z.of_nat kj.1 + 0);;
    z <- getitem textures (3 * Z.of_nat kj.1 + 1);;
    y <- getitem textures (3 * Z.of_nat kj.1 + 2);;
    Ok (imap (fun t (frame : list (list Q)) =>
                <[Z.to_nat kj.2 := texture_xyz x y z t]> frame) pos).

(** [pack_positions_from_textures].  [textures] is kept row by row, so
    [T_tex = textures.shape[1]] is the length of its first row;
    [coord_is_xzy] stands for the test [coord_order.lower() == "xzy"]. *)
Definition pack_positions_from_textures (textures : list (list Q))
    (joint_indices : list Z) (n_total_joints : Z) (coord_is_xzy : bool)
    : result (list (list (list Q))) :=
  let T_tex := from_option length 0%nat (head textures) in
  if n_total_joints <? 0 then Raise ValueError
  else
    let pos := replicate T_tex
                 (replicate (Z.to_nat n_total_joints) [0; 0; 0]%Q) in
    if negb coord_is_xzy then Raise ValueError
    else foldR (pack_joint textures n_total_joints) pos (imap pair joint_indices).

(** Invariant of the greedy loop of [_nms_basic] over a score of length
    [T]: every frame within [win] of a picked index is marked in [taken],
    picked indices are pairwise more than [win] apart, and none is picked
    twice. *)
Definition nms_inv (T : nat) (win : Z) (st : list bool * list Z) : Prop :=
  length st.1 = T
  ∧ (∀ p (j : nat), p ∈ st.2 → (j < T)%nat →
       Z.abs (Z.of_nat j - p) <= win → st.1 !! j = Some true)
  ∧ (∀ p q, p ∈ st.2 → q ∈ st.2 → p ≠ q → win < Z.abs (p - q))
  ∧ NoDup st.2.

(** An Event Set over [T] frames: strictly increasing frame indices in
    [0, T). *)
Definition event_set (T : Z) (ev : list Z) : Prop :=
  StronglySorted Z.lt ev ∧ Forall (fun e => 0 <= e < T) ev.

(** ** cues.py

    A positions array of shape [(T, J, 3)] is a list of [T] frames, each a
    list of [J] joints, each a list of three coordinates. *)

Abbreviation positions_t := (list (list (list Q))).

(** The loop [for j in range(J): Xs[:, j, :] = _ma3(sel[:, j, :], k)]:
    every selected joint is smoothed, and the smoothed trajectories are put
    back side by side, frame by frame. *)
Definition smooth_joints (positions_sel : positions_t) (smooth_win : Z)
    : result positions_t :=
  let T := length positions_sel in
  let J := from_option length 0%nat (head positions_sel) in
  per_joint <- mapR (fun j => traj <- column positions_sel (Z.of_nat j);;
                             _ma3 traj smooth_win) (seq 0 J);;
  Ok ((fun t => (fun traj : list (list Q) => default [] (traj !! t)) <$> per_joint)
      <$> seq 0 T).

(** [_body_speed_trace]: median over joints of the speed of the smoothed
    trajectories. *)
Definition _body_speed_trace `{Libm} (positions_sel : positions_t) (dt : Q)
    (smooth_win : Z) : result (list Q) :=
  Xs <- smooth_joints positions_sel smooth_win;;
  V <- _grad_nd Xs dt;;
  let speed_j := (fun fr : list (list Q) => norm <$> fr) <$> V in
  Ok (median <$> speed_j).

(** [_cue_deceleration]: deceleration at the local minima of the speed. *)
Definition _cue_deceleration (speed : list Q) (dt : Q) : result (list Q) :=
  ds_dt <- _grad speed dt;;
  let decel := (fun v => clip_lo 0 (- v)%Q) <$> ds_dt in
  let raw := zip_with (fun (m : bool) d => ((if m then 1 else 0) * d)%Q)
               (_local_minima speed) decel in
  _robust_norm raw 5 95 eps9.

(** [_cue_pelvis_drop]: upward acceleration at the local minima of the
    pelvis height. *)
Definition _cue_pelvis_drop (positions : positions_t) (pelvis_idx : option Z)
    (dt : Q) (smooth_win : Z) : result (list Q) :=
  let T := length positions in
  let N := from_option len 0 (head positions) in
  if negb (_valid_idx pelvis_idx N) then Ok (replicate T 0%Q)
  else
    traj <- column positions (default 0 pelvis_idx);;
    pelvis <- _ma3 traj smooth_win;;
    y <- column pelvis 1;;
    vy <- _grad y dt;;
    ay <- _grad vy dt;;
    let mins := _local_minima y in
    let bounce := clip_lo 0 <$> ay in
    _robust_norm
      (zip_with (fun (m : bool) b => ((if m then 1 else 0) * b)%Q) mins bounce)
      5 95 eps9.

(** [_leg_length]: median pelvis-to-foot distance, at least [1e-6]. *)
Definition _leg_length `{Libm} (positions : positions_t)
    (pelvis_idx lfoot_idx rfoot_idx : option Z) : result Q :=
  let J := from_option len 0 (head positions) in
  let pelvis_idx := _safe_idx pelvis_idx J in
  let lfoot_idx := _safe_idx lfoot_idx J in
  let rfoot_idx := _safe_idx rfoot_idx J in
  match pelvis_idx with
  | None => Ok 1%Q
  | Some p =>
      if negb (bool_decide (is_Some lfoot_idx))
         && negb (bool_decide (is_Some rfoot_idx)) then Ok 1%Q
      else
        pel <- column positions p;;
        dl <- match lfoot_idx with
              | Some l => foot <- column positions l;;
                          Ok (norm <$> zip_with asub pel foot)
              | None => Ok []
              end;;
        dr <- match rfoot_idx with
              | Some r => foot <- column positions r;;
                          Ok (norm <$> zip_with asub pel foot)
              | None => Ok []
              end;;
        Ok (Qmax2 (median (dl ++ dr)) eps6)
  end.

(** [_cue_foot_contact]: low, horizontally slow, vertically moving foot,
    with a bonus at the local minima of its height.  [q_speed] is accepted
    and unused, as in the source. *)
Definition _cue_foot_contact `{Libm} (positions : positions_t)
    (foot_idx : option Z) (dt : Q) (smooth_win : Z)
    (q_speed ground_q leg_scale : Q) : result (list Q) :=
  let T := length positions in
  let N := from_option len 0 (head positions) in
  if negb (_valid_idx foot_idx N) || (T =? 0)%nat then Ok (replicate T 0%Q)
  else
    traj <- column positions (default 0 foot_idx);;
    foot <- _ma3 traj smooth_win;;
    y <- column foot 1;;
    x0 <- column foot 0;; x2 <- column foot 2;;
    let xy := zip_with (fun a b => [a; b]) x0 x2 in
    g <- _estimate_ground_level y ground_q;;
    let y_rel := (fun v => (Qmax2 0 (v - g) / Qmax2 leg_scale eps6)%Q) <$> y in
    vxy <- _grad_nd xy dt;;
    let sp := norm <$> vxy in
    vy <- _grad y_rel dt;;
    let vy_abs := Qabs <$> vy in
    h_norm <- _robust_norm y_rel 5 95 eps9;;
    s_norm <- _robust_norm sp 5 95 eps9;;
    vy_norm <- _robust_norm vy_abs 5 95 eps9;;
    let height_score := (fun h => (1 - h)%Q) <$> h_norm in
    let speed_score := (fun s => (1 - s)%Q) <$> s_norm in
    let impact_score := vy_norm in
    let base := zip_with Qmult height_score speed_score in
    let mins := _local_minima y_rel in
    let minima_bonus := (fun m : bool => (1 + (3 # 10) * (if m then 1 else 0))%Q) <$> mins in
    let raw := zip_with Qmult (zip_with Qmult base impact_score) minima_bonus in
    _robust_norm raw 5 95 eps9.

(** [_cue_global_accel]: median over joints of the acceleration magnitude. *)
Definition _cue_global_accel `{Libm} (positions_sel : positions_t) (dt : Q)
    (smooth_win : Z) : result (list Q) :=
  Xs <- smooth_joints positions_sel smooth_win;;
  V <- _grad_nd Xs dt;;
  A <- _grad_nd V dt;;
  let acc_j := (fun fr : list (list Q) => norm <$> fr) <$> A in
  _robust_norm (median <$> acc_j) 5 95 eps9.

(** [_cue_reversal]: deceleration of the median speed at its local minima. *)
Definition _cue_reversal `{Libm} (positions_sel : positions_t) (dt : Q)
    (smooth_win : Z) : result (list Q) :=
  Xs <- smooth_joints positions_sel smooth_win;;
  V <- _grad_nd Xs dt;;
  let speed_j := (fun fr : list (list Q) => norm <$> fr) <$> V in
  let m := median <$> speed_j in
  dm <- _grad m dt;;
  let rev := zip_with (fun d (b : bool) => (clip_lo 0 (- d) * (if b then 1 else 0))%Q)
               dm (_local_minima m) in
  _robust_norm rev 5 95 eps9.

(** A [Libm] whose square root is exact on squares of rationals (and rounds
    numerator and denominator down otherwise); used to run the model on
    concrete inputs. *)
Definition libm_rational : Libm :=
  {| np_sqrt := fun q => Z.sqrt (Qnum q) # Pos.sqrt (Qden q) |}.

(** ** ml_helpers.py *)

(** [_as_int_sorted_unique]: distinct values in ascending order. *)
Definition _as_int_sorted_unique (x : list Z) : list Z :=
  if len x =? 0 then []
  else sorted (np_unique x).

(** [np.diff] of an int array. *)
Definition np_diff (a : list Z) : list Z := zip_with Z.sub (drop 1 a) a.

(** [mask.astype(int)] on one entry. *)
Definition bool_to_int (b : bool) : Z := if b then 1 else 0.

(** [np.where(np.diff(padded.astype(int)) == v)[0]]: the positions where
    the padded mask changes by [v]. *)
Definition edges (v : Z) (padded : list bool) : list Z :=
  np_where ((fun c => c =? v) <$> np_diff (bool_to_int <$> padded)).

(** [probs_to_events]: the frames at or above [thr] are grouped into runs
    (rising and falling edges of the padded mask), and each run contributes
    the position of its first maximum. *)
Definition probs_to_events (prob : list Q) (thr : Q) : result (list Z) :=
  let T := len prob in
  if T =? 0 then Ok []
  else
    let mask := (fun p => Qleb thr p) <$> prob in
    let padded := [false] ++ mask ++ [false] in
    let starts := edges 1 padded in
    let ends := edges (-1) padded in
    events <- foldR (fun (events : list Z) (se : Z * Z) =>
                       if se.2 <=? se.1 then Ok events
                       else
                         k <- argmax (slice prob se.1 se.2);;
                         Ok (events ++ [se.1 + k]))
                    [] (zip starts ends);;
    Ok (_as_int_sorted_unique events).

(** A maximal run of [true] in a mask, seen through its padded form
    [p = prev :: mask ++ [false]]: the run occupies the mask positions
    [s .. e-1], which are the padded positions [s+1 .. e]. *)
Definition is_run (p : list bool) (se : Z * Z) : Prop :=
  0 <= se.1 < se.2
  ∧ p !! Z.to_nat se.1 = Some false
  ∧ p !! Z.to_nat (se.2 + 1) = Some false
  ∧ ∀ j, se.1 <= j < se.2 → p !! Z.to_nat (j + 1) = Some true.

(** One iteration of the snapping loop of [combine_rule_and_ml_events]: a
    rule event moves to the strongest frame within [snap_r], unless that
    frame is below [thr_ml]. *)
Definition snap_rule_event (prob : list Q) (snap_r : Z) (thr_ml : Q)
    (snapped : list Z) (e : Z) : result (list Z) :=
  let T := len prob in
  let lo := Z.max 0 (e - snap_r) in
  let hi := Z.min T (e + snap_r + 1) in
  if hi <=? lo then Ok snapped
  else
    k <- argmax (slice prob lo hi);;
    let best := lo + k in
    pb <- getitem prob best;;
    let best := if Qltb pb thr_ml then e else best in
    Ok (snapped ++ [best]).

(** One iteration of the merging loop of [combine_rule_and_ml_events]:
    an event closer than [min_sep] to the last kept one replaces it when
    its probability is higher, and is dropped otherwise. *)
Definition keep_separated (prob : list Q) (min_sep : Z) (kept : list Z) (e : Z)
    : result (list Z) :=
  match last kept with
  | None => Ok (kept ++ [e])
  | Some l =>
      if e - l <? min_sep then
        pe <- getitem prob e;;
        pl <- getitem prob l;;
        if Qltb pl pe then Ok (take (length kept - 1) kept ++ [e])
        else Ok kept
      else Ok (kept ++ [e])
  end.

(** [combine_rule_and_ml_events]; the Python defaults are
    [snap_radius_s = 0.12], [thr_ml = 0.5], [min_sep_s = 0.08]. *)
Definition combine_rule_and_ml_events (events_rule : list Z) (prob : list Q)
    (fps snap_radius_s thr_ml min_sep_s : Q) : result (list Z) :=
  let T := len prob in
  if T =? 0 then Ok []
  else
    let events_rule := _as_int_sorted_unique events_rule in
    let snap_r := Z.max 0 (round (snap_radius_s * fps)%Q) in
    snapped <- foldR (snap_rule_event prob snap_r thr_ml) [] events_rule;;
    let events_snapped := _as_int_sorted_unique snapped in
    events_ml <- probs_to_events prob thr_ml;;
    let min_sep := Z.max 1 (round (min_sep_s * fps)%Q) in
    let all_e := _as_int_sorted_unique (events_snapped ++ events_ml) in
    kept <- foldR (keep_separated prob min_sep) [] all_e;;
    Ok (_as_int_sorted_unique kept).

(** [n * sum(k*e) - sum(k) * sum(e)]: the numerator of the least-squares
    slope of [e] against [k]; with [e := k] its denominator. *)
Definition cross_moment (k e : list Q) : Q :=
  (inject_Z (len k) * dot k e - Qsum k * Qsum e)%Q.

(** Two samples [(k, e)] of a line fit of which the second lies at least
    one index later and at least as far on in [e] as in [k]. *)
Definition gap_dom (p q : Q * Q) : Prop :=
  (1 <= q.1 - p.1)%Q ∧ (q.1 - p.1 <= q.2 - p.2)%Q.

(** [np.polyfit(k, e, 1)] as the exact least-squares line [e ≈ a + b*k],
    returned as [(b, a)].  An empty [k] raises [TypeError].  When all
    entries of [k] are equal the normal equations are singular: NumPy
    scales each column of the design matrix [[k, 1]] by its norm, so for
    [k] all zero the column becomes NaN and [lstsq] raises [LinAlgError];
    for a common value [c] other than zero [lstsq] yields the solution of
    least norm of the scaled system, which is [b = mean(e) / (2*c)] and
    [a = mean(e) / 2] (with a [RankWarning], which is no exception).
    [None] stands for coefficients that are not finite; exact arithmetic
    never yields it. *)
Definition polyfit1 (k e : list Q) : result (option (Q * Q)) :=
  if len k =? 0 then Raise TypeError
  else
    let n := inject_Z (len k) in
    let sk := Qsum k in
    let se := Qsum e in
    let den := (n * dot k k - sk * sk)%Q in
    if Qeq_bool den 0 then
      let c := (sk / n)%Q in
      if Qeq_bool c 0 then Raise LinAlgError
      else Ok (Some ((se / n) / (2 * c), (se / n) / 2))%Q
    else
      let b := ((n * dot k e - sk * se) / den)%Q in
      Ok (Some (b, ((se - b * sk) / n)%Q)).

(** The guard [not np.isfinite(b) or b <= 0.5] on a fitted slope. *)
Definition slope_unusable (fit : option (Q * Q)) : bool :=
  match fit with
  | None => true
  | Some (b, _) => Qleb b (1 # 2)
  end.

(** One iteration of the snapping loop of [refine_events_with_tempo]. *)
Definition snap_to_peak (score : list Q) (drift : Z) (snapped : list Z) (p : Q)
    : result (list Z) :=
  let T := len score in
  let c := round p in
  let lo := Z.max 0 (c - drift) in
  let hi := Z.min T (c + drift + 1) in
  if hi <=? lo then Ok snapped
  else
    m <- argmax (slice score lo hi);;
    Ok (snapped ++ [lo + m]).

(** [refine_events_with_tempo] ([verbose] only prints and is left out). *)
Definition refine_events_with_tempo (events_idx : list Z) (score : list Q)
    (fps : Q) (max_drift_frames min_events : Z) : result (list Z) :=
  let T := len score in
  let ev := _as_int_sorted_unique events_idx in
  if (len ev <? min_events) || (len ev <? 2) || (T =? 0) then Ok ev
  else
    let ev := filter (fun e => 0 <= e < T) ev in
    if len ev <? min_events then Ok ev
    else
      let k := arange (length ev) in
      let evq := inject_Z <$> ev in
      fit <- polyfit1 k evq;;
      if slope_unusable fit then Ok ev
      else
        let '(b, a) := default (0, 0)%Q fit in
        let pred := (fun kk => a + b * kk)%Q <$> k in
        let resid := zip_with Qminus evq pred in
        let med := median resid in
        let mad := (median ((fun r => Qabs (r - med)) <$> resid) + eps9)%Q in
        let good := (fun r => Qleb (Qabs r) ((7 # 2) * mad)) <$> resid in
        let ngood := len (filter (fun g => g = true) good) in
        refit <- (if (min_events <=? ngood) && (ngood <? len ev) then
                    fit2 <- polyfit1 (mask_select good k) (mask_select good evq);;
                    if slope_unusable fit2 then Ok None
                    else
                      let '(b, a) := default (0, 0)%Q fit2 in
                      Ok (Some ((fun kk => a + b * kk)%Q <$> k))
                  else Ok (Some pred));;
        match refit with
        | None => Ok ev
        | Some pred =>
            let drift := Z.max 0 max_drift_frames in
            snapped <- foldR (snap_to_peak score drift) [] pred;;
            Ok (_as_int_sorted_unique snapped)
        end.

(** The subdivision points strictly inside the interval [a, b]:
    [round(a + (b - a) * (k / factor))] for [k = 1 .. factor - 1]. *)
Definition subdivide_points (a b factor : Z) : list Z :=
  (fun k => round (inject_Z a
                   + inject_Z (b - a) * (inject_Z k / inject_Z factor))%Q)
  <$> seqZ 1 (factor - 1).

(** The clean-up loop of [subdivide_events_uniform]: clamp to [0, T-1],
    keep the first occurrence of every value. *)
Definition clamp_dedup_step (T : Z) (st : list Z * list Z) (e : Z)
    : list Z * list Z :=
  let '(cleaned, seen) := st in
  let e := Z.max 0 (Z.min (T - 1) e) in
  if bool_decide (e ∈ seen) then st
  else (cleaned ++ [e], e :: seen).

(** [subdivide_events_uniform]. *)
Definition subdivide_events_uniform (events_idx : list Z) (factor T : Z)
    : list Z :=
  let ev := _as_int_sorted_unique events_idx in
  let factor := Z.max 1 factor in
  if (len ev <? 2) || (factor =? 1) then filter (fun e => 0 <= e < T) ev
  else
    let out :=
      foldl (fun (out : list Z) (ab : Z * Z) =>
               if ab.2 <=? ab.1 then out
               else out ++ subdivide_points ab.1 ab.2 factor ++ [ab.2])
            (take 1 ev) (zip ev (drop 1 ev)) in
    (foldl (clamp_dedup_step T) ([], []) out).1.

(** ** BeatExtraction.py *)

Record BeatParamsV1 : Type := {
  smooth_win : Z;
  score_threshold : Q;
  nms_separation_s : Q;
  w_decel : Q;
  w_pelvis : Q;
  w_foot : Q;
  foot_speed_q : Q;
  ground_q : Q;
  use_leg_norm : bool;
  adaptive_nms : bool;
  hysteresis_low_fac : Q;
  phase_snap_radius : Z;
  snap_recheck_radius : Z
}.

(** [BeatParamsV2] extends [BeatParamsV1]. *)
Record BeatParamsV2 : Type := {
  v1 : BeatParamsV1;
  w_accel : Q;
  w_reversal : Q;
  prom_window_s : Q;
  min_prominence : Q;
  min_area : Q
}.

Definition default_params_v1 : BeatParamsV1 := {|
  smooth_win := 5;
  score_threshold := 6 # 10;
  nms_separation_s := 12 # 100;
  w_decel := 4 # 10;
  w_pelvis := 3 # 10;
  w_foot := 3 # 10;
  foot_speed_q := 2 # 10;
  ground_q := 5 # 100;
  use_leg_norm := true;
  adaptive_nms := true;
  hysteresis_low_fac := 8 # 10;
  phase_snap_radius := 3;
  snap_recheck_radius := 2
|}.

Definition default_params_v2 : BeatParamsV2 := {|
  v1 := default_params_v1;
  w_accel := 2 # 10;
  w_reversal := 2 # 10;
  prom_window_s := 12 # 100;
  min_prominence := 1 # 10;
  min_area := 1 # 10
|}.

(** The dictionaries returned by the two extractors. *)
Record BeatsV1 : Type := {
  beat_score : list Q;
  candidate_mask : list bool;
  events_idx : list Z;
  C_decel : list Q;
  C_pelvis : list Q;
  C_foot : list Q
}.

Record BeatsV2 : Type := {
  common : BeatsV1;
  C_accel : list Q;
  C_reversal : list Q
}.

Definition empty_beats_v1 : BeatsV1 := {|
  beat_score := [];
  candidate_mask := [];
  events_idx := [];
  C_decel := [];
  C_pelvis := [];
  C_foot := []
|}.

(** A per-frame array of a result dictionary: [T] samples, all in [0, 1]. *)
Definition unit_array (T : nat) (c : list Q) : Prop :=
  length c = T ∧ Forall (fun v => (0 <= v <= 1)%Q) c.

(** [Jidx]: the requested joints that exist, or all joints when none does. *)
Definition clamp_joints (joint_indices : list Z) (N : Z) : list Z :=
  let Jidx := filter (fun j => 0 <= j < N) joint_indices in
  if len Jidx =? 0 then arange_int 0 N else Jidx.

(** [positions[:, Jidx, :]]. *)
Definition select_joints (positions : positions_t) (Jidx : list Z) : positions_t :=
  (fun frame : list (list Q) => take_at [] frame Jidx) <$> positions.

(** The adaptive separation: half the autocorrelation period, clamped to
    [0.08 s, 0.25 s], when a period is found. *)
Definition adaptive_sep `{Libm} (p : BeatParamsV1) (score : list Q) (fps : Q)
    : result Q :=
  if adaptive_nms p then
    estT <- _estimate_period_from_autocorr score fps;;
    match estT with
    | Some t => Ok (Qmax2 (8 # 100) (Qmin2 (25 # 100) ((1 # 2) * t)))
    | None => Ok (nms_separation_s p)
    end
  else Ok (nms_separation_s p).

(** Body of the phase-snap loop for one event [ei]. *)
Definition phase_snap_one (positions : positions_t) (dt : Q) (radius : Z)
    (left_foot_idx right_foot_idx : option Z) (C_lfoot C_rfoot : list Q)
    (snapped : list Z) (ei : Z) : result (list Z) :=
  let T := len positions in
  let N := from_option len 0 (head positions) in
  cl <- getitem C_lfoot ei;;
  cr <- getitem C_rfoot ei;;
  let use_left := Qleb cr cl in
  let fidx := if use_left then left_foot_idx else right_foot_idx in
  if negb (_valid_idx fidx N) then Ok (snapped ++ [ei])
  else
    traj <- column positions (default 0 fidx);;
    y <- column traj 1;;
    vy <- _grad y dt;;
    ay <- _grad vy dt;;
    j3 <- _grad ay dt;;
    let jy := Qabs <$> j3 in
    let lo := Z.max 0 (ei - radius) in
    let hi := Z.min T (ei + radius + 1) in
    let win := arange_int lo hi in
    let mins := slice (_local_minima y) lo hi in
    if existsb id mins then
      let cand := mask_select mins win in
      m <- argmin ((fun c => inject_Z (Z.abs (c - ei))) <$> cand);;
      c <- getitem cand m;;
      Ok (snapped ++ [c])
    else
      m <- argmax (slice jy lo hi);;
      Ok (snapped ++ [lo + m]).

(** The phase-snap block: [sorted(set(snapped))]. *)
Definition phase_snap (positions : positions_t) (dt : Q) (radius : Z)
    (left_foot_idx right_foot_idx : option Z) (C_lfoot C_rfoot : list Q)
    (events : list Z) : result (list Z) :=
  snapped <- foldR (phase_snap_one positions dt radius left_foot_idx
                      right_foot_idx C_lfoot C_rfoot) [] events;;
  Ok (sorted (remove_dups snapped)).

(** Whether the phase-snap block is entered. *)
Definition snap_enabled (p : BeatParamsV1) (N : Z)
    (left_foot_idx right_foot_idx : option Z) (events : list Z) : bool :=
  (0 <? phase_snap_radius p)
  && (_valid_idx left_foot_idx N || _valid_idx right_foot_idx N)
  && negb (len events =? 0).

(** [extract_beats_v1].  The input is a well-shaped [(T, N, 3)] array (the
    source asserts it); [N] is read off the first frame. *)
Definition extract_beats_v1 `{Libm} (positions : positions_t) (fps : Q)
    (joint_indices : list Z) (params : option BeatParamsV1)
    (pelvis_idx left_foot_idx right_foot_idx : option Z) : result BeatsV1 :=
  let params := default default_params_v1 params in
  let T := len positions in
  let N := from_option len 0 (head positions) in
  if (T =? 0) || Qleb fps 0 then Ok empty_beats_v1
  else
    let dt := (1 / fps)%Q in
    let Jidx := clamp_joints joint_indices N in
    let sel := select_joints positions Jidx in
    leg_scale <- (if use_leg_norm params
                  then _leg_length positions pelvis_idx left_foot_idx right_foot_idx
                  else Ok 1%Q);;
    speed <- _body_speed_trace sel dt (smooth_win params);;
    C_decel <- _cue_deceleration speed dt;;
    C_pelvis <- _cue_pelvis_drop positions pelvis_idx dt (smooth_win params);;
    C_lfoot <- _cue_foot_contact positions left_foot_idx dt (smooth_win params)
                 (foot_speed_q params) (ground_q params) leg_scale;;
    C_rfoot <- _cue_foot_contact positions right_foot_idx dt (smooth_win params)
                 (foot_speed_q params) (ground_q params) leg_scale;;
    let C_foot := zip_with Qmax2 C_lfoot C_rfoot in
    let fused := zip_with Qplus
                   (zip_with Qplus (Qmult (w_decel params) <$> C_decel)
                                   (Qmult (w_pelvis params) <$> C_pelvis))
                   (Qmult (w_foot params) <$> C_foot) in
    score <- _robust_norm fused 5 95 eps9;;
    let thr_hi := score_threshold params in
    let thr_lo := (score_threshold params * hysteresis_low_fac params)%Q in
    let mask_hyst := _hysteresis_mask score thr_hi thr_lo in
    nms_sep <- adaptive_sep params score fps;;
    let events := _nms_basic score fps nms_sep in
    events <- (if snap_enabled params N left_foot_idx right_foot_idx events
               then phase_snap positions dt (phase_snap_radius params)
                      left_foot_idx right_foot_idx C_lfoot C_rfoot events
               else Ok events);;
    Ok {| beat_score := score;
          candidate_mask := mask_hyst;
          events_idx := events;
          C_decel := C_decel;
          C_pelvis := C_pelvis;
          C_foot := C_foot |}.

(** The prominence/area gate of v2 on the candidates [cand_idx]. *)
Definition prominent_candidates (p : BeatParamsV2) (score : list Q)
    (prom_win : Z) (cand_idx : list Z) : result (list Z) :=
  foldR (fun keep i =>
           pa <- _prominence_and_area score i prom_win;;
           if Qleb (min_prominence p) pa.1 && Qleb (min_area p) pa.2
           then Ok (keep ++ [i]) else Ok keep)
        [] cand_idx.

(** The hard recheck of v2: keep an event only if the score reaches
    [thr_hi] within [r] frames of it. *)
Definition hard_recheck (score : list Q) (thr_hi : Q) (r : Z) (events : list Z)
    : result (list Z) :=
  let T := len score in
  foldR (fun strong ei =>
           let lo := Z.max 0 (ei - r) in
           let hi := Z.min T (ei + r + 1) in
           m <- np_max (slice score lo hi);;
           if Qleb thr_hi m then Ok (strong ++ [ei]) else Ok strong)
        [] events.

(** [extract_beats_v2]: v1 with the two extra cues, the prominence/area
    gate, the hard recheck and the tempo refinement (inside the phase-snap
    block, as in the source). *)
Definition extract_beats_v2 `{Libm} (positions : positions_t) (fps : Q)
    (joint_indices : list Z) (params : option BeatParamsV2)
    (pelvis_idx left_foot_idx right_foot_idx : option Z) : result BeatsV2 :=
  let params2 := default default_params_v2 params in
  let params := v1 params2 in
  let T := len positions in
  let N := from_option len 0 (head positions) in
  if (T =? 0) || Qleb fps 0
  then Ok {| common := empty_beats_v1; C_accel := []; C_reversal := [] |}
  else
    let dt := (1 / fps)%Q in
    let Jidx := clamp_joints joint_indices N in
    let sel := select_joints positions Jidx in
    leg_scale <- (if use_leg_norm params
                  then _leg_length positions pelvis_idx left_foot_idx right_foot_idx
                  else Ok 1%Q);;
    speed <- _body_speed_trace sel dt (smooth_win params);;
    C_decel <- _cue_deceleration speed dt;;
    C_pelvis <- _cue_pelvis_drop positions pelvis_idx dt (smooth_win params);;
    C_lfoot <- _cue_foot_contact positions left_foot_idx dt (smooth_win params)
                 (foot_speed_q params) (ground_q params) leg_scale;;
    C_rfoot <- _cue_foot_contact positions right_foot_idx dt (smooth_win params)
                 (foot_speed_q params) (ground_q params) leg_scale;;
    let C_foot := zip_with Qmax2 C_lfoot C_rfoot in
    C_accel <- _cue_global_accel sel dt (smooth_win params);;
    C_rev <- _cue_reversal sel dt (smooth_win params);;
    let fused :=
      zip_with Qplus
        (zip_with Qplus
           (zip_with Qplus
              (zip_with Qplus (Qmult (w_decel params) <$> C_decel)
                              (Qmult (w_pelvis params) <$> C_pelvis))
              (Qmult (w_foot params) <$> C_foot))
           (Qmult (w_accel params2) <$> C_accel))
        (Qmult (w_reversal params2) <$> C_rev) in
    score <- _robust_norm fused 5 95 eps9;;
    let thr_hi := score_threshold params in
    let thr_lo := (score_threshold params * hysteresis_low_fac params)%Q in
    let mask_hyst := _hysteresis_mask score thr_hi thr_lo in
    let prom_win := Z.max 1 (round (prom_window_s params2 * fps)%Q) in
    let cand_idx := np_where (zip_with andb (_local_maxima score) mask_hyst) in
    cand_idx <- prominent_candidates params2 score prom_win cand_idx;;
    nms_sep <- adaptive_sep params score fps;;
    let events :=
      if negb (len cand_idx =? 0) then
        let tmp := imap (fun j s => if bool_decide (Z.of_nat j ∈ cand_idx)
                                    then s else 0%Q) score in
        _nms_basic tmp fps nms_sep
      else [] in
    events <- (if snap_enabled params N left_foot_idx right_foot_idx events
               then
                 events <- phase_snap positions dt (phase_snap_radius params)
                             left_foot_idx right_foot_idx C_lfoot C_rfoot events;;
                 events <- (if negb (len events =? 0)
                            then hard_recheck score thr_hi
                                   (Z.max 0 (snap_recheck_radius params)) events
                            else Ok events);;
                 refine_events_with_tempo events score fps 3 3
               else Ok events);;
    Ok {| common := {| beat_score := score;
                       candidate_mask := mask_hyst;
                       events_idx := events;
                       C_decel := C_decel;
                       C_pelvis := C_pelvis;
                       C_foot := C_foot |};
          C_accel := C_accel;
          C_reversal := C_rev |}.

(** A five-frame clip with a bouncing pelvis (joint 0) and a left foot
    (joint 1) that dips at frame 3, and parameters with a one-frame
    smoothing window; used to run the extractors. *)
Definition example_clip : positions_t :=
  [[[0; 2; 0]; [0; 1; 0]]; [[0; 1; 0]; [0; 1; 0]]; [[0; 3; 0]; [0; 1; 0]];
   [[0; 1; 0]; [0; 0; 0]]; [[0; 2; 0]; [0; 1; 0]]]%Q.

Definition example_params_v1 : BeatParamsV1 := {|
  smooth_win := 1;
  score_threshold := 6 # 10;
  nms_separation_s := 12 # 100;
  w_decel := 4 # 10;
  w_pelvis := 3 # 10;
  w_foot := 3 # 10;
  foot_speed_q := 2 # 10;
  ground_q := 5 # 100;
  use_leg_norm := false;
  adaptive_nms := true;
  hysteresis_low_fac := 8 # 10;
  phase_snap_radius := 3;
  snap_recheck_radius := 2
|}.

Definition example_params_v2 : BeatParamsV2 := {|
  v1 := example_params_v1;
  w_accel := 2 # 10;
  w_reversal := 2 # 10;
  prom_window_s := 12 # 100;
  min_prominence := 1 # 10;
  min_area := 1 # 10
|}.

(** ** io/loadbvh.py

    The loader works on float64 buffers and never compares them; its
    embedding is parametric in the number type [F] and its operations.
    [np.empty] buffers are rendered as filled with [fnan]. *)

Class FloatOps (F : Type) : Type := {
  fzero : F;
  fone : F;
  fnan : F;
  fadd : F → F → F;
  fmul : F → F → F;
  fneg : F → F;
  fcos : F → F;
  fsin : F → F;
  deg2rad : F → F
}.

Section loadbvh.
Context {F : Type} `{FloatOps F}.

(** A joint.  [parent] is the position of the parent in the skeleton (the
    Python field aliases the parent object, which the skeleton owns).
    [d_xyz] and [r_xyz] have shape [(3, T)]: one row per axis.  [trans] has
    shape [(4, 4, T)] and is kept as one 4x4 matrix per frame.  Buffers of
    shape [(0,)] are the empty list; [None] is Python's [None]. *)
Record Joint : Type := {
  parent : option nat;
  offset : list F;
  n_channels : Z;
  d_order : list Z;
  order : list Z;
  d_xyz : option (list (list F));
  r_xyz : option (list (list F));
  trans : option (list (list (list F)));
  is_root : bool;
  is_end_site : bool;
  joint_index : Z
}.

Definition set_motion (j : Joint) (d r : list (list F))
    (t : list (list (list F))) : Joint :=
  {| parent := parent j; offset := offset j; n_channels := n_channels j;
     d_order := d_order j; order := order j;
     d_xyz := Some d; r_xyz := Some r; trans := Some t;
     is_root := is_root j; is_end_site := is_end_site j;
     joint_index := joint_index j |}.

(** Two joints with the same static description: the motion buffers
    apart, all fields agree. *)
Definition same_static (j j' : Joint) : Prop :=
  parent j = parent j' ∧ offset j = offset j'
  ∧ n_channels j = n_channels j' ∧ d_order j = d_order j'
  ∧ order j = order j' ∧ is_root j = is_root j'
  ∧ is_end_site j = is_end_site j' ∧ joint_index j = joint_index j'.

(** The position buffer of a joint has shape [(3, T)]. *)
Definition has_positions (T : nat) (j : Joint) : Prop :=
  ∃ d, d_xyz j = Some d ∧ length d = 3%nat
       ∧ Forall (fun row : list F => length row = T) d.

(** [m[:, cols]] on a 2-D array kept row by row. *)
Definition columns_at (m : list (list F)) (cols : list Z) : result (list (list F)) :=
  mapR (fun row => mapR (fun c => getitem row c) cols) m.

(** [m.T] of a [(T, n)] array. *)
Definition transpose (n : nat) (m : list (list F)) : list (list F) :=
  (fun c => (fun row : list F => default fnan (row !! c)) <$> m) <$> seq 0 n.

(** [v + m] with [v] of shape [(3,)] (or [(1,)]) broadcast over the rows of
    a [(T, 3)] array. *)
Definition add_broadcast (v : list F) (m : list (list F)) : result (list (list F)) :=
  match v with
  | [a] => Ok ((fun row : list F => fadd a <$> row) <$> m)
  | [_; _; _] => Ok ((fun row : list F => zip_with fadd v row) <$> m)
  | _ => Raise ValueError
  end.

(** [r[order, :] = rows] on a fresh [(3, T)] buffer. *)
Definition scatter_rows (T : nat) (order : list Z) (rows : list (list F))
    : result (list (list F)) :=
  if negb (length order =? length rows)%nat then Raise ValueError else
  foldR (fun (buf : list (list F)) (p : Z * list F) =>
           let i := if p.1 <? 0 then p.1 + 3 else p.1 in
           if (i <? 0) || (3 <=? i) then Raise IndexError
           else Ok (<[Z.to_nat i := p.2]> buf))
        (replicate 3 (replicate T fnan)) (zip order rows).

Definition mat_mul (a b : list (list F)) : list (list F) :=
  let n := from_option length 0%nat (head b) in
  (fun row : list F =>
     (fun c => foldl fadd fzero
                 (zip_with fmul row ((fun r : list F => default fnan (r !! c)) <$> b)))
     <$> seq 0 n) <$> a.

(** [transformation_matrix(displ, rxyz, order)]: the three elementary
    rotations composed in the order of the channel list, with [displ] as
    the translation column. *)
Definition transformation_matrix (displ rxyz : list F) (order : list Z)
    : result (list (list F)) :=
  let c := (fun a => fcos (deg2rad a)) <$> rxyz in
  let s := (fun a => fsin (deg2rad a)) <$> rxyz in
  c0 <- getitem c 0;; s0 <- getitem s 0;;
  c1 <- getitem c 1;; s1 <- getitem s 1;;
  c2 <- getitem c 2;; s2 <- getitem s 2;;
  let Rx := [[fone; fzero; fzero]; [fzero; c0; fneg s0]; [fzero; s0; c0]] in
  let Ry := [[c1; fzero; s1]; [fzero; fone; fzero]; [fneg s1; fzero; c1]] in
  let Rz := [[c2; fneg s2; fzero]; [s2; c2; fzero]; [fzero; fzero; fone]] in
  let RxRyRz := [Rx; Ry; Rz] in
  o0 <- getitem order 0;; R0 <- getitem RxRyRz o0;;
  o1 <- getitem order 1;; R1 <- getitem RxRyRz o1;;
  o2 <- getitem order 2;; R2 <- getitem RxRyRz o2;;
  let rotM := mat_mul (mat_mul R0 R1) R2 in
  match displ with
  | [_; _; _] =>
      Ok (zip_with (fun (row : list F) d => row ++ [d]) rotM displ
          ++ [[fzero; fzero; fzero; fone]])
  | _ => Raise ValueError
  end.

(** The per-joint body of [_apply_initial_motion_data_to_skeleton]:
    the buffers [(d_xyz, r_xyz, trans)] of a joint whose channels start at
    [channel_count]. *)
Definition initial_motion (raw_motion_data : list (list F)) (channel_count : Z)
    (joint : Joint)
    : result (list (list F) * list (list F) * list (list (list F))) :=
  let frame_count := length raw_motion_data in
  if n_channels joint =? 6 then
    cols <- columns_at raw_motion_data (Z.add channel_count <$> d_order joint);;
    d <- add_broadcast (offset joint) cols;;
    let d_xyz := transpose 3 d in
    rcols <- columns_at raw_motion_data (Z.add channel_count <$> [3; 4; 5]);;
    r_xyz <- scatter_rows frame_count (order joint) (transpose 3 rcols);;
    trans <- mapR (fun f => transformation_matrix
                              ((fun row : list F => default fnan (row !! f)) <$> d_xyz)
                              ((fun row : list F => default fnan (row !! f)) <$> r_xyz)
                              (order joint))
                  (seq 0 frame_count);;
    Ok (d_xyz, r_xyz, trans)
  else if n_channels joint =? 3 then
    rcols <- columns_at raw_motion_data (Z.add channel_count <$> [0; 1; 2]);;
    r_xyz <- scatter_rows frame_count (order joint) (transpose 3 rcols);;
    Ok (replicate 3 (replicate frame_count fnan), r_xyz,
        replicate frame_count (replicate 4 (replicate 4 fnan)))
  else if n_channels joint =? 0 then
    Ok (replicate 3 (replicate frame_count fnan), [], [])
  else Raise ValueError.

(** [_apply_initial_motion_data_to_skeleton]: the loop over the skeleton,
    threading [channel_count]. *)
Definition _apply_initial_motion_data_to_skeleton (skeleton : list Joint)
    (raw_motion_data : list (list F)) : result (list Joint) :=
  st <- foldR (fun (st : list Joint * Z) (joint : Joint) =>
                 let '(done, channel_count) := st in
                 m <- initial_motion raw_motion_data channel_count joint;;
                 let '(d, r, t) := m in
                 Ok (done ++ [set_motion joint d r t],
                     channel_count + n_channels joint))
              ([], 0) skeleton;;
  Ok st.1.

(** [a[:, fi]] of a [(3, T)] buffer; a buffer of shape [(0,)] has no second
    axis. *)
Definition frame_column (a : list (list F)) (fi : nat) : result (list F) :=
  match a with
  | [] => Raise IndexError
  | _ => mapR (fun row : list F => getitem row (Z.of_nat fi)) a
  end.

(** [trans[:, :, fi]] of the parent. *)
Definition parent_trans (skeleton : list Joint) (joint : Joint) (fi : nat)
    : result (list (list F)) :=
  match parent joint with
  | None => Raise AttributeError
  | Some p =>
      match skeleton !! p with
      | None => Raise IndexError
      | Some pj =>
          match trans pj with
          | None => Raise TypeError
          | Some [] => Raise IndexError
          | Some t => getitem t (Z.of_nat fi)
          end
      end
  end.

(** The translation column [m[[0, 1, 2], 3]] of a 4x4 matrix. *)
Definition translation_of (m : list (list F)) : result (list F) :=
  mapR (fun r => row <- getitem m r;; getitem row 3) [0; 1; 2].

(** First loop of [_apply_kinematics_to_skeleton], for the joint at position
    [i]: roots and end sites are skipped, any other joint gets
    [parent.trans @ local] frame by frame. *)
Definition kinematics_joint (frame_count : nat) (skeleton : list Joint) (i : nat)
    : result (list Joint) :=
  match skeleton !! i with
  | None => Raise IndexError
  | Some joint =>
      if is_end_site joint || is_root joint then Ok skeleton
      else
        frames <- mapR (fun fi =>
                    r <- frame_column (default [] (r_xyz joint)) fi;;
                    transM <- transformation_matrix (offset joint) r (order joint);;
                    pt <- parent_trans skeleton joint fi;;
                    let t := mat_mul pt transM in
                    d <- translation_of t;;
                    Ok (t, d))
                  (seq 0 frame_count);;
        if (frame_count =? 0)%nat then Ok skeleton
        else
          match trans joint with
          | Some (_ :: _) =>
              Ok (<[i := set_motion joint (transpose 3 (snd <$> frames))
                           (default [] (r_xyz joint)) (fst <$> frames)]> skeleton)
          | _ => Raise IndexError
          end
  end.

(** Second loop, for an end site: the parent transform applied to the
    static offset. *)
Definition kinematics_end_site (frame_count : nat) (skeleton : list Joint) (i : nat)
    : result (list Joint) :=
  match skeleton !! i with
  | None => Raise IndexError
  | Some joint =>
      if negb (is_end_site joint) then Ok skeleton
      else
        frames <- mapR (fun fi =>
                    pt <- parent_trans skeleton joint fi;;
                    match offset joint with
                    | [ox; oy; oz] =>
                        let transM := [[fone; fzero; fzero; ox];
                                       [fzero; fone; fzero; oy];
                                       [fzero; fzero; fone; oz];
                                       [fzero; fzero; fzero; fone]] in
                        translation_of (mat_mul pt transM)
                    | _ => Raise ValueError
                    end)
                  (seq 0 frame_count);;
        if (frame_count =? 0)%nat then Ok skeleton
        else
          Ok (<[i := set_motion joint (transpose 3 frames)
                       (default [] (r_xyz joint)) (default [] (trans joint))]>
                skeleton)
  end.

Definition _apply_kinematics_to_skeleton (frame_count : nat)
    (skeleton : list Joint) : result (list Joint) :=
  sk <- foldR (kinematics_joint frame_count) skeleton (seq 0 (length skeleton));;
  foldR (kinematics_end_site frame_count) sk (seq 0 (length skeleton)).

(** The tail of [_parse_motion]: fill the buffers, then resolve the
    hierarchy. *)
Definition resolve_motion (skeleton : list Joint) (raw_motion_data : list (list F))
    : result (list Joint) :=
  sk <- _apply_initial_motion_data_to_skeleton skeleton raw_motion_data;;
  _apply_kinematics_to_skeleton (length raw_motion_data) sk.

(** The resolved absolute position of a joint at frame [f]: [d_xyz[:, f]]. *)
Definition position_at (joint : Joint) (f : nat) : option (list F) :=
  d ← d_xyz joint; mapM (fun row : list F => row !! f) d.

(** ** scripts: [stack_positions]

    One iteration of the loop, [P[:, j, :] = skeleton[j].d_xyz.T]: the
    [(T, 3)] block of joint [j].  The transposed buffer of shape [(b, a)]
    is broadcast to [(T, 3)]; a buffer of shape [(0,)] cannot be. *)
Definition stack_joint (T : nat) (d : option (list (list F)))
    : result (list (list F)) :=
  match d with
  | None => Raise AttributeError
  | Some [] => Raise ValueError
  | Some ((r0 :: _) as d) =>
      let a := length d in
      let b := length r0 in
      if ((b =? T)%nat || (b =? 1)%nat) && ((a =? 3)%nat || (a =? 1)%nat) then
        let v := transpose b d in
        Ok ((fun t =>
               let row := default [] (v !! (if (b =? 1)%nat then 0%nat else t)) in
               (fun c => default fnan
                           (row !! (if (a =? 1)%nat then 0%nat else c)))
               <$> seq 0 3)
            <$> seq 0 T)
      else Raise ValueError
  end.

(** [stack_positions]: the [(T, J, 3)] array of the joints' positions,
    with [T] read off the first joint. *)
Definition stack_positions (skeleton : list Joint)
    : result (list (list (list F))) :=
  match skeleton with
  | [] => Raise IndexError
  | j0 :: _ =>
      match d_xyz j0 with
      | None => Raise AttributeError
      | Some [] => Raise IndexError
      | Some (r0 :: _) =>
          let T := length r0 in
          blocks <- mapR (fun j => stack_joint T (d_xyz j)) skeleton;;
          Ok ((fun t => (fun blk : list (list F) => default [] (blk !! t))
                        <$> blocks)
              <$> seq 0 T)
      end
  end.

End loadbvh.

Arguments Joint F : clear implicits.

(** Rational arithmetic with a trigonometry that is exact at the multiples
    of a quarter turn ([deg2rad] keeps the angle in degrees); used to run
    the loader on concrete rigs. *)
Definition float_ops_Q : FloatOps Q := {|
  fzero := 0%Q;
  fone := 1%Q;
  fnan := 0%Q;
  fadd := Qplus;
  fmul := Qmult;
  fneg := Qopp;
  fcos := fun a => match (Qfloor a) `mod` 360 with
                   | 0 => 1%Q | 180 => (-1)%Q | _ => 0%Q end;
  fsin := fun a => match (Qfloor a) `mod` 360 with
                   | 90 => 1%Q | 270 => (-1)%Q | _ => 0%Q end;
  deg2rad := fun a => a
|}.

(** A three-joint rig (root with six channels, one joint with three, one
    end site) and two frames of channel values. *)
Definition example_root : Joint Q :=
  {| parent := None; offset := [1; 2; 3]%Q; n_channels := 6;
     d_order := [0; 1; 2]; order := [2; 0; 1];
     d_xyz := None; r_xyz := None; trans := None;
     is_root := true; is_end_site := false; joint_index := 0 |}.

Definition example_rig : list (Joint Q) :=
  [ example_root;
    {| parent := Some 0%nat; offset := [0; 1; 0]%Q; n_channels := 3;
       d_order := [0; 1; 2]; order := [2; 0; 1];
       d_xyz := None; r_xyz := None; trans := None;
       is_root := false; is_end_site := false; joint_index := 1 |};
    {| parent := Some 1%nat; offset := [0; 1; 0]%Q; n_channels := 0;
       d_order := [0; 1; 2]; order := [-1; -1];
       d_xyz := None; r_xyz := None; trans := None;
       is_root := false; is_end_site := true; joint_index := 2 |} ].

Definition example_motion : list (list Q) :=
  [ [10; 20; 30; 90; 0; 0; 0; 0; 0];
    [11; 21; 31; 0; 0; 0; 90; 0; 0] ]%Q.

(** Two joints with position buffers over two frames. *)
Definition posed_rig : list (Joint Q) :=
  [ set_motion example_root [[0; 1]; [2; 3]; [4; 5]]%Q [] [];
    set_motion example_root [[6; 7]; [8; 9]; [10; 11]]%Q [] [] ].

(** ** scripts/build_ml_dataset.py: audio/motion offset estimation *)

(** What a Python function hands back: a float, or a pair of values. *)
Inductive pyval : Type :=
  | PyFloat (x : Q)
  | PyPair (a b : pyval).

(** [int(x)] of a float: truncation towards zero. *)
Definition py_int (x : Q) : Z := Z.quot (Qnum x) (Z.pos (Qden x)).


(** [np.arange(t0, t1, dt)] for a positive step: [ceil((t1 - t0) / dt)]
    samples from [t0]. *)
Definition arange_step (t0 t1 dt : Q) : list Q :=
  let n := Z.to_nat (Qceiling ((t1 - t0) / dt)) in
  (fun i => (t0 + inject_Z (Z.of_nat i) * dt)%Q) <$> seq 0 n.

(** Linear interpolation of one abscissa [x] in the knots [xp], [fp], over
    the segments in order; [flast] is the value right of the last knot. *)
Fixpoint interp_seg (x : Q) (knots : list (Q * Q)) (flast : Q) : Q :=
  match knots with
  | (x0, f0) :: (((x1, f1) :: _) as rest) =>
      if Qltb x x1 then ((f1 - f0) / (x1 - x0) * (x - x0) + f0)%Q
      else interp_seg x rest flast
  | _ => flast
  end.

(** [np.interp(x, xp, fp)] for increasing [xp]: constant outside the
    knots. *)
Definition interp (x xp fp : list Q) : result (list Q) :=
  if negb (length xp =? length fp)%nat then Raise ValueError
  else
    match xp, fp with
    | x0 :: _, f0 :: _ =>
        let flast := List.last fp f0 in
        Ok ((fun v => if Qltb v x0 then f0
                      else interp_seg v (zip xp fp) flast) <$> x)
    | _, _ => Raise ValueError
    end.






(** ** scripts/auto_beats_from_audio.py: the cross-correlation variant *)

Definition estimate_offset_audio_to_motion `{Libm} (audio_env audio_times
    motion_env motion_times : list Q) (max_offset_sec dt_grid : Q)
    : result pyval :=
  if (len audio_env <? 5) || (len motion_env <? 5) then Ok (PyFloat 0)
  else
    a0 <- getitem audio_times 0;; m0 <- getitem motion_times 0;;
    let t_min := Qmax2 a0 m0 in
    a1 <- getitem audio_times (-1);; m1 <- getitem motion_times (-1);;
    let t_max := Qmin2 a1 m1 in
    if Qleb t_max (t_min + 5 * dt_grid) then Ok (PyFloat 0)
    else if Qeq_bool dt_grid 0 then Raise ValueError
    else
      let grid := arange_step t_min t_max dt_grid in
      if len grid <? 10 then Ok (PyFloat 0)
      else
        audio_grid <- interp grid audio_times audio_env;;
        motion_grid <- interp grid motion_times motion_env;;
        let am := mean audio_grid in
        let asd := std audio_grid in
        let audio_grid := (fun v => (v - am) / (asd + eps9))%Q <$> audio_grid in
        let mm := mean motion_grid in
        let msd := std motion_grid in
        let motion_grid := (fun v => (v - mm) / (msd + eps9))%Q <$> motion_grid in
        let corr := correlate_full audio_grid motion_grid in
        let lags := arange_int (- len grid + 1) (len grid) in
        let max_lag_steps := py_int (max_offset_sec / dt_grid) in
        let mask := (fun l => Z.abs l <=? max_lag_steps) <$> lags in
        if negb (existsb id mask) then Ok (PyFloat 0)
        else
          let subcorr := mask_select mask corr in
          let sublags := mask_select mask lags in
          best_idx <- argmax subcorr;;
          best_lag <- getitem sublags best_idx;;
          Ok (PyFloat (inject_Z (- best_lag) * dt_grid)).


(** ** scripts/visualize_beats_on_bvh.py *)

(** One iteration of the loop of [_dedup_events_by_time]: state is
    [(kept, last)]. *)
Definition dedup_step (min_sep_frames : Z) (st : list Z * Z) (e : Z)
    : list Z * Z :=
  if min_sep_frames <=? e - st.2 then (st.1 ++ [e], e) else st.

(** [_dedup_events_by_time]; [None] stands for Python's [None].  The
    first event [events[0]] is only read on a non-empty array. *)
Definition _dedup_events_by_time (events : option (list Z)) (fps min_sep_s : Q)
    : option (list Z) :=
  match events with
  | None => None
  | Some events =>
      if (len events =? 0) || Qleb min_sep_s 0 || Qleb fps 0 then Some events
      else
        let events := sorted events in
        let min_sep_frames := round (min_sep_s * fps)%Q in
        if min_sep_frames <=? 1 then Some events
        else
          let e0 := default 0 (head events) in
          Some (foldl (dedup_step min_sep_frames) ([e0], e0) (drop 1 events)).1
  end.

(** ** scripts/train_beat_refiner.py: event-level helpers *)

(** [frames_to_segments]: the [start, end) segments between the rising and
    the falling edges of the zero-padded label sequence. *)
Definition frames_to_segments (y_bin : list Z) : list (Z * Z) :=
  if len y_bin =? 0 then []
  else
    let padded := [0] ++ y_bin ++ [0] in
    let diff := np_diff padded in
    let starts := np_where ((fun c => c =? 1) <$> diff) in
    let ends := np_where ((fun c => c =? -1) <$> diff) in
    zip starts ends.

Definition segments_overlap (seg_a seg_b : Z * Z) : bool :=
  negb ((seg_a.2 <=? seg_b.1) || (seg_b.2 <=? seg_a.1)).

(** The double loop of [event_level_metrics] over predicted and true
    segments: state is [(matched_pred, matched_true)]. *)
Definition mark_matches (pred_segments true_segments : list (Z * Z))
    (st : list bool * list bool) : list bool * list bool :=
  foldl (fun st (ip : nat * (Z * Z)) =>
           foldl (fun (st : list bool * list bool) (jt : nat * (Z * Z)) =>
                    if segments_overlap ip.2 jt.2
                    then (<[ip.1 := true]> st.1, <[jt.1 := true]> st.2)
                    else st)
                 st (imap pair true_segments))
        st (imap pair pred_segments).

(** [a.sum()] of a boolean array. *)
Definition count_true (a : list bool) : Z := len (filter (fun b => b = true) a).

(** [event_level_metrics]: [(precision, recall, f1, n_true, n_pred)]. *)
Definition event_level_metrics (prob : list Q) (y_true : list Z) (thr : Q)
    : result (Q * Q * Q * Z * Z) :=
  if negb (len prob =? len y_true) then Raise AssertionError
  else
    let y_pred := (fun p => bool_to_int (Qleb thr p)) <$> prob in
    let true_segments := frames_to_segments y_true in
    let pred_segments := frames_to_segments y_pred in
    let n_true := len true_segments in
    let n_pred := len pred_segments in
    if (n_true =? 0) && (n_pred =? 0) then Ok (1, 1, 1, n_true, n_pred)%Q
    else if n_pred =? 0 then Ok (0, 0, 0, n_true, n_pred)%Q
    else if n_true =? 0 then Ok (0, 1, 0, n_true, n_pred)%Q
    else
      let matched :=
        mark_matches pred_segments true_segments
          (replicate (Z.to_nat n_pred) false, replicate (Z.to_nat n_true) false) in
      let tp := count_true matched.1 in
      let precision := (inject_Z tp / inject_Z n_pred)%Q in
      let recall := (inject_Z (count_true matched.2) / inject_Z n_true)%Q in
      let f1 := if Qltb 0 (precision + recall)
                then (2 * precision * recall / (precision + recall))%Q
                else 0%Q in
      Ok (precision, recall, f1, n_true, n_pred).

(** ** scripts/widen_labels_in_dataset.py *)

(** The inner loop of [widen_labels_per_clip] on the labels [yc] of one
    clip: the positives are located first, then [radius] frames on both
    sides of each are set to 1. *)
Definition widen_clip (radius : Z) (yc : list Z) : list Z :=
  let Tc := len yc in
  let pos := np_where ((fun v => v =? 1) <$> yc) in
  foldl (fun yc p => fill_slice yc (Z.max 0 (p - radius))
                       (Z.min Tc (p + radius + 1)) 1)
        yc pos.

(** [y_new[idx] = yc] with an index array of non-negative positions. *)
Definition scatter (y_new : list Z) (idx yc : list Z) : list Z :=
  foldl (fun acc (iv : Z * Z) => <[Z.to_nat iv.1 := iv.2]> acc) y_new (zip idx yc).

(** [widen_labels_per_clip]; the labels of a clip are read from the
    original [y], the widened labels are written into the copy. *)
Definition widen_labels_per_clip (y clip_ids : list Z) (radius : Z)
    : result (list Z) :=
  if radius <=? 0 then Ok y
  else
    foldR (fun y_new clip =>
             let idx := np_where ((fun c => c =? clip) <$> clip_ids) in
             yc <- mapR (getitem y) idx;;
             Ok (scatter y_new idx (widen_clip radius yc)))
          y (np_unique clip_ids).

(** ** Context features: scripts/train_beat_refiner.py and
       scripts/beat_refiner_apply.py

    A feature array [X] of shape [(N, D)] is the list of its [N] rows. *)

(** The inner loops shared by both functions: the row of local frame [t]
    of the clip [Xc], [np.concatenate([Xc[clamp(t + d)] for d in
    range(-radius, radius + 1)])], with [t + d] clamped to [0, Tc - 1]. *)
Definition context_row (Xc : list (list Q)) (radius : Z) (t : Z) : list Q :=
  let Tc := len Xc in
  concat ((fun d =>
             let t2 := t + d in
             let t2 := if t2 <? 0 then 0
                       else if Tc <=? t2 then Tc - 1 else t2 in
             default [] (Xc !! Z.to_nat t2))
          <$> seqZ (- radius) (2 * radius + 1)).

(** [build_context_single_clip] of beat_refiner_apply.py. *)
Definition build_context_single_clip (X : list (list Q)) (radius : Z)
    : list (list Q) :=
  if radius <=? 0 then X
  else (fun t => context_row X radius (Z.of_nat t)) <$> seq 0 (length X).

(** The loop [for local_t, global_i in enumerate(idx)] of
    [build_context_features], writing the rows of one clip. *)
Definition write_clip_rows (Xc : list (list Q)) (radius : Z)
    (X_ctx : list (list Q)) (idx : list Z) : list (list Q) :=
  foldl (fun acc (lg : nat * Z) =>
           <[Z.to_nat lg.2 := context_row Xc radius (Z.of_nat lg.1)]> acc)
        X_ctx (imap pair idx).

(** [build_context_features] of train_beat_refiner.py. *)
Definition build_context_features (X : list (list Q)) (clip_ids : list Z)
    (radius : Z) : result (list (list Q)) :=
  let N := length X in
  let D := from_option length 0%nat (head X) in
  if radius <=? 0 then Ok X
  else
    let K := Z.to_nat (2 * radius + 1) in
    foldR (fun X_ctx clip =>
             let idx := np_where ((fun c => c =? clip) <$> clip_ids) in
             Xc <- mapR (getitem X) idx;;
             Ok (write_clip_rows Xc radius X_ctx idx))
          (replicate N (replicate (D * K) 0%Q)) (np_unique clip_ids).

(** ** helpers.py over binary64: [_robust_norm] with overflow

    The arithmetic of [_robust_norm] on float64 values as NumPy performs
    it: every operation is the IEEE 754 operation, so that [b - a] can
    overflow to [inf] and [inf / inf] is NaN. *)

Module Float64.
Import Floats.
#[local] Open Scope float_scope.
#[local] Set Warnings "-inexact-float".

Definition is_nan (v : float) : bool := negb (v =? v).

(** [float(n)] of a small natural number. *)
Fixpoint of_nat (n : nat) : float :=
  match n with
  | O => 0
  | S n' => of_nat n' + 1
  end.

Fixpoint insert_sorted (v : float) (l : list float) : list float :=
  match l with
  | [] => [v]
  | h :: t => if v <=? h then v :: l else h :: insert_sorted v t
  end.

(** [np.sort] of an array without NaN. *)
Definition np_sort (l : list float) : list float := foldr insert_sorted [] l.

(** [np.percentile(x, q)] of a non-empty 1-D array, method "linear", as
    NumPy computes it: [q / 100], the virtual position [(n - 1) * q], its
    floor and the next position, and the interpolation [_lerp(a, b, t)],
    which is [a + (b - a) * t], replaced by [b - (b - a) * (1 - t)] where
    [t >= 0.5]. *)
Definition percentile (x : list float) (q : float) : result float :=
  let qq := q / 100 in
  if negb ((0 <=? qq) && (qq <=? 1)) then Raise ValueError
  else
    let s := np_sort x in
    let n := length x in
    let virt := of_nat (n - 1) * qq in
    let prev := length (filter (fun i => (of_nat i <=? virt) = true)
                          (seq 1 (n - 1))) in
    let next := Nat.min (prev + 1) (n - 1) in
    let t := virt - of_nat prev in
    let a := default nan (s !! prev) in
    let b := default nan (s !! next) in
    let diff := b - a in
    Ok (if 0.5 <=? t then b - diff * (1 - t) else a + diff * t).

Definition is_finite (v : float) : bool :=
  negb (is_nan v) && (abs v <? infinity).

(** [np.clip(v, lo, hi)]: the smaller of [hi] and the larger of [v] and
    [lo], each chosen by one comparison; NaN stays NaN. *)
Definition clip (lo hi v : float) : float :=
  if is_nan v then v
  else
    let m := if lo <? v then v else lo in
    if m <? hi then m else hi.

(** [_robust_norm], line by line as [Py._robust_norm] above. *)
Definition _robust_norm (x : list float) (lo hi eps : float)
    : result (list float) :=
  match x with
  | [] => Ok x
  | _ =>
      a <- percentile x lo;;
      b <- percentile x hi;;
      if b - a <? eps then Ok (replicate (length x) 0)
      else
        let y := (fun v => (v - a) / (b - a)) <$> x in
        Ok (clip 0 1 <$> y)
  end.

(** The defaults [lo = 5.0], [hi = 95.0], [eps = 1e-9]. *)
Definition _robust_norm_default (x : list float) : result (list float) :=
  _robust_norm x 5 95 1e-9.

Definition in_unit_interval (v : float) : bool := (0 <=? v) && (v <=? 1).

(** Three finite samples whose percentile spread overflows. *)
Definition overflow_sample : list float := [-1e308; 0; 1e308].

End Float64.
(* ===================================================================== *)
(** * Properties *)

Example nms_ex1 :
  _nms_basic [0; 1; 0; 3; 0; 2; 0; 5; 1; 1]%Q 1 2 = [3; 7].
Proof. vm_compute. reflexivity. Qed.

(** ** Basic facts about the primitives *)

Lemma Qltb_lt (a b : Q) : Qltb a b = true ↔ (a < b)%Q.
Proof.
  unfold Qltb. rewrite negb_true_iff. split.
  - intros H. apply Qnot_le_lt. intros Hle.
    apply Qle_bool_iff in Hle. congruence.
  - intros H. destruct (Qle_bool b a) eqn:E; [|done].
    apply Qle_bool_iff in E. exfalso. eapply Qlt_not_le; eauto.
Qed.

Lemma Qleb_le (a b : Q) : Qleb a b = true ↔ (a <= b)%Q.
Proof. apply Qle_bool_iff. Qed.

Lemma elem_of_np_where (mask : list bool) (i : Z) :
  i ∈ np_where mask ↔ 0 <= i ∧ mask !! Z.to_nat i = Some true.
Proof.
  unfold np_where. rewrite list_elem_of_omap. split.
  - intros ([k b] & Hin & Hsome). simpl in Hsome.
    apply list_elem_of_lookup in Hin as [n Hn].
    rewrite list_lookup_imap in Hn.
    destruct (mask !! n) as [b'|] eqn:E; simplify_eq/=.
    destruct b; simplify_eq. split; [lia|]. by rewrite Nat2Z.id.
  - intros [Hi Hl]. exists (Z.to_nat i, true). split.
    + apply list_elem_of_lookup. exists (Z.to_nat i).
      rewrite list_lookup_imap, Hl. done.
    + simpl. f_equal. lia.
Qed.

Lemma lookup_fill_slice {A} (l : list A) (lo hi : Z) (v : A) (j : nat) :
  fill_slice l lo hi v !! j =
  (fun a => if (lo <=? Z.of_nat j) && (Z.of_nat j <? hi) then v else a) <$> l !! j.
Proof. unfold fill_slice. by rewrite list_lookup_imap. Qed.

Lemma length_fill_slice {A} (l : list A) (lo hi : Z) (v : A) :
  length (fill_slice l lo hi v) = length l.
Proof. apply length_imap. Qed.

Lemma elem_of_insert_by key i acc j :
  j ∈ insert_by key i acc ↔ j = i ∨ j ∈ acc.
Proof.
  induction acc as [|a acc IH]; simpl.
  - rewrite list_elem_of_singleton. set_solver.
  - destruct (Qltb (key i) (key a)); set_solver.
Qed.

Lemma elem_of_argsort (keys : list Q) (p : Z) :
  p ∈ argsort keys ↔ 0 <= p < len keys.
Proof.
  unfold argsort, len.
  assert (∀ l : list Z, p ∈ foldr (fun i acc =>
            insert_by (fun i => default 0%Q (keys !! Z.to_nat i)) i acc) [] l
          ↔ p ∈ l) as ->.
  { induction l as [|a l IH]; simpl; [done|].
    rewrite elem_of_insert_by, IH. set_solver. }
  rewrite list_elem_of_fmap. setoid_rewrite elem_of_seq. split.
  - intros (n & -> & Hn). lia.
  - intros Hp. exists (Z.to_nat p). lia.
Qed.

Lemma elem_of_take_at_idx (idx : list Z) (perm : list Z) (i : Z) :
  (∀ p, p ∈ perm → 0 <= p < len idx) →
  i ∈ take_at 0 idx perm → i ∈ idx.
Proof.
  intros Hperm. unfold take_at. rewrite list_elem_of_fmap.
  intros (p & -> & Hp). apply Hperm in Hp. unfold len in Hp.
  destruct (lookup_lt_is_Some_2 idx (Z.to_nat p)) as [v Hv]; [lia|].
  rewrite Hv. simpl. eapply list_elem_of_lookup_2; eauto.
Qed.

Lemma slice_bound_nonneg {A} (l : list A) (i : Z) :
  0 <= i → slice_bound l i = (Z.to_nat i `min` length l)%nat.
Proof.
  intros Hi. unfold slice_bound, len.
  destruct (Z.ltb_spec i 0); lia.
Qed.

Lemma slice_bound_neg {A} (l : list A) (i : Z) :
  i < 0 → slice_bound l i = (length l - Z.to_nat (- i))%nat.
Proof.
  intros Hi. unfold slice_bound, len.
  destruct (Z.ltb_spec i 0); lia.
Qed.

(** ** [_local_maxima] *)

Lemma length_slice_inner {A} (x : list A) :
  length (slice x 1 (-1)) = (length x - 2)%nat.
Proof.
  unfold slice. rewrite length_take, length_drop.
  rewrite (slice_bound_nonneg x 1), (slice_bound_neg x (-1)) by lia.
  change (Z.to_nat 1) with 1%nat. change (Z.to_nat (- -1)) with 1%nat. lia.
Qed.

Lemma length_slice_to_m2 {A} (x : list A) :
  length (slice_to x (-2)) = (length x - 2)%nat.
Proof.
  unfold slice_to. rewrite length_take, (slice_bound_neg x (-2)) by lia.
  change (Z.to_nat (- -2)) with 2%nat. lia.
Qed.

Lemma length_slice_from_2 {A} (x : list A) :
  length (slice_from x 2) = (length x - 2)%nat.
Proof.
  unfold slice_from. rewrite length_drop, (slice_bound_nonneg x 2) by lia.
  change (Z.to_nat 2) with 2%nat. lia.
Qed.

Lemma length_local_maxima (x : list Q) : length (_local_maxima x) = length x.
Proof.
  unfold _local_maxima, len.
  destruct (3 <=? Z.of_nat (length x)) eqn:E.
  - apply Z.leb_le in E.
    rewrite !length_app, !length_zip_with, length_take, length_drop,
      !length_replicate, length_slice_inner, length_slice_to_m2,
      length_slice_from_2.
    lia.
  - apply length_replicate.
Qed.

Lemma local_maxima_true (x : list Q) (k : nat) :
  _local_maxima x !! k = Some true →
  (1 ≤ k)%nat ∧ (k + 1 < length x)%nat ∧
  ∃ l c r, x !! (k - 1)%nat = Some l ∧ x !! k = Some c ∧ x !! (k + 1)%nat = Some r
           ∧ (l < c)%Q ∧ (r <= c)%Q.
Proof.
  unfold _local_maxima, slice, slice_to, slice_from, len.
  rewrite !(slice_bound_nonneg x 1), !(slice_bound_nonneg x 2),
    !(slice_bound_neg x (-1)), !(slice_bound_neg x (-2)) by lia.
  destruct (3 <=? Z.of_nat (length x)) eqn:E.
  2:{ intros H. apply lookup_replicate in H as [? _]. done. }
  apply Z.leb_le in E. intros H.
  apply lookup_app_Some in H as [H|[Hlen H]].
  { apply lookup_take_Some in H as [H _].
    apply lookup_replicate in H as [? _]. done. }
  rewrite length_take, length_replicate in Hlen.
  rewrite length_take, length_replicate in H.
  replace (1 `min` length x)%nat with 1%nat in * by lia.
  apply lookup_app_Some in H as [H|[_ H]].
  2:{ rewrite lookup_drop in H. apply lookup_replicate in H as [? _]. done. }
  apply lookup_zip_with_Some in H as (b1 & b2 & Hb & H1 & H2).
  apply lookup_zip_with_Some in H1 as (c & l & -> & Hc & Hl).
  apply lookup_zip_with_Some in H2 as (c' & r & -> & Hc' & Hr).
  replace (Z.to_nat 1 `min` length x)%nat with 1%nat in * by lia.
  replace (Z.to_nat 2 `min` length x)%nat with 2%nat in * by lia.
  replace (Z.to_nat (- -1)) with 1%nat in * by lia.
  replace (Z.to_nat (- -2)) with 2%nat in * by lia.
  apply lookup_take_Some in Hc as [Hc Hk].
  apply lookup_take_Some in Hc' as [Hc' _].
  apply lookup_take_Some in Hl as [Hl _].
  rewrite lookup_drop in Hc, Hc', Hr.
  simplify_eq.
  symmetry in Hb. apply andb_true_iff in Hb as [Hb1 Hb2].
  apply Qltb_lt in Hb1. apply Qleb_le in Hb2.
  split; [lia|]. split; [lia|].
  exists l, c, r.
  replace (k - 1)%nat with (k - 1)%nat by lia.
  replace (1 + (k - 1))%nat with k in Hc by lia.
  replace (2 + (k - 1))%nat with (k + 1)%nat in Hr by lia.
  done.
Qed.

(** ** [_nms_basic] *)

Lemma nms_step_inv (T : nat) (win : Z) st (i : Z) :
  0 <= win →
  0 <= i < Z.of_nat T →
  nms_inv T win st →
  nms_inv T win (nms_step (Z.of_nat T) win st i).
Proof.
  intros Hwin Hi (Hlen & Hcov & Hsep & Hnd). destruct st as [taken picked].
  simpl in *. unfold nms_step.
  destruct (taken !! Z.to_nat i) as [b|] eqn:Ei; simpl.
  2:{ apply lookup_ge_None in Ei. lia. }
  destruct b; simpl; [done|].
  assert (Hfar : ∀ p, p ∈ picked → win < Z.abs (i - p)).
  { intros p Hp. destruct (Z.lt_ge_cases win (Z.abs (i - p))) as [|Hle]; [done|].
    specialize (Hcov p (Z.to_nat i) Hp). rewrite Z2Nat.id in Hcov by lia.
    rewrite Hcov in Ei by lia. done. }
  unfold nms_inv; simpl.
  split; [by rewrite length_fill_slice|]. split; [|split].
  - intros p j Hp Hj Hnear. rewrite lookup_fill_slice.
    destruct (lookup_lt_is_Some_2 taken j) as [b Hb]; [lia|].
    rewrite Hb. simpl.
    apply elem_of_app in Hp as [Hp|Hp].
    + rewrite (Hcov p j Hp Hj Hnear) in Hb. simplify_eq.
      by destruct (_ && _).
    + apply list_elem_of_singleton in Hp as ->.
      replace ((Z.max 0 (i - win) <=? Z.of_nat j)
               && (Z.of_nat j <? Z.min (Z.of_nat T) (i + win + 1))) with true; [done|].
      symmetry. apply andb_true_iff. split; [apply Z.leb_le|apply Z.ltb_lt]; lia.
  - intros p q Hp Hq Hne.
    apply elem_of_app in Hp as [Hp|Hp]; apply elem_of_app in Hq as [Hq|Hq];
      rewrite ?list_elem_of_singleton in *; subst.
    + by apply Hsep.
    + specialize (Hfar p Hp). lia.
    + specialize (Hfar q Hq). lia.
    + done.
  - apply NoDup_app. split; [done|]. split; [|apply NoDup_singleton].
    intros p Hp Hpi. apply list_elem_of_singleton in Hpi as ->.
    specialize (Hfar i Hp). lia.
Qed.

Lemma nms_fold_inv (T : nat) (win : Z) (order : list Z) st :
  0 <= win →
  (∀ i, i ∈ order → 0 <= i < Z.of_nat T) →
  nms_inv T win st →
  nms_inv T win (foldl (nms_step (Z.of_nat T) win) st order).
Proof.
  intros Hwin. revert st.
  induction order as [|i order IH]; intros st Hord Hinv; simpl; [done|].
  apply IH.
  - intros j Hj. apply Hord. by right.
  - apply nms_step_inv; [done| |done]. apply Hord. by left.
Qed.

Lemma nms_fold_subset (T win : Z) (order : list Z) st (p : Z) :
  p ∈ (foldl (nms_step T win) st order).2 → p ∈ st.2 ∨ p ∈ order.
Proof.
  revert st. induction order as [|i order IH]; intros st Hp; simpl in *; [by left|].
  apply IH in Hp as [Hp|Hp]; [|right; by right].
  destruct st as [taken picked]. unfold nms_step in Hp.
  destruct (negb _); simpl in *; [|by left].
  apply elem_of_app in Hp as [Hp|Hp]; [by left|].
  apply list_elem_of_singleton in Hp as ->. right. by left.
Qed.

Lemma elem_of_sorted (l : list Z) (i : Z) : i ∈ sorted l ↔ i ∈ l.
Proof. unfold sorted. by rewrite merge_sort_Permutation. Qed.

(** The visiting order of [_nms_basic] only contains local maxima. *)
Lemma nms_order_subset (score : list Q) (i : Z) :
  let idx := np_where (_local_maxima score) in
  i ∈ take_at 0 idx (reverse (argsort (take_at 0%Q score idx))) → i ∈ idx.
Proof.
  intros idx. apply elem_of_take_at_idx.
  intros p Hp. rewrite elem_of_reverse, elem_of_argsort in Hp.
  unfold len, take_at in *. by rewrite length_fmap in Hp.
Qed.

Lemma nms_basic_subset (score : list Q) (fps min_sep_s : Q) (i : Z) :
  i ∈ _nms_basic score fps min_sep_s → i ∈ np_where (_local_maxima score).
Proof.
  unfold _nms_basic. destruct (_ =? 0); [done|].
  rewrite elem_of_sorted. unfold nms_loop. intros Hi.
  apply nms_fold_subset in Hi as [Hi|Hi]; [by apply elem_of_nil in Hi|].
  by apply nms_order_subset.
Qed.

Lemma np_where_local_maxima_range (score : list Q) (i : Z) :
  i ∈ np_where (_local_maxima score) → 0 < i < len score - 1.
Proof.
  rewrite elem_of_np_where. intros [Hi Hm].
  apply local_maxima_true in Hm as (? & ? & _). unfold len. lia.
Qed.

Lemma nms_window_pos (fps min_sep_s : Q) : 1 <= nms_window fps min_sep_s.
Proof. unfold nms_window. lia. Qed.

(** The state reached by the loop of [_nms_basic] satisfies the invariant. *)
Lemma nms_basic_inv (score : list Q) (win : Z) :
  0 <= win →
  let idx := np_where (_local_maxima score) in
  let order := take_at 0 idx (reverse (argsort (take_at 0%Q score idx))) in
  nms_inv (length score) win
    (foldl (nms_step (len score) win) (replicate (length score) false, []) order).
Proof.
  intros Hwin idx order. apply nms_fold_inv; [done| |].
  - intros k Hk. apply nms_order_subset, np_where_local_maxima_range in Hk.
    unfold len in Hk. lia.
  - unfold nms_inv; simpl. split; [by rewrite length_replicate|].
    split; [|split].
    + intros p ? Hp. by apply elem_of_nil in Hp.
    + intros p ? Hp. by apply elem_of_nil in Hp.
    + constructor.
Qed.

(** C4: two distinct indices returned by [_nms_basic] are more than the
    suppression window [max(1, round(min_sep_s * fps))] frames apart. *)
Theorem nms_basic_min_separation (score : list Q) (fps min_sep_s : Q) (i j : Z) :
  i ∈ _nms_basic score fps min_sep_s →
  j ∈ _nms_basic score fps min_sep_s →
  i ≠ j →
  nms_window fps min_sep_s < Z.abs (i - j).
Proof.
  unfold _nms_basic. destruct (_ =? 0) eqn:E.
  { apply Z.eqb_eq in E. unfold len in E.
    destruct (np_where _); [|done]. intros Hi. by apply elem_of_nil in Hi. }
  rewrite !elem_of_sorted. unfold nms_loop.
  pose proof (nms_basic_inv score (nms_window fps min_sep_s)) as Hinv.
  destruct Hinv as (_ & _ & Hsep & _); [pose proof (nms_window_pos fps min_sep_s); lia|].
  intros Hi Hj Hne. by apply Hsep.
Qed.

Lemma nms_basic_min_separation_witness :
  3 ∈ _nms_basic [0; 1; 0; 3; 0; 2; 0; 5; 1; 1]%Q 1 2
  ∧ 7 ∈ _nms_basic [0; 1; 0; 3; 0; 2; 0; 5; 1; 1]%Q 1 2
  ∧ nms_window 1 2 < Z.abs (3 - 7).
Proof.
  assert (H3 : 3 ∈ _nms_basic [0; 1; 0; 3; 0; 2; 0; 5; 1; 1]%Q 1 2).
  { rewrite nms_ex1. set_solver. }
  assert (H7 : 7 ∈ _nms_basic [0; 1; 0; 3; 0; 2; 0; 5; 1; 1]%Q 1 2).
  { rewrite nms_ex1. set_solver. }
  split; [exact H3|]. split; [exact H7|].
  apply (nms_basic_min_separation _ 1%Q 2%Q 3 7 H3 H7). lia.
Defined.

(** C10: every index returned by [_nms_basic] is a local maximum of the
    score (strictly above its left neighbour, at least its right
    neighbour) and is therefore neither frame [0] nor frame [T-1]. *)
Theorem nms_basic_local_maximum (score : list Q) (fps min_sep_s : Q) (i : Z) :
  i ∈ _nms_basic score fps min_sep_s →
  0 < i < len score - 1
  ∧ ∃ l c r,
      score !! Z.to_nat (i - 1) = Some l
      ∧ score !! Z.to_nat i = Some c
      ∧ score !! Z.to_nat (i + 1) = Some r
      ∧ (l < c)%Q ∧ (r <= c)%Q.
Proof.
  intros Hi. apply nms_basic_subset in Hi.
  split; [by apply np_where_local_maxima_range|].
  apply elem_of_np_where in Hi as [Hi Hm].
  apply local_maxima_true in Hm as (H1 & H2 & l & c & r & Hl & Hc & Hr & Hlt & Hle).
  exists l, c, r.
  replace (Z.to_nat (i - 1)) with (Z.to_nat i - 1)%nat by lia.
  replace (Z.to_nat (i + 1)) with (Z.to_nat i + 1)%nat by lia.
  done.
Qed.

Lemma nms_basic_local_maximum_witness :
  3 ∈ _nms_basic [0; 1; 0; 3; 0; 2; 0; 5; 1; 1]%Q 1 2
  ∧ 0 < 3 < len [0; 1; 0; 3; 0; 2; 0; 5; 1; 1]%Q - 1.
Proof.
  assert (H3 : 3 ∈ _nms_basic [0; 1; 0; 3; 0; 2; 0; 5; 1; 1]%Q 1 2).
  { rewrite nms_ex1. set_solver. }
  split; [exact H3|].
  exact (proj1 (nms_basic_local_maximum _ 1%Q 2%Q 3 H3)).
Defined.

(** ** [_robust_norm] *)

Lemma Qltb_ge (a b : Q) : Qltb a b = false ↔ (b <= a)%Q.
Proof.
  unfold Qltb. rewrite negb_false_iff. apply Qle_bool_iff.
Qed.

Lemma clip_unit (v : Q) : (0 <= clip 0 1 v <= 1)%Q.
Proof.
  unfold clip, Qmin2, Qmax2.
  destruct (Qltb v 0) eqn:E1.
  - destruct (Qltb 1 0) eqn:E2; [apply Qltb_lt in E2; lra|]. lra.
  - apply Qltb_ge in E1.
    destruct (Qltb 1 v) eqn:E2; [lra|]. apply Qltb_ge in E2. lra.
Qed.

Lemma percentile_ok (x : list Q) (q : Q) :
  (0 <= q <= 100)%Q → ∃ a, percentile x q = Ok a.
Proof.
  intros [H0 H100]. unfold percentile.
  apply Qltb_ge in H0, H100. rewrite H0, H100. simpl. eauto.
Qed.

(** In exact arithmetic [_robust_norm] with its default percentiles always
    returns, its output has the length of the input and lies in [0, 1], and
    it is all zero when the spread between the 95th and the 5th percentile
    is below [1e-9].  (In float64 the spread can overflow, see
    [robust_norm_overflow_nan].) *)
Lemma robust_norm_unit_interval (x : list Q) :
  ∃ y, _robust_norm x 5 95 eps9 = Ok y
       ∧ length y = length x
       ∧ Forall (fun v => (0 <= v <= 1)%Q) y
       ∧ (∀ a b, percentile x 5 = Ok a → percentile x 95 = Ok b →
            (b - a < eps9)%Q → y = replicate (length x) 0%Q).
Proof.
  unfold _robust_norm. destruct (len x =? 0) eqn:E.
  { apply Z.eqb_eq in E. destruct x; [|done].
    exists []. split; [done|]. split; [done|]. split; [constructor|done]. }
  destruct (percentile_ok x 5) as [a Ha]; [lra|].
  destruct (percentile_ok x 95) as [b Hb]; [lra|].
  rewrite Ha, Hb. simpl.
  destruct (Qltb (b - a) eps9) eqn:Hdeg.
  - exists (replicate (length x) 0%Q).
    split; [done|]. split; [apply length_replicate|]. split; [|done].
    apply Forall_replicate. lra.
  - exists (clip 0 1 <$> ((fun v => ((v - a) / (b - a))%Q) <$> x)).
    split; [done|]. split; [by rewrite !length_fmap|]. split.
    + apply Forall_fmap, Forall_fmap, Forall_true. intros v. apply clip_unit.
    + intros a' b' ? ? Hlt. simplify_eq. apply Qltb_lt in Hlt. congruence.
Qed.

(** C7: [_robust_norm] does not keep every finite input within [0, 1].  On
    the three finite samples [-1e308, 0, 1e308] the percentiles are about
    [-9e307] and [9e307]; their difference overflows to [inf], which is not
    below [eps]; the last sample gives [inf / inf], and the function
    returns [0, 0, NaN]. *)
Theorem robust_norm_overflow_nan :
  forallb Float64.is_finite Float64.overflow_sample = true
  ∧ Float64._robust_norm_default Float64.overflow_sample
    = Ok [PrimFloat.zero; PrimFloat.zero; PrimFloat.nan]
  ∧ Float64.is_nan PrimFloat.nan = true
  ∧ forallb Float64.in_unit_interval
      [PrimFloat.zero; PrimFloat.zero; PrimFloat.nan] = false.
Proof. repeat split; vm_compute; reflexivity. Qed.

(** ** Smoothing and differentiation on short inputs *)

Lemma bind_ok {A B} (m : result A) (f : A → result B) (b : B) :
  (x <- m ;; f x) = Ok b → ∃ a, m = Ok a ∧ f a = Ok b.
Proof. destruct m as [a|e]; simpl; [eauto|done]. Qed.

Ltac bind_inv H :=
  let x := fresh "x" in
  let Hx := fresh "Hx" in
  apply bind_ok in H as (x & Hx & H).

Lemma length_pad_edge (x xp : list Q) (pad : Z) :
  0 <= pad → pad_edge x pad = Ok xp →
  length xp = (length x + 2 * Z.to_nat pad)%nat.
Proof.
  intros Hpad. unfold pad_edge. destruct x as [|v x].
  - destruct (0 <? pad) eqn:E; [done|]. apply Z.ltb_ge in E.
    intros [= <-]. simpl. lia.
  - intros [= <-]. rewrite length_app, length_replicate. simpl.
    rewrite length_app, length_replicate. lia.
Qed.

Lemma length_convolve_valid (a v y : list Q) :
  (length v ≤ length a)%nat → convolve_valid a v = Ok y →
  length y = (length a - length v + 1)%nat.
Proof.
  intros Hlen. unfold convolve_valid.
  destruct (_ || _); [done|].
  destruct (len a <? len v) eqn:E.
  { apply Z.ltb_lt in E. unfold len in E. lia. }
  intros [= <-]. by rewrite length_fmap, length_seq.
Qed.

(** The smoothed signal has [T] samples for an odd window and [T + 1] for
    an even one. *)
Lemma length_ma1d (x y : list Q) (k : Z) :
  _ma1d x k = Ok y →
  length y = if (Z.max 1 k =? 1) || Z.odd k then length x
             else (length x + 1)%nat.
Proof.
  unfold _ma1d. destruct (Z.max 1 k =? 1) eqn:E1; simpl.
  { by intros [= <-]. }
  apply Z.eqb_neq in E1. assert (Hk : 2 <= k) by lia.
  replace (Z.max 1 k) with k by lia.
  intros Hb. apply bind_ok in Hb as (xp & Hxp & Hconv).
  assert (0 <= k `div` 2) by (apply Z.div_pos; lia).
  assert (Hx : x ≠ []).
  { intros ->. simpl in Hxp. destruct (0 <? k `div` 2) eqn:E; [done|].
    apply Z.ltb_ge in E. assert (k `div` 2 = 0) as Hz by lia.
    apply Z.div_small_iff in Hz; lia. }
  apply length_pad_edge in Hxp; [|done].
  assert (Hlx : (1 ≤ length x)%nat) by (destruct x; [done|simpl; lia]).
  pose proof (Z.div_mod k 2 ltac:(lia)) as Hdm.
  pose proof (Z.mod_pos_bound k 2 ltac:(lia)) as Hmb.
  apply length_convolve_valid in Hconv; rewrite ?length_replicate in *; [|lia].
  rewrite Hconv, Hxp.
  destruct (Z.odd k) eqn:Ev.
  - apply Z.odd_spec in Ev as [m ->]. lia.
  - rewrite <- Z.negb_even in Ev. apply negb_false_iff, Z.even_spec in Ev as [m ->].
    lia.
Qed.

Lemma assign_axis_mismatch (T : nat) (rhs : list Q) :
  length rhs ≠ T → length rhs ≠ 1%nat → assign_axis T rhs = Raise ValueError.
Proof.
  intros H1 H2. unfold assign_axis.
  destruct (Nat.eqb_spec (length rhs) T); [done|].
  by destruct rhs as [|? [|? ?]].
Qed.

(** With an even window [_ma3] never returns: the first smoothed coordinate
    has one sample too many for its column. *)
Lemma ma3_even_window_raises (v : list (list Q)) (k : Z) :
  2 <= k → Z.even k = true → is_ok (_ma3 v k) = false.
Proof.
  intros Hk Hev. unfold _ma3.
  destruct (column v 0) as [c0|e] eqn:Hc0; simpl; [|done].
  destruct (_ma1d c0 k) as [s0|e] eqn:Hs0; simpl; [|done].
  assert (Hlen : length c0 = length v).
  { clear Hs0. revert c0 Hc0. unfold column.
    induction v as [|row v IH]; intros c0; simpl.
    - by intros [= <-].
    - destruct (getitem row 0); simpl; [|done].
      destruct (mapR _ v); simpl; [|done].
      intros [= <-]. simpl. f_equal. by apply IH. }
  pose proof (length_ma1d _ _ _ Hs0) as Hl.
  replace (Z.max 1 k =? 1) with false in Hl by (symmetry; apply Z.eqb_neq; lia).
  rewrite <- Z.negb_even, Hev in Hl. simpl in Hl.
  assert (1 ≤ length c0)%nat.
  { destruct c0; [|simpl; lia]. unfold _ma1d in Hs0.
    replace (Z.max 1 k =? 1) with false in Hs0 by (symmetry; apply Z.eqb_neq; lia).
    simpl in Hs0. destruct (0 <? Z.max 1 k `div` 2) eqn:E; [done|].
    apply Z.ltb_ge in E. replace (Z.max 1 k) with k in E by lia.
    assert (0 <= k `div` 2) by (apply Z.div_pos; lia).
    assert (k `div` 2 = 0) as Hz by lia. apply Z.div_small_iff in Hz; lia. }
  rewrite assign_axis_mismatch; [done|lia|lia].
Qed.

Lemma length_smooth_joints (positions_sel Xs : positions_t) (k : Z) :
  smooth_joints positions_sel k = Ok Xs → length Xs = length positions_sel.
Proof.
  unfold smooth_joints. intros Hb. apply bind_ok in Hb as (pj & _ & [= <-]).
  by rewrite length_fmap, length_seq.
Qed.

(** On a single frame the N-dimensional branch of [_grad] reads [x[1]]. *)
Lemma grad_nd_single_frame `{Arr A} (a : A) (dt : Q) :
  _grad_nd [a] dt = Raise IndexError.
Proof. reflexivity. Qed.

Lemma smooth_then_grad_single_frame (frame : list (list Q)) (dt : Q) (k : Z)
    {B} (f : positions_t → result B) :
  is_ok (Xs <- smooth_joints [frame] k ;; V <- _grad_nd Xs dt ;; f V) = false.
Proof.
  destruct (smooth_joints [frame] k) as [Xs|e] eqn:HXs; simpl; [|done].
  apply length_smooth_joints in HXs.
  destruct Xs as [|a [|? ?]]; simplify_eq/=. done.
Qed.

(** C5: on a one-frame stream the deceleration trace, the global
    acceleration cue and the reversal cue never return (for any joints, any
    [dt] and any window), and the foot-contact cue raises [IndexError]
    already on one joint at rest; only the pelvis-drop cue returns zeros. *)
Theorem cues_single_frame `{Libm} (frame : list (list Q)) (dt : Q) (k : Z) :
  is_ok (_body_speed_trace [frame] dt k) = false
  ∧ is_ok (_cue_global_accel [frame] dt k) = false
  ∧ is_ok (_cue_reversal [frame] dt k) = false
  ∧ _body_speed_trace [[[0; 0; 0]]]%Q 1 1 = Raise IndexError
  ∧ _cue_foot_contact [[[0; 0; 0]]]%Q (Some 0) 1 1 (1 # 5) (1 # 20) 1
    = Raise IndexError
  ∧ _cue_pelvis_drop [[[0; 0; 0]]]%Q (Some 0) 1 1 = Ok [0%Q].
Proof.
  split; [apply smooth_then_grad_single_frame|].
  split; [apply smooth_then_grad_single_frame|].
  split; [apply smooth_then_grad_single_frame|].
  split; [reflexivity|]. split; reflexivity.
Qed.

(** C6: with the even window [smooth_win = 2] every cue extractor raises
    [ValueError] on a two-frame, one-joint stream instead of returning an
    array of length [T]. *)
Theorem cues_even_window `{Libm} :
  let positions := [[[0; 0; 0]]; [[0; 1; 0]]]%Q in
  _body_speed_trace positions 1 2 = Raise ValueError
  ∧ _cue_pelvis_drop positions (Some 0) 1 2 = Raise ValueError
  ∧ _cue_foot_contact positions (Some 0) 1 2 (1 # 5) (1 # 20) 1 = Raise ValueError
  ∧ _cue_global_accel positions 1 2 = Raise ValueError
  ∧ _cue_reversal positions 1 2 = Raise ValueError
  ∧ _ma1d [0; 1]%Q 2 = Ok [0 # 4; 2 # 4; 4 # 4]%Q.
Proof. repeat split; reflexivity. Qed.

(** ** Sorting and event sets *)

Lemma StronglySorted_le_lt (l : list Z) :
  StronglySorted Z.le l → NoDup l → StronglySorted Z.lt l.
Proof.
  induction 1 as [|a l Hs IH Hall]; intros Hnd; [constructor|].
  apply NoDup_cons in Hnd as [Hnotin Hnd].
  constructor; [by apply IH|].
  apply Forall_forall. intros x Hx.
  rewrite Forall_forall in Hall. specialize (Hall x Hx).
  assert (x ≠ a) by (intros ->; done). lia.
Qed.

Lemma StronglySorted_lt_le (l : list Z) :
  StronglySorted Z.lt l → StronglySorted Z.le l ∧ NoDup l.
Proof.
  induction 1 as [|a l Hs [IH1 IH2] Hall]; [split; constructor|].
  split.
  - constructor; [done|]. eapply Forall_impl; [exact Hall|]. simpl. lia.
  - apply NoDup_cons. split; [|done].
    intros Hin. rewrite Forall_forall in Hall. specialize (Hall a Hin). lia.
Qed.

Lemma sorted_strict (l : list Z) : NoDup l → StronglySorted Z.lt (sorted l).
Proof.
  intros Hnd. apply StronglySorted_le_lt.
  - apply StronglySorted_merge_sort; apply _.
  - unfold sorted. by rewrite merge_sort_Permutation.
Qed.

Lemma sorted_id (l : list Z) : StronglySorted Z.le l → sorted l = l.
Proof.
  intros Hs. apply (StronglySorted_unique Z.le).
  - apply StronglySorted_merge_sort; apply _.
  - done.
  - apply merge_sort_Permutation.
Qed.

Lemma elem_of_np_unique (l : list Z) (e : Z) : e ∈ np_unique l ↔ e ∈ l.
Proof.
  unfold np_unique. rewrite merge_sort_Permutation. apply elem_of_remove_dups.
Qed.

Lemma np_unique_strict (l : list Z) : StronglySorted Z.lt (np_unique l).
Proof. apply sorted_strict, NoDup_remove_dups. Qed.

Lemma remove_dups_id (l : list Z) : NoDup l → remove_dups l = l.
Proof.
  induction 1 as [|a l Hnotin Hnd IH]; simpl; [done|].
  destruct (decide_rel elem_of a l); [done|]. by rewrite IH.
Qed.

Lemma elem_of_as_int_sorted_unique (x : list Z) (e : Z) :
  e ∈ _as_int_sorted_unique x ↔ e ∈ x.
Proof.
  unfold _as_int_sorted_unique. destruct (len x =? 0) eqn:E.
  - apply Z.eqb_eq in E. by destruct x.
  - by rewrite elem_of_sorted, elem_of_np_unique.
Qed.

Lemma as_int_sorted_unique_strict (x : list Z) :
  StronglySorted Z.lt (_as_int_sorted_unique x).
Proof.
  unfold _as_int_sorted_unique. destruct (len x =? 0); [constructor|].
  rewrite sorted_id; [apply np_unique_strict|].
  apply StronglySorted_lt_le, np_unique_strict.
Qed.

(** On an input that is already sorted and duplicate-free,
    [_as_int_sorted_unique] is the identity. *)
Lemma as_int_sorted_unique_id (x : list Z) :
  StronglySorted Z.lt x → _as_int_sorted_unique x = x.
Proof.
  intros Hs. apply StronglySorted_lt_le in Hs as [Hle Hnd].
  unfold _as_int_sorted_unique. destruct (len x =? 0) eqn:E.
  - apply Z.eqb_eq in E. by destruct x.
  - unfold np_unique. rewrite remove_dups_id by done.
    fold (sorted x). rewrite (sorted_id x) by done. by apply sorted_id.
Qed.

Lemma as_int_sorted_unique_event_set (T : Z) (x : list Z) :
  Forall (fun e => 0 <= e < T) x → event_set T (_as_int_sorted_unique x).
Proof.
  intros Hx. split; [apply as_int_sorted_unique_strict|].
  apply Forall_forall. intros e He.
  rewrite elem_of_as_int_sorted_unique in He.
  rewrite Forall_forall in Hx. by apply Hx.
Qed.

Lemma sublist_Forall' {A} (P : A → Prop) (l k : list A) :
  sublist l k → Forall P k → Forall P l.
Proof.
  induction 1 as [|x l k Hsub IH|x l k Hsub IH]; intros Hk; [done| |].
  - apply Forall_cons in Hk as [? ?]. constructor; auto.
  - apply Forall_cons in Hk as [? ?]. auto.
Qed.

Lemma sublist_StronglySorted {A} (R : relation A) (l k : list A) :
  sublist l k → StronglySorted R k → StronglySorted R l.
Proof.
  induction 1 as [|x l k Hsub IH|x l k Hsub IH]; intros Hk; [done| |].
  - apply StronglySorted_inv in Hk as [Hs Hall].
    constructor; [auto|]. eapply sublist_Forall'; eauto.
  - apply StronglySorted_inv in Hk as [Hs Hall]. auto.
Qed.

Lemma event_set_sublist (T : Z) (l k : list Z) :
  sublist l k → event_set T k → event_set T l.
Proof.
  intros Hsub [Hs Hr]. split.
  - eapply sublist_StronglySorted; eauto.
  - eapply sublist_Forall'; eauto.
Qed.

Lemma event_set_nil (T : Z) : event_set T [].
Proof. split; constructor. Qed.

Lemma nms_basic_event_set (score : list Q) (fps min_sep_s : Q) :
  event_set (len score) (_nms_basic score fps min_sep_s).
Proof.
  split.
  - unfold _nms_basic. destruct (_ =? 0) eqn:E.
    + apply Z.eqb_eq in E. destruct (np_where _); [constructor|done].
    + apply sorted_strict. unfold nms_loop.
      pose proof (nms_basic_inv score (nms_window fps min_sep_s)) as Hinv.
      destruct Hinv as (_ & _ & _ & Hnd); [|done].
      pose proof (nms_window_pos fps min_sep_s). lia.
  - apply Forall_forall. intros i Hi.
    apply nms_basic_subset, np_where_local_maxima_range in Hi. lia.
Qed.

(** ** [refine_events_with_tempo] *)

Lemma filter_Forall_id {A} (P : A → Prop) `{!∀ x, Decision (P x)} (l : list A) :
  Forall P l → filter P l = l.
Proof.
  induction 1 as [|x l Hx Hl IH]; [done|].
  rewrite filter_cons_True by done. by rewrite IH.
Qed.

Lemma foldR_inv {A S} (P : S → Prop) (f : S → A → result S) (l : list A) :
  (∀ s a s', a ∈ l → P s → f s a = Ok s' → P s') →
  ∀ st st', P st → foldR f st l = Ok st' → P st'.
Proof.
  induction l as [|a l IH]; intros Hstep st st' Hst; simpl.
  - by intros [= <-].
  - intros Hb. apply bind_ok in Hb as (s1 & Hf & Hrest).
    eapply IH; [|eapply Hstep; [by left|exact Hst|exact Hf]|exact Hrest].
    intros s b s' Hb. apply Hstep. by right.
Qed.

Lemma argmax_from_range (best : Q) (bi i : Z) (l : list Q) :
  argmax_from best bi i l = bi
  ∨ i <= argmax_from best bi i l < i + len l.
Proof.
  revert best bi i. induction l as [|v l IH]; intros best bi i; simpl; [by left|].
  unfold len. simpl length. rewrite Nat2Z.inj_succ.
  destruct (Qltb best v).
  - right. destruct (IH v i (i + 1)) as [->|H]; unfold len in *; lia.
  - destruct (IH best bi (i + 1)) as [->|H]; [by left|]. right.
    unfold len in *. lia.
Qed.

Lemma argmax_range (l : list Q) (m : Z) : argmax l = Ok m → 0 <= m < len l.
Proof.
  destruct l as [|v l]; simpl; [done|]. intros [= <-].
  unfold len. simpl length. rewrite Nat2Z.inj_succ.
  destruct (argmax_from_range v 0 1 l) as [->|H]; unfold len in *; lia.
Qed.

Lemma argmin_range (l : list Q) (m : Z) : argmin l = Ok m → 0 <= m < len l.
Proof.
  unfold argmin. intros H. apply argmax_range in H.
  unfold len in *. by rewrite length_fmap in H.
Qed.

Lemma len_slice_le {A} (l : list A) (lo hi : Z) :
  0 <= lo <= hi → len (slice l lo hi) <= hi - lo.
Proof.
  intros H. unfold slice, len.
  rewrite length_take, length_drop, !slice_bound_nonneg by lia. lia.
Qed.

Lemma snap_to_peak_range (score : list Q) (drift : Z) (acc out : list Z) (p : Q) :
  Forall (fun e => 0 <= e < len score) acc →
  snap_to_peak score drift acc p = Ok out →
  Forall (fun e => 0 <= e < len score) out.
Proof.
  intros Hacc. unfold snap_to_peak.
  destruct (Z.leb_spec (Z.min (len score) (round p + drift + 1))
              (Z.max 0 (round p - drift))) as [|Hlt]; [by intros [= <-]|].
  intros Hb. apply bind_ok in Hb as (m & Hm & [= <-]).
  apply argmax_range in Hm.
  pose proof (len_slice_le score (Z.max 0 (round p - drift))
                (Z.min (len score) (round p + drift + 1)) ltac:(lia)).
  apply Forall_app. split; [done|]. apply Forall_singleton. lia.
Qed.

(** The refiner maps in-range events to an event set, whenever it
    returns. *)
Lemma refine_event_set (events : list Z) (score : list Q) (fps : Q)
    (drift min_events : Z) (out : list Z) :
  Forall (fun e => 0 <= e < len score) events →
  refine_events_with_tempo events score fps drift min_events = Ok out →
  event_set (len score) out.
Proof.
  intros Hev. unfold refine_events_with_tempo.
  pose proof (as_int_sorted_unique_event_set _ _ Hev) as Hes.
  set (ev := _as_int_sorted_unique events) in *.
  destruct (_ || _); [by intros [= <-]|].
  assert (Hes' : event_set (len score) (filter (fun e => 0 <= e < len score) ev)).
  { eapply event_set_sublist; [apply sublist_filter|done]. }
  set (ev' := filter _ ev) in *.
  destruct (len ev' <? min_events); [by intros [= <-]|].
  intros Hb. apply bind_ok in Hb as (fit & _ & Hb).
  destruct (slope_unusable fit); [by simplify_eq|].
  destruct (default _ fit) as [b a].
  apply bind_ok in Hb as (refit & _ & Hb).
  destruct refit as [pred|]; [|by simplify_eq].
  apply bind_ok in Hb as (snapped & Hsn & [= <-]).
  apply as_int_sorted_unique_event_set.
  revert Hsn. apply foldR_inv; [|constructor].
  intros s p s' _. apply snap_to_peak_range.
Qed.

(** C8: on an event set, [refine_events_with_tempo] returns its input
    unchanged when there are fewer than [min_events] events, and when the
    fitted slope of [frame ≈ a + b*k] is not finite or not positive. *)
Theorem refine_events_noop (ev0 : list Z) (score : list Q) (fps : Q)
    (max_drift_frames min_events : Z) :
  StronglySorted Z.lt ev0 →
  (len ev0 < min_events
   ∨ (Forall (fun e => 0 <= e < len score) ev0
      ∧ ∃ fit, polyfit1 (arange (length ev0)) (inject_Z <$> ev0) = Ok fit
               ∧ match fit with
                 | None => True
                 | Some (b, _) => (b <= 0)%Q
                 end)) →
  refine_events_with_tempo ev0 score fps max_drift_frames min_events = Ok ev0.
Proof.
  intros Hs Hcase. unfold refine_events_with_tempo.
  rewrite (as_int_sorted_unique_id ev0 Hs).
  destruct ((len ev0 <? min_events) || (len ev0 <? 2) || (len score =? 0)) eqn:E1;
    [done|].
  apply orb_false_iff in E1 as [E1 _]. apply orb_false_iff in E1 as [E1 _].
  apply Z.ltb_ge in E1.
  destruct Hcase as [Hlt|(Hrange & fit & Hfit & Hslope)]; [lia|].
  rewrite (filter_Forall_id _ ev0 Hrange).
  destruct (len ev0 <? min_events); [done|].
  rewrite Hfit. simpl.
  assert (slope_unusable fit = true) as ->; [|done].
  destruct fit as [[b a]|]; simpl; [|done].
  apply Qleb_le. lra.
Qed.

Lemma refine_events_noop_witness :
  refine_events_with_tempo [4; 9] [0; 1; 0; 2; 0; 0; 1; 0; 3; 0; 0]%Q 30 3 3
  = Ok [4; 9].
Proof.
  apply refine_events_noop.
  - repeat constructor; lia.
  - left. unfold len. simpl. lia.
Defined.

(** ** Lengths: every array a cue extractor returns has [T] samples *)

Lemma length_mapR {A B} (f : A → result B) (l : list A) (r : list B) :
  mapR f l = Ok r → length r = length l.
Proof.
  revert r. induction l as [|a l IH]; intros r; simpl.
  - by intros [= <-].
  - intros Hb. apply bind_ok in Hb as (b & _ & Hb).
    apply bind_ok in Hb as (bs & Hbs & [= <-]). simpl. f_equal. by apply IH.
Qed.

Lemma length_column {A} (a : list (list A)) (j : Z) (c : list A) :
  column a j = Ok c → length c = length a.
Proof. apply length_mapR. Qed.

Lemma length_assign_axis (T : nat) (rhs o : list Q) :
  assign_axis T rhs = Ok o → length o = T.
Proof.
  unfold assign_axis. destruct (Nat.eqb_spec (length rhs) T).
  - by intros [= <-].
  - destruct rhs as [|v [|? ?]]; [done| |done]. intros [= <-].
    apply length_replicate.
Qed.

Lemma length_ma3 (v s : list (list Q)) (k : Z) :
  _ma3 v k = Ok s → length s = length v.
Proof.
  unfold _ma3. intros Hb.
  repeat (let x := fresh "x" in let Hx := fresh "Hx" in
          apply bind_ok in Hb as (x & Hx & Hb)).
  simplify_eq. rewrite !length_zip_with.
  repeat match goal with
         | H : assign_axis _ _ = Ok _ |- _ => apply length_assign_axis in H
         end.
  lia.
Qed.

Lemma length_grad (x g : list Q) (dt : Q) :
  _grad x dt = Ok g → length g = length x.
Proof.
  unfold _grad, len. destruct (Z.eqb_spec (Z.of_nat (length x)) 1) as [E|E].
  { intros [= <-]. simpl. lia. }
  intros Hb.
  repeat (let v := fresh "v" in let Hv := fresh "Hv" in
          apply bind_ok in Hb as (v & Hv & Hb)).
  assert (2 ≤ length x)%nat.
  { destruct x as [|? [|? ?]]; simpl in *; [done|lia|lia]. }
  destruct (Z.ltb_spec 2 (Z.of_nat (length x))); simplify_eq; simpl.
  - rewrite length_app, length_zip_with, length_slice_from_2, length_slice_to_m2.
    cbn [length]. lia.
  - lia.
Qed.

Lemma length_grad_nd `{Arr A} (x g : list A) (dt : Q) :
  _grad_nd x dt = Ok g → length g = length x.
Proof.
  unfold _grad_nd, len. intros Hb.
  repeat (let v := fresh "v" in let Hv := fresh "Hv" in
          apply bind_ok in Hb as (v & Hv & Hb)).
  assert (2 ≤ length x)%nat.
  { destruct x as [|? [|? ?]]; simpl in *; [done|done|lia]. }
  destruct (Z.ltb_spec 2 (Z.of_nat (length x))); simplify_eq; simpl.
  - rewrite length_app, length_fmap, length_zip_with, length_slice_from_2,
      length_slice_to_m2.
    cbn [length]. lia.
  - lia.
Qed.

Lemma length_local_minima (x : list Q) : length (_local_minima x) = length x.
Proof.
  unfold _local_minima, len.
  destruct (3 <=? Z.of_nat (length x)) eqn:E.
  - apply Z.leb_le in E.
    rewrite !length_app, !length_zip_with, length_take, length_drop,
      !length_replicate, length_slice_inner, length_slice_to_m2,
      length_slice_from_2.
    lia.
  - apply length_replicate.
Qed.

Lemma length_robust_norm (x y : list Q) (lo hi eps : Q) :
  _robust_norm x lo hi eps = Ok y → length y = length x.
Proof.
  unfold _robust_norm. destruct (len x =? 0); [by intros [= <-]|].
  intros Hb. apply bind_ok in Hb as (a & _ & Hb).
  apply bind_ok in Hb as (b & _ & Hb).
  destruct (Qltb _ _); simplify_eq.
  - apply length_replicate.
  - by rewrite !length_fmap.
Qed.

Lemma length_body_speed_trace `{Libm} (sel : positions_t) (dt : Q) (k : Z)
    (speed : list Q) :
  _body_speed_trace sel dt k = Ok speed → length speed = length sel.
Proof.
  unfold _body_speed_trace. intros Hb.
  apply bind_ok in Hb as (Xs & HXs & Hb).
  apply bind_ok in Hb as (V & HV & [= <-]).
  apply length_smooth_joints in HXs. apply length_grad_nd in HV.
  rewrite !length_fmap. lia.
Qed.

Lemma length_cue_deceleration (speed c : list Q) (dt : Q) :
  _cue_deceleration speed dt = Ok c → length c = length speed.
Proof.
  unfold _cue_deceleration. intros Hb.
  apply bind_ok in Hb as (ds & Hds & Hb).
  apply length_grad in Hds. apply length_robust_norm in Hb.
  rewrite Hb, length_zip_with, length_local_minima, length_fmap. lia.
Qed.

Lemma length_cue_pelvis_drop (positions : positions_t) (pelvis_idx : option Z)
    (dt : Q) (k : Z) (c : list Q) :
  _cue_pelvis_drop positions pelvis_idx dt k = Ok c →
  length c = length positions.
Proof.
  unfold _cue_pelvis_drop. destruct (negb _).
  { intros [= <-]. apply length_replicate. }
  intros Hb.
  apply bind_ok in Hb as (traj & Htraj & Hb).
  apply bind_ok in Hb as (pelvis & Hpel & Hb).
  apply bind_ok in Hb as (y & Hy & Hb).
  apply bind_ok in Hb as (vy & Hvy & Hb).
  apply bind_ok in Hb as (ay & Hay & Hb).
  apply length_column in Htraj, Hy. apply length_ma3 in Hpel.
  apply length_grad in Hvy, Hay. apply length_robust_norm in Hb.
  rewrite Hb, length_zip_with, length_local_minima, length_fmap. lia.
Qed.

Lemma length_cue_foot_contact `{Libm} (positions : positions_t)
    (foot_idx : option Z) (dt : Q) (k : Z) (q_speed ground_q leg_scale : Q)
    (c : list Q) :
  _cue_foot_contact positions foot_idx dt k q_speed ground_q leg_scale = Ok c →
  length c = length positions.
Proof.
  unfold _cue_foot_contact. destruct (_ || _).
  { intros [= <-]. apply length_replicate. }
  intros Hb.
  apply bind_ok in Hb as (traj & Htraj & Hb).
  apply bind_ok in Hb as (foot & Hfoot & Hb).
  apply bind_ok in Hb as (y & Hy & Hb).
  apply bind_ok in Hb as (x0 & Hx0 & Hb).
  apply bind_ok in Hb as (x2 & Hx2 & Hb).
  apply bind_ok in Hb as (g & Hg & Hb).
  apply bind_ok in Hb as (vxy & Hvxy & Hb).
  apply bind_ok in Hb as (vy & Hvy & Hb).
  apply bind_ok in Hb as (h_norm & Hh & Hb).
  apply bind_ok in Hb as (s_norm & Hs & Hb).
  apply bind_ok in Hb as (vy_norm & Hv & Hb).
  apply length_column in Htraj, Hy, Hx0, Hx2. apply length_ma3 in Hfoot.
  apply length_grad_nd in Hvxy. apply length_grad in Hvy.
  apply length_robust_norm in Hh, Hs, Hv, Hb.
  repeat (rewrite length_fmap in * || rewrite length_zip_with in *
          || rewrite length_local_minima in *).
  lia.
Qed.

Lemma length_cue_global_accel `{Libm} (sel : positions_t) (dt : Q) (k : Z)
    (c : list Q) :
  _cue_global_accel sel dt k = Ok c → length c = length sel.
Proof.
  unfold _cue_global_accel. intros Hb.
  apply bind_ok in Hb as (Xs & HXs & Hb).
  apply bind_ok in Hb as (V & HV & Hb).
  apply bind_ok in Hb as (A & HA & Hb).
  apply length_smooth_joints in HXs. apply length_grad_nd in HV, HA.
  apply length_robust_norm in Hb. rewrite Hb, !length_fmap. lia.
Qed.

Lemma length_cue_reversal `{Libm} (sel : positions_t) (dt : Q) (k : Z)
    (c : list Q) :
  _cue_reversal sel dt k = Ok c → length c = length sel.
Proof.
  unfold _cue_reversal. intros Hb.
  apply bind_ok in Hb as (Xs & HXs & Hb).
  apply bind_ok in Hb as (V & HV & Hb).
  apply bind_ok in Hb as (dm & Hdm & Hb).
  apply length_smooth_joints in HXs. apply length_grad_nd in HV.
  apply length_grad in Hdm. rewrite !length_fmap in Hdm.
  apply length_robust_norm in Hb.
  rewrite Hb, length_zip_with, length_local_minima, !length_fmap. lia.
Qed.

(** ** Range: whatever a cue extractor returns lies in [0, 1] *)

Lemma robust_norm_range (x y : list Q) (lo hi eps : Q) :
  (0 <= eps)%Q →
  _robust_norm x lo hi eps = Ok y →
  Forall (fun v => (0 <= v <= 1)%Q) y ∨ x = [].
Proof.
  intros Heps. unfold _robust_norm. destruct (len x =? 0) eqn:E.
  { apply Z.eqb_eq in E. right. by destruct x. }
  intros Hb. apply bind_ok in Hb as (a & _ & Hb).
  apply bind_ok in Hb as (b & _ & Hb). left.
  destruct (Qltb _ _); simplify_eq.
  - apply Forall_replicate. lra.
  - apply Forall_fmap, Forall_fmap, Forall_true. intros v. apply clip_unit.
Qed.

Lemma robust_norm_default_range (x y : list Q) :
  _robust_norm x 5 95 eps9 = Ok y → Forall (fun v => (0 <= v <= 1)%Q) y.
Proof.
  intros Hy. pose proof (length_robust_norm _ _ _ _ _ Hy) as Hlen.
  apply robust_norm_range in Hy as [Hy| ->]; [done| |].
  - destruct y; [constructor|done].
  - unfold eps9. lra.
Qed.

Lemma zeros_range (n : nat) : Forall (fun v => (0 <= v <= 1)%Q) (replicate n 0%Q).
Proof. apply Forall_replicate. lra. Qed.

(** Every array returned by one of the five cue extractors has one sample
    per frame, each in [0, 1]. *)
Lemma cues_length_and_range `{Libm} (positions : positions_t)
    (idx : option Z) (dt : Q) (k : Z) (q_speed ground_q leg_scale : Q)
    (c : list Q) :
  (s <- _body_speed_trace positions dt k;; _cue_deceleration s dt) = Ok c
  ∨ _cue_pelvis_drop positions idx dt k = Ok c
  ∨ _cue_foot_contact positions idx dt k q_speed ground_q leg_scale = Ok c
  ∨ _cue_global_accel positions dt k = Ok c
  ∨ _cue_reversal positions dt k = Ok c →
  length c = length positions ∧ Forall (fun v => (0 <= v <= 1)%Q) c.
Proof.
  intros [Hc|[Hc|[Hc|[Hc|Hc]]]].
  - apply bind_ok in Hc as (s & Hs & Hc). split.
    + apply length_cue_deceleration in Hc. apply length_body_speed_trace in Hs.
      lia.
    + unfold _cue_deceleration in Hc. apply bind_ok in Hc as (ds & _ & Hc).
      by apply robust_norm_default_range in Hc.
  - split; [by eapply length_cue_pelvis_drop|].
    unfold _cue_pelvis_drop in Hc.
    destruct (negb _); [simplify_eq; apply zeros_range|].
    do 5 bind_inv Hc. by apply robust_norm_default_range in Hc.
  - split; [by eapply length_cue_foot_contact|].
    unfold _cue_foot_contact in Hc.
    destruct (_ || _); [simplify_eq; apply zeros_range|].
    do 11 bind_inv Hc. by apply robust_norm_default_range in Hc.
  - split; [by eapply length_cue_global_accel|].
    unfold _cue_global_accel in Hc.
    do 3 bind_inv Hc. by apply robust_norm_default_range in Hc.
  - split; [by eapply length_cue_reversal|].
    unfold _cue_reversal in Hc.
    do 3 bind_inv Hc. by apply robust_norm_default_range in Hc.
Qed.

(** ** Phase snap and hard recheck *)

Lemma getitem_elem_of {A} (l : list A) (i : Z) (a : A) :
  getitem l i = Ok a → a ∈ l.
Proof.
  unfold getitem. destruct (_ <? 0); [done|].
  destruct (l !! _) eqn:E; [|done]. intros [= <-].
  eapply list_elem_of_lookup_2; eauto.
Qed.

Lemma elem_of_mask_select {A} (mask : list bool) (a : list A) (x : A) :
  x ∈ mask_select mask a → x ∈ a.
Proof.
  unfold mask_select. rewrite list_elem_of_omap.
  intros ([b y] & Hin & Hsome). simpl in Hsome. destruct b; simplify_eq.
  apply list_elem_of_lookup in Hin as [i Hi].
  apply lookup_zip_with_Some in Hi as (? & ? & ? & _ & Hy). simplify_eq.
  eapply list_elem_of_lookup_2; eauto.
Qed.

Lemma elem_of_arange_int (lo hi c : Z) : c ∈ arange_int lo hi ↔ lo <= c < hi.
Proof. unfold arange_int. rewrite elem_of_seqZ. lia. Qed.

Lemma phase_snap_one_range (positions : positions_t) (dt : Q) (radius : Z)
    (lf rf : option Z) (Cl Cr : list Q) (acc out : list Z) (ei : Z) :
  0 <= radius →
  0 <= ei < len positions →
  Forall (fun e => 0 <= e < len positions) acc →
  phase_snap_one positions dt radius lf rf Cl Cr acc ei = Ok out →
  Forall (fun e => 0 <= e < len positions) out.
Proof.
  intros Hrad Hei Hacc. unfold phase_snap_one. intros Hb.
  apply bind_ok in Hb as (cl & _ & Hb).
  apply bind_ok in Hb as (cr & _ & Hb).
  destruct (negb _).
  { simplify_eq. apply Forall_app. split; [done|]. by apply Forall_singleton. }
  apply bind_ok in Hb as (traj & _ & Hb).
  apply bind_ok in Hb as (y & _ & Hb).
  apply bind_ok in Hb as (vy & _ & Hb).
  apply bind_ok in Hb as (ay & _ & Hb).
  apply bind_ok in Hb as (j3 & _ & Hb).
  destruct (existsb _ _).
  - apply bind_ok in Hb as (m & _ & Hb).
    apply bind_ok in Hb as (c & Hc & [= <-]).
    apply getitem_elem_of, elem_of_mask_select, elem_of_arange_int in Hc.
    apply Forall_app. split; [done|]. apply Forall_singleton. lia.
  - apply bind_ok in Hb as (m & Hm & [= <-]).
    apply argmax_range in Hm.
    pose proof (len_slice_le (Qabs <$> j3) (Z.max 0 (ei - radius))
                  (Z.min (len positions) (ei + radius + 1)) ltac:(lia)).
    apply Forall_app. split; [done|]. apply Forall_singleton. lia.
Qed.

Lemma phase_snap_event_set (positions : positions_t) (dt : Q) (radius : Z)
    (lf rf : option Z) (Cl Cr : list Q) (events out : list Z) :
  0 <= radius →
  Forall (fun e => 0 <= e < len positions) events →
  phase_snap positions dt radius lf rf Cl Cr events = Ok out →
  event_set (len positions) out.
Proof.
  intros Hrad Hev. unfold phase_snap. intros Hb.
  apply bind_ok in Hb as (snapped & Hsn & [= <-]).
  assert (Hr : Forall (fun e => 0 <= e < len positions) snapped).
  { revert Hsn. apply foldR_inv; [|constructor].
    intros s ei s' Hei Hs. apply phase_snap_one_range; [done| |done].
    rewrite Forall_forall in Hev. by apply Hev. }
  split.
  - apply sorted_strict, NoDup_remove_dups.
  - apply Forall_forall. intros e He.
    rewrite elem_of_sorted, elem_of_remove_dups in He.
    rewrite Forall_forall in Hr. by apply Hr.
Qed.

(** A loop that appends the current element or skips it yields a sublist. *)
Lemma foldR_keep_sublist {A} (f : list A → A → result (list A)) (l : list A) :
  (∀ acc a acc', f acc a = Ok acc' → acc' = acc ++ [a] ∨ acc' = acc) →
  ∀ acc out, foldR f acc l = Ok out → ∃ k, out = acc ++ k ∧ sublist k l.
Proof.
  intros Hf. induction l as [|a l IH]; intros acc out; simpl.
  - intros [= <-]. exists []. by rewrite app_nil_r.
  - intros Hb. apply bind_ok in Hb as (acc' & Hacc' & Hrest).
    apply IH in Hrest as (k & -> & Hsub).
    apply Hf in Hacc' as [->| ->].
    + exists (a :: k). rewrite <- app_assoc. split; [done|]. by constructor.
    + exists k. split; [done|]. by constructor.
Qed.

Lemma hard_recheck_sublist (score : list Q) (thr_hi : Q) (r : Z)
    (events out : list Z) :
  hard_recheck score thr_hi r events = Ok out → sublist out events.
Proof.
  unfold hard_recheck. intros Hb.
  apply foldR_keep_sublist in Hb as (k & -> & Hsub); [done|].
  intros acc a acc' Hf. apply bind_ok in Hf as (m & _ & Hf).
  destruct (Qleb _ _); simplify_eq; auto.
Qed.

Lemma prominent_candidates_sublist (p : BeatParamsV2) (score : list Q)
    (prom_win : Z) (cand out : list Z) :
  prominent_candidates p score prom_win cand = Ok out → sublist out cand.
Proof.
  unfold prominent_candidates. intros Hb.
  apply foldR_keep_sublist in Hb as (k & -> & Hsub); [done|].
  intros acc a acc' Hf. apply bind_ok in Hf as (m & _ & Hf).
  destruct (_ && _); simplify_eq; auto.
Qed.

(** ** [extract_beats_v1] and [extract_beats_v2] *)

Lemma length_select_joints (positions : positions_t) (Jidx : list Z) :
  length (select_joints positions Jidx) = length positions.
Proof. unfold select_joints. by rewrite length_fmap. Qed.

Lemma snap_enabled_radius (p : BeatParamsV1) (N : Z) (lf rf : option Z)
    (events : list Z) :
  snap_enabled p N lf rf events = true → 0 <= phase_snap_radius p.
Proof.
  unfold snap_enabled. intros H.
  apply andb_true_iff in H as [H _]. apply andb_true_iff in H as [H _].
  apply Z.ltb_lt in H. lia.
Qed.

Ltac cue_lengths :=
  repeat match goal with
    | H : _body_speed_trace _ _ _ = Ok _ |- _ => apply length_body_speed_trace in H
    | H : _cue_deceleration _ _ = Ok _ |- _ => apply length_cue_deceleration in H
    | H : _cue_pelvis_drop _ _ _ _ = Ok _ |- _ => apply length_cue_pelvis_drop in H
    | H : _cue_foot_contact _ _ _ _ _ _ _ = Ok _ |- _ =>
        apply length_cue_foot_contact in H
    | H : _cue_global_accel _ _ _ = Ok _ |- _ => apply length_cue_global_accel in H
    | H : _cue_reversal _ _ _ = Ok _ |- _ => apply length_cue_reversal in H
    | H : _robust_norm _ _ _ _ = Ok _ |- _ => apply length_robust_norm in H
    end;
  repeat (rewrite length_fmap in * || rewrite length_zip_with in *
          || rewrite length_select_joints in *).

Lemma extract_beats_v1_event_set `{Libm} (positions : positions_t) (fps : Q)
    (joint_indices : list Z) (params : option BeatParamsV1)
    (pelvis_idx left_foot_idx right_foot_idx : option Z) (r : BeatsV1) :
  extract_beats_v1 positions fps joint_indices params pelvis_idx
    left_foot_idx right_foot_idx = Ok r →
  event_set (len positions) (events_idx r).
Proof.
  unfold extract_beats_v1. destruct (_ || _).
  { intros [= <-]. apply event_set_nil. }
  intros Hb. do 9 bind_inv Hb. simplify_eq. simpl.
  rename x5 into score, x6 into nms_sep.
  assert (Hlen : len score = len positions).
  { cue_lengths. unfold len. lia. }
  pose proof (nms_basic_event_set score fps nms_sep) as Hnms.
  rewrite Hlen in Hnms.
  destruct (snap_enabled _ _ _ _ _) eqn:Hsnap; [|by simplify_eq].
  eapply phase_snap_event_set; [|apply Hnms|exact Hx7].
  by eapply snap_enabled_radius.
Qed.

Lemma extract_beats_v2_event_set `{Libm} (positions : positions_t) (fps : Q)
    (joint_indices : list Z) (params : option BeatParamsV2)
    (pelvis_idx left_foot_idx right_foot_idx : option Z) (r : BeatsV2) :
  extract_beats_v2 positions fps joint_indices params pelvis_idx
    left_foot_idx right_foot_idx = Ok r →
  event_set (len positions) (events_idx (common r)).
Proof.
  unfold extract_beats_v2. destruct (_ || _).
  { intros [= <-]. apply event_set_nil. }
  intros Hb. do 12 bind_inv Hb. simplify_eq. simpl.
  rename x7 into score, x9 into nms_sep, x8 into cand_idx.
  assert (Hlen : len score = len positions).
  { cue_lengths. unfold len. lia. }
  match type of Hx10 with
  | (if _ then _ else Ok ?e) = _ => set (events0 := e) in *
  end.
  assert (Hev0 : event_set (len positions) events0).
  { subst events0. destruct (negb _); [|apply event_set_nil].
    rewrite <- Hlen.
    match goal with
    | |- event_set _ (_nms_basic ?tmp _ _) =>
        replace (len score) with (len tmp)
          by (unfold len; by rewrite length_imap)
    end.
    apply nms_basic_event_set. }
  destruct (snap_enabled _ _ _ _ _) eqn:Hsnap; [|by simplify_eq].
  apply bind_ok in Hx10 as (ev1 & Hsnapped & Hx10).
  apply bind_ok in Hx10 as (ev2 & Hrecheck & Hrefine).
  apply phase_snap_event_set in Hsnapped;
    [|by eapply snap_enabled_radius|apply Hev0].
  assert (Hev2 : event_set (len positions) ev2).
  { destruct (negb (len ev1 =? 0)); [|by simplify_eq].
    eapply event_set_sublist; [by eapply hard_recheck_sublist|done]. }
  rewrite <- Hlen. eapply refine_event_set; [|exact Hrefine].
  rewrite Hlen. apply Hev2.
Qed.

(** C2: whenever [extract_beats_v1] or [extract_beats_v2] returns, its
    [events_idx] is strictly increasing (so sorted and duplicate-free) and
    every element lies in [0, T). *)
Theorem extract_beats_events_sorted `{Libm} (positions : positions_t) (fps : Q)
    (joint_indices : list Z) (p1 : option BeatParamsV1)
    (p2 : option BeatParamsV2)
    (pelvis_idx left_foot_idx right_foot_idx : option Z) :
  (∀ r, extract_beats_v1 positions fps joint_indices p1 pelvis_idx
          left_foot_idx right_foot_idx = Ok r →
        StronglySorted Z.lt (events_idx r)
        ∧ Forall (fun e => 0 <= e < len positions) (events_idx r))
  ∧ (∀ r, extract_beats_v2 positions fps joint_indices p2 pelvis_idx
            left_foot_idx right_foot_idx = Ok r →
          StronglySorted Z.lt (events_idx (common r))
          ∧ Forall (fun e => 0 <= e < len positions) (events_idx (common r))).
Proof.
  split; intros r Hr.
  - by apply extract_beats_v1_event_set in Hr.
  - by apply extract_beats_v2_event_set in Hr.
Qed.

(** C3: with no frames or a non-positive frame rate both extractors return
    without raising, and every array of the result is empty. *)
Theorem extract_beats_degenerate `{Libm} (positions : positions_t) (fps : Q)
    (joint_indices : list Z) (p1 : option BeatParamsV1)
    (p2 : option BeatParamsV2)
    (pelvis_idx left_foot_idx right_foot_idx : option Z) :
  len positions = 0 ∨ (fps <= 0)%Q →
  extract_beats_v1 positions fps joint_indices p1 pelvis_idx
    left_foot_idx right_foot_idx
  = Ok {| beat_score := []; candidate_mask := []; events_idx := [];
          C_decel := []; C_pelvis := []; C_foot := [] |}
  ∧ extract_beats_v2 positions fps joint_indices p2 pelvis_idx
      left_foot_idx right_foot_idx
    = Ok {| common := {| beat_score := []; candidate_mask := [];
                         events_idx := []; C_decel := []; C_pelvis := [];
                         C_foot := [] |};
            C_accel := []; C_reversal := [] |}.
Proof.
  intros Hdeg.
  assert ((len positions =? 0) || Qleb fps 0 = true) as Hguard.
  { apply orb_true_iff. destruct Hdeg as [HT|Hfps].
    - left. by apply Z.eqb_eq.
    - right. by apply Qleb_le. }
  unfold extract_beats_v1, extract_beats_v2. by rewrite Hguard.
Qed.

Lemma extract_beats_degenerate_witness :
  @extract_beats_v1 libm_rational [[[0; 1; 0]]; [[0; 2; 0]]]%Q 0 [0] None
    (Some 0) None None
  = Ok {| beat_score := []; candidate_mask := []; events_idx := [];
          C_decel := []; C_pelvis := []; C_foot := [] |}.
Proof.
  apply (@extract_beats_degenerate libm_rational _ 0%Q [0] None None
           (Some 0) None None).
  right. apply Qle_refl.
Defined.

(** The v1 extractor run on [example_clip]: the two score peaks at frames
    1 and 3 both snap to the foot-height minimum at frame 3. *)
Lemma example_clip_v1_events :
  match @extract_beats_v1 libm_rational example_clip 1 [0; 1]
          (Some example_params_v1) (Some 0) (Some 1) None with
  | Ok r => events_idx r
  | Raise _ => []
  end = [3].
Proof. vm_compute. reflexivity. Qed.

(** The v2 extractor on the same clip. *)
Lemma example_clip_v2_events :
  match @extract_beats_v2 libm_rational example_clip 1 [0; 1]
          (Some example_params_v2) (Some 0) (Some 1) None with
  | Ok r => events_idx (common r)
  | Raise _ => []
  end = [3].
Proof. vm_compute. reflexivity. Qed.

Lemma extract_beats_events_sorted_witness :
  match @extract_beats_v1 libm_rational example_clip 1 [0; 1]
          (Some example_params_v1) (Some 0) (Some 1) None,
        @extract_beats_v2 libm_rational example_clip 1 [0; 1]
          (Some example_params_v2) (Some 0) (Some 1) None with
  | Ok r1, Ok r2 =>
      events_idx r1 = [3]
      ∧ (StronglySorted Z.lt (events_idx r1)
         ∧ Forall (fun e => 0 <= e < len example_clip) (events_idx r1))
      ∧ events_idx (common r2) = [3]
      ∧ (StronglySorted Z.lt (events_idx (common r2))
         ∧ Forall (fun e => 0 <= e < len example_clip) (events_idx (common r2)))
  | _, _ => False
  end.
Proof.
  pose proof example_clip_v1_events as Hrun1.
  pose proof example_clip_v2_events as Hrun2.
  pose proof (@extract_beats_events_sorted libm_rational example_clip 1
                [0; 1] (Some example_params_v1) (Some example_params_v2)
                (Some 0) (Some 1) None) as [Hv1 Hv2].
  destruct (@extract_beats_v1 libm_rational example_clip 1 [0; 1]
              (Some example_params_v1) (Some 0) (Some 1) None) as [r1|e1];
    [|discriminate Hrun1].
  destruct (@extract_beats_v2 libm_rational example_clip 1 [0; 1]
              (Some example_params_v2) (Some 0) (Some 1) None) as [r2|e2];
    [|discriminate Hrun2].
  split; [exact Hrun1|]. split; [exact (Hv1 r1 eq_refl)|].
  split; [exact Hrun2|]. exact (Hv2 r2 eq_refl).
Defined.

(** ** Forward kinematics: the root joint *)

Section loadbvh_facts.
Context {F : Type} `{FloatOps F}.

Lemma mapR_lookup {A B} (f : A → result B) (l : list A) (r : list B)
    (i : nat) (a : A) :
  mapR f l = Ok r → l !! i = Some a → ∃ b, f a = Ok b ∧ r !! i = Some b.
Proof.
  revert r i. induction l as [|x l IH]; intros r i; simpl; [done|].
  intros Hb. apply bind_ok in Hb as (b & Hfx & Hb).
  apply bind_ok in Hb as (bs & Hbs & [= <-]).
  destruct i as [|i]; simpl.
  - intros [= <-]. eauto.
  - intros Hl. by apply (IH bs i).
Qed.

Lemma getitem_nonneg {A} (l : list A) (i : Z) (a : A) :
  0 <= i → getitem l i = Ok a → l !! Z.to_nat i = Some a.
Proof.
  intros Hi. unfold getitem.
  destruct (Z.ltb_spec i 0); [lia|].
  destruct (Z.ltb_spec i 0); [lia|].
  destruct (l !! Z.to_nat i); [|done]. by intros [= <-].
Qed.

(** The first loop only appends to the joints already processed. *)
Lemma initial_fold_prefix (raw : list (list F)) (l : list (Joint F))
    (done done' : list (Joint F)) (cc cc' : Z) :
  foldR (fun (st : list (Joint F) * Z) (joint : Joint F) =>
           let '(done, channel_count) := st in
           m <- initial_motion raw channel_count joint;;
           let '(d, r, t) := m in
           Ok (done ++ [set_motion joint d r t], channel_count + n_channels joint))
        (done, cc) l = Ok (done', cc') →
  ∃ tail, done' = done ++ tail.
Proof.
  revert done cc. induction l as [|j l IH]; intros done cc; simpl.
  - intros [= <- <-]. exists []. by rewrite app_nil_r.
  - intros Hb. apply bind_ok in Hb as ([d1 c1] & Hstep & Hrest).
    apply bind_ok in Hstep as ([[d r] t] & _ & [= <- <-]).
    apply IH in Hrest as [tail ->].
    exists ([set_motion j d r t] ++ tail). by rewrite app_assoc.
Qed.

(** Buffers of the root after the first loop. *)
Lemma initial_root (raw : list (list F)) (j0 : Joint F) (rest sk : list (Joint F)) :
  n_channels j0 = 6 →
  _apply_initial_motion_data_to_skeleton (j0 :: rest) raw = Ok sk →
  ∃ d r t rest',
    initial_motion raw 0 j0 = Ok (d, r, t) ∧ sk = set_motion j0 d r t :: rest'.
Proof.
  intros H6. unfold _apply_initial_motion_data_to_skeleton. intros Hb.
  apply bind_ok in Hb as ([done cc] & Hfold & [= <-]). simpl in Hfold.
  apply bind_ok in Hfold as ([d1 c1] & Hstep & Hrest).
  apply bind_ok in Hstep as ([[d r] t] & Hinit & [= <- <-]).
  apply initial_fold_prefix in Hrest as [tail ->].
  exists d, r, t, tail. done.
Qed.

(** Neither kinematics loop touches a joint flagged as root (and not as end
    site) at the head of the skeleton. *)
Lemma kinematics_joint_head (T : nat) (J0 : Joint F) (rest sk' : list (Joint F))
    (i : nat) :
  is_root J0 = true →
  kinematics_joint T (J0 :: rest) i = Ok sk' → ∃ rest', sk' = J0 :: rest'.
Proof.
  intros Hroot. unfold kinematics_joint.
  destruct ((J0 :: rest) !! i) as [joint|] eqn:Hi; [|done].
  destruct (is_end_site joint || is_root joint) eqn:Hskip.
  { intros [= <-]. eauto. }
  intros Hb. apply bind_ok in Hb as (frames & _ & Hb).
  destruct (T =? 0)%nat; [simplify_eq; eauto|].
  destruct (trans joint) as [[|? ?]|]; simplify_eq.
  destruct i as [|i].
  - simpl in Hi. simplify_eq. rewrite Hroot, orb_true_r in Hskip. done.
  - simpl. eauto.
Qed.

Lemma kinematics_end_site_head (T : nat) (J0 : Joint F) (rest sk' : list (Joint F))
    (i : nat) :
  is_end_site J0 = false →
  kinematics_end_site T (J0 :: rest) i = Ok sk' → ∃ rest', sk' = J0 :: rest'.
Proof.
  intros Hend. unfold kinematics_end_site.
  destruct ((J0 :: rest) !! i) as [joint|] eqn:Hi; [|done].
  destruct (negb (is_end_site joint)) eqn:Hskip.
  { intros [= <-]. eauto. }
  intros Hb. apply bind_ok in Hb as (frames & _ & Hb).
  destruct (T =? 0)%nat; simplify_eq; [eauto|].
  destruct i as [|i].
  - simpl in Hi. simplify_eq. rewrite Hend in Hskip. done.
  - simpl. eauto.
Qed.

Lemma kinematics_head (T : nat) (J0 : Joint F) (rest sk' : list (Joint F)) :
  is_root J0 = true → is_end_site J0 = false →
  _apply_kinematics_to_skeleton T (J0 :: rest) = Ok sk' →
  ∃ rest', sk' = J0 :: rest'.
Proof.
  intros Hroot Hend. unfold _apply_kinematics_to_skeleton. intros Hb.
  apply bind_ok in Hb as (sk1 & H1 & H2).
  assert (∃ rest1, sk1 = J0 :: rest1) as [rest1 ->].
  { revert H1. apply (foldR_inv (fun sk => ∃ r, sk = J0 :: r)); [|eauto].
    intros s i s' _ [r ->]. by apply kinematics_joint_head. }
  revert H2. apply (foldR_inv (fun sk => ∃ r, sk = J0 :: r)); [|eauto].
  intros s i s' _ [r ->]. by apply kinematics_end_site_head.
Qed.

Lemma lookup_transpose (n : nat) (m : list (list F)) (c : nat) :
  (c < n)%nat →
  transpose n m !! c = Some ((fun row : list F => default fnan (row !! c)) <$> m).
Proof.
  intros Hc. unfold transpose. rewrite list_lookup_fmap, lookup_seq_lt by done.
  done.
Qed.

(** C1: when a BVH with a six-channel root is resolved, the root position at
    every frame is the root offset plus the three translation channels of
    that frame, component by component; the rotation channels do not enter. *)
Theorem root_position_is_offset_plus_translation
    (j0 : Joint F) (rest skel' : list (Joint F)) (raw : list (list F))
    (ox oy oz : F) :
  is_root j0 = true →
  is_end_site j0 = false →
  n_channels j0 = 6 →
  d_order j0 = [0; 1; 2] →
  offset j0 = [ox; oy; oz] →
  resolve_motion (j0 :: rest) raw = Ok skel' →
  ∃ root rest',
    skel' = root :: rest'
    ∧ offset root = [ox; oy; oz]
    ∧ ∀ (f : nat) (row : list F), raw !! f = Some row →
        ∃ tx ty tz,
          row !! 0%nat = Some tx ∧ row !! 1%nat = Some ty ∧ row !! 2%nat = Some tz
          ∧ position_at root f = Some [fadd ox tx; fadd oy ty; fadd oz tz].
Proof.
  intros Hroot Hend H6 Hdo Hoff. unfold resolve_motion. intros Hb.
  apply bind_ok in Hb as (sk & Hinit & Hkin).
  apply (initial_root raw j0 rest sk H6) in Hinit
    as (d & r & t & rest1 & Hinit & ->).
  apply kinematics_head in Hkin as [rest' ->]; [|done|done].
  exists (set_motion j0 d r t), rest'. split; [done|]. split; [done|].
  intros f row Hrow.
  unfold initial_motion in Hinit. rewrite H6, Hdo, Hoff in Hinit.
  change (6 =? 6) with true in Hinit. cbv beta iota in Hinit.
  apply bind_ok in Hinit as (cols & Hcols & Hinit).
  apply bind_ok in Hinit as (dd & Hdd & Hinit).
  apply bind_ok in Hinit as (rcols & _ & Hinit).
  apply bind_ok in Hinit as (rr & _ & Hinit).
  apply bind_ok in Hinit as (tt & _ & [= <- <- <-]).
  injection Hdd as <-.
  destruct (mapR_lookup _ _ _ f row Hcols Hrow) as (crow & Hcrow & Hcf).
  simpl in Hcrow.
  apply bind_ok in Hcrow as (tx & Htx & Hcrow).
  apply bind_ok in Hcrow as (l1 & Hl1 & [= <-]).
  apply bind_ok in Hl1 as (ty & Hty & Hl1).
  apply bind_ok in Hl1 as (l2 & Hl2 & [= <-]).
  apply bind_ok in Hl2 as (tz & Htz & [= <-]).
  apply getitem_nonneg in Htx, Hty, Htz; [|lia..].
  exists tx, ty, tz. repeat split; [done..|].
  unfold position_at. simpl.
  rewrite !list_lookup_fmap, !Hcf. done.
Qed.

End loadbvh_facts.

(** The loader resolves [example_rig] on [example_motion]. *)
Lemma example_rig_resolves :
  is_ok (@resolve_motion _ float_ops_Q example_rig example_motion) = true.
Proof. vm_compute. reflexivity. Qed.

Lemma root_position_is_offset_plus_translation_witness :
  ∃ skel' root rest',
    @resolve_motion _ float_ops_Q example_rig example_motion = Ok skel'
    ∧ skel' = root :: rest'
    ∧ @position_at _ root 0 = Some [1 + 10; 2 + 20; 3 + 30]%Q
    ∧ @position_at _ root 1 = Some [1 + 11; 2 + 21; 3 + 31]%Q.
Proof.
  pose proof example_rig_resolves as Hok.
  destruct (@resolve_motion _ float_ops_Q example_rig example_motion)
    as [skel'|e] eqn:E; [|discriminate Hok].
  destruct (@root_position_is_offset_plus_translation Q float_ops_Q
              example_root (tail example_rig) skel' example_motion 1%Q 2%Q 3%Q
              eq_refl eq_refl eq_refl eq_refl eq_refl E)
    as (root & rest' & -> & _ & Hpos).
  exists (root :: rest'), root, rest'. split; [done|]. split; [done|]. split.
  - destruct (Hpos 0%nat _ eq_refl) as (tx & ty & tz & ? & ? & ? & ->).
    by simplify_eq/=.
  - destruct (Hpos 1%nat _ eq_refl) as (tx & ty & tz & ? & ? & ? & ->).
    by simplify_eq/=.
Defined.

(** ** Temporal alignment *)

Lemma foldR_ok {A S} (f : S → A → result S) (l : list A) :
  (∀ st a, a ∈ l → ∃ st', f st a = Ok st') →
  ∀ st, ∃ st', foldR f st l = Ok st'.
Proof.
  induction l as [|a l IH]; intros Hf st; simpl; [eauto|].
  destruct (Hf st a) as [st1 ->]; [by left|]. simpl.
  apply IH. intros st2 b Hb. apply Hf. by right.
Qed.
















(** The cross-correlation variant also hands back a bare float. *)
Lemma estimate_offset_audio_to_motion_is_float `{Libm} (audio_env audio_times
    motion_env motion_times : list Q) (max_offset_sec dt_grid : Q) (v : pyval) :
  estimate_offset_audio_to_motion audio_env audio_times motion_env motion_times
    max_offset_sec dt_grid = Ok v →
  ∃ off, v = PyFloat off.
Proof.
  unfold estimate_offset_audio_to_motion.
  destruct (_ || _); [intros [= <-]; eauto|].
  intros Hb. do 4 bind_inv Hb.
  destruct (Qleb _ _); [simplify_eq; eauto|].
  destruct (Qeq_bool _ _); [done|].
  destruct (_ <? 10); [simplify_eq; eauto|].
  do 2 bind_inv Hb.
  destruct (negb _); [simplify_eq; eauto|].
  do 2 bind_inv Hb. simplify_eq. eauto.
Qed.

(** It has no guard on the variance: on a constant audio envelope every lag
    correlates equally and the first admissible lag is returned, here an
    offset of one second. *)
Lemma estimate_offset_audio_to_motion_constant `{Libm} :
  estimate_offset_audio_to_motion [1; 1; 1; 1; 1; 1]%Q [0; 1; 2; 3; 4; 5]%Q
    [0; 2; 0; 2; 0; 1]%Q [0; 1; 2; 3; 4; 5]%Q 1 (1 # 2)
  = Ok (PyFloat (2 # 2)).
Proof. vm_compute. reflexivity. Qed.

(* ===================================================================== *)
(** * Further properties of the code *)

(** ** Local extrema masks *)

Lemma lookup_slice_inner {A} (x : list A) (j : nat) :
  (j + 2 < length x)%nat → slice x 1 (-1) !! j = x !! (1 + j)%nat.
Proof.
  intros Hj. unfold slice.
  rewrite (slice_bound_nonneg x 1), (slice_bound_neg x (-1)) by lia.
  change (Z.to_nat 1) with 1%nat. change (Z.to_nat (- -1)) with 1%nat.
  rewrite lookup_take_lt by lia. rewrite lookup_drop. f_equal. lia.
Qed.

Lemma lookup_slice_to_m2 {A} (x : list A) (j : nat) :
  (j + 2 < length x)%nat → slice_to x (-2) !! j = x !! j.
Proof.
  intros Hj. unfold slice_to. rewrite (slice_bound_neg x (-2)) by lia.
  change (Z.to_nat (- -2)) with 2%nat. apply lookup_take_lt. lia.
Qed.

Lemma lookup_slice_from_2 {A} (x : list A) (j : nat) :
  slice_from x 2 !! j = x !! (2 + j)%nat.
Proof.
  unfold slice_from. rewrite (slice_bound_nonneg x 2) by lia.
  change (Z.to_nat 2) with 2%nat. rewrite lookup_drop.
  destruct (decide (2 ≤ length x)%nat).
  - f_equal. lia.
  - rewrite !lookup_ge_None_2; [done|lia|lia].
Qed.

(** Interior entries of a mask built like [_local_maxima] and
    [_local_minima]. *)
Lemma extrema_mask_interior (f g : Q → Q → bool) (x : list Q) (k : nat)
    (l c r : Q) :
  (1 ≤ k)%nat → (k + 1 < length x)%nat →
  x !! (k - 1)%nat = Some l → x !! k = Some c → x !! (k + 1)%nat = Some r →
  (take 1 (replicate (length x) false)
   ++ zip_with andb
        (zip_with f (slice x 1 (-1)) (slice_to x (-2)))
        (zip_with g (slice x 1 (-1)) (slice_from x 2))
   ++ drop (length x - 1) (replicate (length x) false)) !! k
  = Some (f c l && g c r).
Proof.
  intros Hk1 Hk2 Hl Hc Hr.
  rewrite lookup_app_r; rewrite length_take, length_replicate; [|lia].
  replace (1 `min` length x)%nat with 1%nat by lia.
  rewrite lookup_app_l.
  2:{ rewrite !length_zip_with, length_slice_inner, length_slice_to_m2,
        length_slice_from_2. lia. }
  rewrite !lookup_zip_with.
  rewrite lookup_slice_inner, lookup_slice_to_m2, lookup_slice_from_2 by lia.
  replace (1 + (k - 1))%nat with k by lia.
  replace (2 + (k - 1))%nat with (k + 1)%nat by lia.
  rewrite Hc, Hl, Hr. done.
Qed.

Lemma local_minima_true (x : list Q) (k : nat) :
  _local_minima x !! k = Some true →
  (1 ≤ k)%nat ∧ (k + 1 < length x)%nat.
Proof.
  unfold _local_minima, len.
  destruct (3 <=? Z.of_nat (length x)) eqn:E.
  2:{ intros H. apply lookup_replicate in H as [? _]. done. }
  apply Z.leb_le in E. intros H.
  apply lookup_app_Some in H as [H|[Hlen H]].
  { apply lookup_take_Some in H as [H _].
    apply lookup_replicate in H as [? _]. done. }
  rewrite length_take, length_replicate in Hlen, H.
  apply lookup_app_Some in H as [H|[_ H]].
  2:{ rewrite lookup_drop in H. apply lookup_replicate in H as [? _]. done. }
  apply lookup_lt_Some in H.
  rewrite !length_zip_with, length_slice_inner, length_slice_to_m2,
    length_slice_from_2 in H.
  lia.
Qed.

(** X1: the two extrema masks have one entry per sample; an entry of
    [_local_maxima] is set exactly at the interior samples strictly above
    their left neighbour and not below their right one, an entry of
    [_local_minima] exactly at the interior samples strictly below their
    left neighbour and not above their right one; no sample is marked by
    both. *)
Theorem local_extrema_masks (x : list Q) (k : nat) :
  length (_local_maxima x) = length x
  ∧ length (_local_minima x) = length x
  ∧ (_local_maxima x !! k = Some true ↔
     (1 ≤ k)%nat ∧ (k + 1 < length x)%nat
     ∧ ∃ l c r, x !! (k - 1)%nat = Some l ∧ x !! k = Some c
                ∧ x !! (k + 1)%nat = Some r ∧ (l < c)%Q ∧ (r <= c)%Q)
  ∧ (_local_minima x !! k = Some true ↔
     (1 ≤ k)%nat ∧ (k + 1 < length x)%nat
     ∧ ∃ l c r, x !! (k - 1)%nat = Some l ∧ x !! k = Some c
                ∧ x !! (k + 1)%nat = Some r ∧ (c < l)%Q ∧ (c <= r)%Q)
  ∧ ¬ (_local_maxima x !! k = Some true ∧ _local_minima x !! k = Some true).
Proof.
  assert (Hinterior : (1 ≤ k)%nat → (k + 1 < length x)%nat →
            ∃ l c r, x !! (k - 1)%nat = Some l ∧ x !! k = Some c
                     ∧ x !! (k + 1)%nat = Some r).
  { intros H1 H2.
    destruct (lookup_lt_is_Some_2 x (k - 1)) as [l Hl]; [lia|].
    destruct (lookup_lt_is_Some_2 x k) as [c Hc]; [lia|].
    destruct (lookup_lt_is_Some_2 x (k + 1)) as [r Hr]; [lia|].
    eauto 10. }
  assert (Hmax : _local_maxima x !! k = Some true ↔
     (1 ≤ k)%nat ∧ (k + 1 < length x)%nat
     ∧ ∃ l c r, x !! (k - 1)%nat = Some l ∧ x !! k = Some c
                ∧ x !! (k + 1)%nat = Some r ∧ (l < c)%Q ∧ (r <= c)%Q).
  { split; [apply local_maxima_true|].
    intros (H1 & H2 & l & c & r & Hl & Hc & Hr & Hlt & Hle).
    unfold _local_maxima, len.
    replace (3 <=? Z.of_nat (length x)) with true
      by (symmetry; apply Z.leb_le; lia).
    rewrite (extrema_mask_interior _ _ x k l c r) by done.
    apply Qltb_lt in Hlt. apply Qleb_le in Hle. by rewrite Hlt, Hle. }
  assert (Hmin : _local_minima x !! k = Some true ↔
     (1 ≤ k)%nat ∧ (k + 1 < length x)%nat
     ∧ ∃ l c r, x !! (k - 1)%nat = Some l ∧ x !! k = Some c
                ∧ x !! (k + 1)%nat = Some r ∧ (c < l)%Q ∧ (c <= r)%Q).
  { split.
    - intros Hm. destruct (local_minima_true x k Hm) as [H1 H2].
      split; [done|]. split; [done|].
      destruct (Hinterior H1 H2) as (l & c & r & Hl & Hc & Hr).
      exists l, c, r. split; [done|]. split; [done|]. split; [done|].
      unfold _local_minima, len in Hm.
      replace (3 <=? Z.of_nat (length x)) with true in Hm
        by (symmetry; apply Z.leb_le; lia).
      rewrite (extrema_mask_interior _ _ x k l c r) in Hm by done.
      injection Hm as Hm. apply andb_true_iff in Hm as [Ha Hb].
      apply Qltb_lt in Ha. apply Qleb_le in Hb. done.
    - intros (H1 & H2 & l & c & r & Hl & Hc & Hr & Hlt & Hle).
      unfold _local_minima, len.
      replace (3 <=? Z.of_nat (length x)) with true
        by (symmetry; apply Z.leb_le; lia).
      rewrite (extrema_mask_interior _ _ x k l c r) by done.
      apply Qltb_lt in Hlt. apply Qleb_le in Hle. by rewrite Hlt, Hle. }
  split; [apply length_local_maxima|]. split; [apply length_local_minima|].
  split; [exact Hmax|]. split; [exact Hmin|].
  intros [Ha Hb]. apply Hmax in Ha as (_ & _ & l & c & r & Hl & Hc & Hr & Hlt & _).
  apply Hmin in Hb as (_ & _ & l' & c' & r' & Hl' & Hc' & Hr' & Hlt' & _).
  simplify_eq. lra.
Qed.

(** ** Hysteresis gate *)

(** The gate after one more sample. *)
Lemma hysteresis_mask_snoc (score : list Q) (thr_hi thr_lo s : Q) :
  let m := _hysteresis_mask score thr_hi thr_lo in
  let on := default false (last m) in
  _hysteresis_mask (score ++ [s]) thr_hi thr_lo
  = m ++ [if negb on && Qleb thr_hi s then true
          else if on && Qltb s thr_lo then false else on]
  ∧ length m = length score.
Proof.
  unfold _hysteresis_mask.
  set (step := fun (st : bool * list bool) (s : Q) => _).
  assert (Hinv : ∀ l, let st := foldl step (false, []) l in
            st.1 = default false (last st.2) ∧ length st.2 = length l).
  { induction l as [|a l IH] using rev_ind; [done|].
    rewrite foldl_snoc. destruct (foldl step (false, []) l) as [on m].
    simpl in *. destruct IH as [-> IH]. rewrite last_snoc, length_app, length_app.
    simpl. split; [done|lia]. }
  rewrite foldl_snoc. destruct (Hinv score) as [Hon Hlen].
  destruct (foldl step (false, []) score) as [on m]. simpl in *.
  by rewrite Hon.
Qed.

Lemma length_hysteresis_mask (score : list Q) (thr_hi thr_lo : Q) :
  length (_hysteresis_mask score thr_hi thr_lo) = length score.
Proof.
  induction score as [|s score IH] using rev_ind; [done|].
  destruct (hysteresis_mask_snoc score thr_hi thr_lo s) as [Heq Hlen].
  simpl in Heq. rewrite Heq, !length_app. simpl. lia.
Qed.

Lemma last_lookup_pred {A} (l : list A) :
  last l = l !! (length l - 1)%nat.
Proof.
  induction l as [|a l IH] using rev_ind; [done|].
  rewrite last_snoc, length_app. simpl.
  rewrite lookup_app_r by lia.
  replace (length l + 1 - 1 - length l)%nat with 0%nat by lia. done.
Qed.

(** X2: the hysteresis mask has one entry per sample.  With
    [thr_lo <= thr_hi], every sample at or above [thr_hi] is on and every
    sample below [thr_lo] is off.  A sample can only be on if the score
    reached [thr_hi] at or before it, and once on the gate stays on as long
    as the score stays at or above [thr_lo]. *)
Theorem hysteresis_mask_gate (score : list Q) (thr_hi thr_lo : Q) :
  let m := _hysteresis_mask score thr_hi thr_lo in
  length m = length score
  ∧ (∀ i s, (thr_lo <= thr_hi)%Q → score !! i = Some s → (thr_hi <= s)%Q →
       m !! i = Some true)
  ∧ (∀ i s, (thr_lo <= thr_hi)%Q → score !! i = Some s → (s < thr_lo)%Q →
       m !! i = Some false)
  ∧ (∀ i, m !! i = Some true →
       ∃ j s, (j ≤ i)%nat ∧ score !! j = Some s ∧ (thr_hi <= s)%Q)
  ∧ (∀ i s, m !! i = Some true → score !! S i = Some s → (thr_lo <= s)%Q →
       m !! S i = Some true).
Proof.
  induction score as [|s0 score IH] using rev_ind.
  { simpl. split; [done|]. repeat split; intros; simplify_eq. }
  destruct (hysteresis_mask_snoc score thr_hi thr_lo s0) as [Heq Hlen].
  simpl in *. rewrite Heq. clear Heq.
  destruct IH as (_ & IHhi & IHlo & IHfrom & IHstay).
  set (m := _hysteresis_mask score thr_hi thr_lo) in *.
  set (on := default false (last m)).
  set (on' := if negb on && Qleb thr_hi s0 then true
              else if on && Qltb s0 thr_lo then false else on).
  assert (Hlast : ∀ i, i = length score → (m ++ [on']) !! i = Some on').
  { intros i ->. rewrite lookup_app_r by lia.
    by replace (length score - length m)%nat with 0%nat by lia. }
  assert (Hcase : ∀ i, (i < length (score ++ [s0]))%nat →
            (i < length score)%nat ∨ i = length score).
  { intros i. rewrite length_app. simpl. lia. }
  split; [rewrite !length_app; simpl; lia|]. split; [|split; [|split]].
  - intros i s Hthr Hs Hge. destruct (Hcase i) as [Hi| ->];
      [by eapply lookup_lt_Some| |].
    + rewrite lookup_app_l in Hs by done. rewrite lookup_app_l by lia. eauto.
    + rewrite lookup_app_r in Hs by lia. rewrite Nat.sub_diag in Hs.
      simplify_eq/=. rewrite Hlast by done. f_equal. unfold on'.
      apply Qleb_le in Hge as Hge'. rewrite Hge'.
      destruct on; simpl; [|done].
      destruct (Qltb s thr_lo) eqn:E; [|done]. apply Qltb_lt in E. lra.
  - intros i s Hthr Hs Hlt. destruct (Hcase i) as [Hi| ->];
      [by eapply lookup_lt_Some| |].
    + rewrite lookup_app_l in Hs by done. rewrite lookup_app_l by lia. eauto.
    + rewrite lookup_app_r in Hs by lia. rewrite Nat.sub_diag in Hs.
      simplify_eq/=. rewrite Hlast by done. f_equal. unfold on'.
      assert (Qleb thr_hi s = false) as ->.
      { destruct (Qleb thr_hi s) eqn:E; [|done]. apply Qleb_le in E. lra. }
      apply Qltb_lt in Hlt. rewrite Hlt, andb_false_r. by destruct on.
  - intros i Hm. destruct (Hcase i) as [Hi| ->].
    { apply lookup_lt_Some in Hm. rewrite !length_app in *. simpl in *. lia. }
    + rewrite lookup_app_l in Hm by lia.
      destruct (IHfrom i Hm) as (j & s & Hj & Hs & Hge).
      exists j, s. split; [done|]. split; [|done].
      by apply lookup_app_l_Some.
    + rewrite Hlast in Hm by done. injection Hm as Hon'. unfold on' in Hon'.
      destruct on eqn:Eon; simpl in Hon'.
      * assert (Hprev : m !! (length score - 1)%nat = Some true).
        { subst on. rewrite last_lookup_pred, Hlen in Eon.
          destruct (m !! (length score - 1)%nat) as [[]|]; done. }
        destruct (IHfrom _ Hprev) as (j & s & Hj & Hs & Hge).
        exists j, s. split; [lia|]. split; [|done]. by apply lookup_app_l_Some.
      * destruct (Qleb thr_hi s0) eqn:E; [|done]. apply Qleb_le in E.
        exists (length score), s0. split; [done|]. split; [|done].
        rewrite lookup_app_r by lia. by rewrite Nat.sub_diag.
  - intros i s Hm Hs Hge. destruct (Hcase (S i)) as [Hi|Hi];
      [by eapply lookup_lt_Some| |].
    + rewrite lookup_app_l in Hm by lia. rewrite lookup_app_l in Hs by done.
      rewrite lookup_app_l by lia. eauto.
    + rewrite lookup_app_l in Hm by lia.
      rewrite Hi, lookup_app_r in Hs by lia. rewrite Nat.sub_diag in Hs.
      simplify_eq/=. rewrite Hlast by done. f_equal. unfold on'.
      assert (on = true) as ->.
      { subst on. rewrite last_lookup_pred, Hlen.
        replace (length score - 1)%nat with i by lia. by rewrite Hm. }
      simpl. destruct (Qltb s thr_lo) eqn:E; [|done]. apply Qltb_lt in E. lra.
Qed.

(** ** Coverage of the greedy suppression *)

(** Frames marked in [taken] are within [win] of a picked index, marks are
    never removed, and every visited index ends up marked. *)
Lemma nms_fold_cover (T : nat) (win : Z) (order : list Z) st :
  0 <= win →
  (∀ i, i ∈ order → 0 <= i < Z.of_nat T) →
  length st.1 = T →
  (∀ j, st.1 !! j = Some true → ∃ p, p ∈ st.2 ∧ Z.abs (Z.of_nat j - p) <= win) →
  let st' := foldl (nms_step (Z.of_nat T) win) st order in
  length st'.1 = T
  ∧ (∀ j, st'.1 !! j = Some true → ∃ p, p ∈ st'.2 ∧ Z.abs (Z.of_nat j - p) <= win)
  ∧ (∀ j, st.1 !! j = Some true → st'.1 !! j = Some true)
  ∧ (∀ i, i ∈ order → st'.1 !! Z.to_nat i = Some true).
Proof.
  intros Hwin. revert st.
  induction order as [|i order IH]; intros st Hord Hlen Hcov; simpl.
  { repeat split; [done..|]. intros i Hi. by apply elem_of_nil in Hi. }
  assert (Hi : 0 <= i < Z.of_nat T) by (apply Hord; by left).
  destruct st as [taken picked]. simpl in *.
  destruct (lookup_lt_is_Some_2 taken (Z.to_nat i)) as [b Hb]; [lia|].
  set (st1 := nms_step (Z.of_nat T) win (taken, picked) i).
  assert (H1 : length st1.1 = T
    ∧ (∀ j, st1.1 !! j = Some true →
         ∃ p, p ∈ st1.2 ∧ Z.abs (Z.of_nat j - p) <= win)
    ∧ (∀ j, taken !! j = Some true → st1.1 !! j = Some true)
    ∧ st1.1 !! Z.to_nat i = Some true).
  { unfold st1, nms_step. rewrite Hb. simpl. destruct b; simpl; [done|].
    split; [by rewrite length_fill_slice|]. split; [|split].
    - intros j. rewrite lookup_fill_slice.
      destruct (taken !! j) as [c|] eqn:Ej; simpl; [|done].
      destruct (_ && _) eqn:Ein.
      + intros _. exists i. split; [set_solver|].
        apply andb_true_iff in Ein as [H1 H2].
        apply Z.leb_le in H1. apply Z.ltb_lt in H2. lia.
      + intros [= ->]. destruct (Hcov j Ej) as (p & Hp & Hnear).
        exists p. split; [set_solver|done].
    - intros j Hj. rewrite lookup_fill_slice, Hj. simpl. by destruct (_ && _).
    - rewrite lookup_fill_slice, Hb. simpl.
      replace (_ && _) with true; [done|]. symmetry.
      apply andb_true_iff. split; [apply Z.leb_le|apply Z.ltb_lt]; lia. }
  destruct H1 as (Hlen1 & Hcov1 & Hmono1 & Hi1).
  destruct (IH st1) as (Hlen' & Hcov' & Hmono' & Hvis');
    [intros k Hk; apply Hord; by right|done|done|].
  split; [done|]. split; [done|]. split; [by auto|].
  intros k Hk. apply elem_of_cons in Hk as [->|Hk]; [by apply Hmono'|by apply Hvis'].
Qed.

(** The visiting order of [_nms_basic] reaches every local maximum. *)
Lemma nms_order_complete (score : list Q) (i : Z) :
  let idx := np_where (_local_maxima score) in
  i ∈ idx → i ∈ take_at 0 idx (reverse (argsort (take_at 0%Q score idx))).
Proof.
  intros idx Hi. apply list_elem_of_lookup in Hi as [k Hk].
  unfold take_at at 1. apply list_elem_of_fmap. exists (Z.of_nat k). split.
  - by rewrite Nat2Z.id, Hk.
  - rewrite elem_of_reverse, elem_of_argsort. unfold len, take_at.
    rewrite length_fmap. apply lookup_lt_Some in Hk. lia.
Qed.

(** X3: the indices returned by [_nms_basic] are strictly increasing, and
    the selection is maximal: every local maximum of the score is within
    the suppression window of some returned index (itself, if it was
    kept). *)
Theorem nms_basic_sorted_and_maximal (score : list Q) (fps min_sep_s : Q) :
  StronglySorted Z.lt (_nms_basic score fps min_sep_s)
  ∧ ∀ i, i ∈ np_where (_local_maxima score) →
      ∃ p, p ∈ _nms_basic score fps min_sep_s
           ∧ Z.abs (i - p) <= nms_window fps min_sep_s.
Proof.
  split; [apply nms_basic_event_set|].
  intros i Hi. pose proof (nms_window_pos fps min_sep_s) as Hwin.
  unfold _nms_basic. destruct (_ =? 0) eqn:E.
  { exists i. split; [done|]. lia. }
  pose proof (np_where_local_maxima_range _ _ Hi) as Hrange.
  destruct (nms_fold_cover (length score) (nms_window fps min_sep_s)
              (take_at 0 (np_where (_local_maxima score))
                 (reverse (argsort (take_at 0%Q score
                    (np_where (_local_maxima score))))))
              (replicate (length score) false, []))
    as (_ & Hcov & _ & Hvis); [lia| | |..].
  - intros k Hk. apply nms_order_subset, np_where_local_maxima_range in Hk.
    unfold len in Hk. lia.
  - apply length_replicate.
  - simpl. intros j Hj. apply lookup_replicate in Hj as [? _]. done.
  - apply nms_order_complete in Hi. apply Hvis in Hi. apply Hcov in Hi.
    destruct Hi as (p & Hp & Hnear). exists p.
    rewrite elem_of_sorted. split; [exact Hp|].
    rewrite Z2Nat.id in Hnear by lia. done.
Qed.

(** ** Moving average *)

(** On an empty signal a window of two or more cannot be padded. *)
Lemma ma1d_empty_raises (k : Z) : 2 <= k → _ma1d [] k = Raise ValueError.
Proof.
  intros Hk. unfold _ma1d.
  replace (Z.max 1 k =? 1) with false by (symmetry; apply Z.eqb_neq; lia).
  replace (Z.max 1 k) with k by lia. simpl.
  assert (0 < k `div` 2) as ->%Z.ltb_lt; [|done].
  apply Z.div_str_pos. lia.
Qed.

(** X4: on an empty signal [_ma1d] raises [ValueError] for a window of two
    or more.  In every other case it returns, and the output has [T]
    samples for a window that is odd or at most one and [T + 1] samples
    for an even window of two or more. *)
Theorem ma1d_returns_length (x : list Q) (k : Z) :
  (x = [] → 2 <= k → _ma1d x k = Raise ValueError)
  ∧ (x ≠ [] ∨ k <= 1 →
     ∃ y, _ma1d x k = Ok y
          ∧ length y = (if (Z.max 1 k =? 1) || Z.odd k then length x
                        else (length x + 1)%nat)).
Proof.
  split; [intros ->; apply ma1d_empty_raises|].
  intros Hx. unfold _ma1d at 1. destruct (Z.max 1 k =? 1) eqn:E1.
  { exists x. by split. }
  apply Z.eqb_neq in E1. destruct Hx as [Hx|Hk]; [|lia].
  assert (Hk : 2 <= k) by lia. replace (Z.max 1 k) with k in * by lia.
  assert (Hpad : 0 <= k `div` 2) by (apply Z.div_pos; lia).
  destruct (pad_edge x (k `div` 2)) as [xp|e] eqn:Hxp.
  2:{ destruct x; [done|]. discriminate. }
  simpl. pose proof (length_pad_edge _ _ _ Hpad Hxp) as Hlxp.
  assert (Hlx : (1 ≤ length x)%nat) by (destruct x; [done|simpl; lia]).
  pose proof (Z.div_mod k 2 ltac:(lia)) as Hdm.
  pose proof (Z.mod_pos_bound k 2 ltac:(lia)) as Hmb.
  assert (Hfit : (Z.to_nat k ≤ length xp)%nat) by lia.
  destruct (convolve_valid xp (replicate (Z.to_nat k) (1 / inject_Z k)%Q))
    as [y|e] eqn:Hy.
  2:{ unfold convolve_valid, len in Hy. rewrite length_replicate in Hy.
      destruct (Z.eqb_spec (Z.of_nat (length xp)) 0); [lia|].
      destruct (Z.eqb_spec (Z.of_nat (Z.to_nat k)) 0); [lia|].
      simpl in Hy. by destruct (_ <? _). }
  exists y. split; [done|].
  pose proof (length_ma1d x y k) as Hl.
  replace (Z.max 1 k =? 1) with false in Hl by (symmetry; apply Z.eqb_neq; lia).
  apply Hl. unfold _ma1d.
  replace (Z.max 1 k =? 1) with false by (symmetry; apply Z.eqb_neq; lia).
  replace (Z.max 1 k) with k by lia. by rewrite Hxp.
Qed.

Lemma ma1d_returns_length_witness :
  ∃ y, _ma1d [1; 2; 3]%Q 2 = Ok y ∧ length y = 4%nat.
Proof.
  apply (proj2 (ma1d_returns_length [1; 2; 3]%Q 2)). by left.
Defined.

(** ** Order and saturation of [_robust_norm] *)

Ltac Qltb_cases :=
  repeat match goal with
         | H : Qltb _ _ = true |- _ => apply Qltb_lt in H
         | H : Qltb _ _ = false |- _ => apply Qltb_ge in H
         | |- context [Qltb ?a ?b] => destruct (Qltb a b) eqn:?
         end.

Lemma clip_mono (lo hi u v : Q) : (u <= v)%Q → (clip lo hi u <= clip lo hi v)%Q.
Proof.
  intros Huv. unfold clip, Qmin2, Qmax2.
  destruct (Qltb u lo) eqn:?; destruct (Qltb v lo) eqn:?; Qltb_cases; lra.
Qed.

Lemma robust_norm_example_runs : is_ok (_robust_norm [0; 1]%Q 5 95 eps9) = true.
Proof. vm_compute. reflexivity. Qed.

(** X5: on samples of magnitude at most [1e300] (no float64 overflow) and
    with a positive tolerance [eps], [_robust_norm] preserves the order of
    the samples; and when the percentile spread [b - a] is at least [eps],
    a sample at or below the low percentile [a] is sent to 0 and a sample
    at or above the high percentile [b] is sent to 1. *)
Theorem robust_norm_monotone (x y : list Q) (lo hi eps : Q) :
  (0 < eps)%Q →
  no_overflow x →
  _robust_norm x lo hi eps = Ok y →
  (∀ i j u v, x !! i = Some u → x !! j = Some v → (u <= v)%Q →
     ∃ u' v', y !! i = Some u' ∧ y !! j = Some v' ∧ (u' <= v')%Q)
  ∧ (∀ a b i u, percentile x lo = Ok a → percentile x hi = Ok b →
       (eps <= b - a)%Q → x !! i = Some u →
       ∃ u', y !! i = Some u'
             ∧ ((u <= a)%Q → (u' == 0)%Q) ∧ ((b <= u)%Q → (u' == 1)%Q)).
Proof.
  intros Heps _. unfold _robust_norm. destruct (len x =? 0) eqn:E.
  { apply Z.eqb_eq in E. destruct x; [|done]. intros _.
    split; intros; simplify_eq. }
  intros Hb. apply bind_ok in Hb as (a & Ha & Hb).
  apply bind_ok in Hb as (b & Hb' & Hb).
  destruct (Qltb (b - a) eps) eqn:Hdeg; injection Hb as <-.
  - apply Qltb_lt in Hdeg. split.
    + intros i j u v Hi Hj _. exists 0%Q, 0%Q.
      apply lookup_lt_Some in Hi, Hj.
      rewrite !lookup_replicate_2 by done. split; [done|]. split; [done|lra].
    + intros a' b' i u Ha' Hb'' Hspread. rewrite Ha in Ha'. rewrite Hb' in Hb''.
      injection Ha' as <-. injection Hb'' as <-. lra.
  - apply Qltb_ge in Hdeg. split.
    + intros i j u v Hi Hj Huv.
      rewrite !list_lookup_fmap, Hi, Hj. simpl. eexists _, _.
      split; [done|]. split; [done|]. apply clip_mono.
      unfold Qdiv. apply Qmult_le_compat_r; [lra|].
      apply Qinv_le_0_compat. lra.
    + intros a' b' i u Ha' Hb'' Hspread Hi. rewrite Ha in Ha'. rewrite Hb' in Hb''.
      injection Ha' as <-. injection Hb'' as <-.
      rewrite !list_lookup_fmap, Hi. simpl. eexists. split; [done|].
      assert (Hpos : (0 < b - a)%Q) by lra.
      unfold clip, Qmin2, Qmax2. split; intros Hu.
      * assert (((u - a) / (b - a) <= 0)%Q).
        { apply Qle_shift_div_r; [done|]. lra. }
        destruct (Qltb ((u - a) / (b - a)) 0) eqn:E1;
          rewrite ?Qltb_lt, ?Qltb_ge in E1.
        -- destruct (Qltb 1 0) eqn:E2; rewrite ?Qltb_lt in E2; lra.
        -- destruct (Qltb 1 _) eqn:E2; rewrite ?Qltb_lt, ?Qltb_ge in E2; lra.
      * assert ((1 <= (u - a) / (b - a))%Q).
        { apply Qle_shift_div_l; [done|]. lra. }
        destruct (Qltb ((u - a) / (b - a)) 0) eqn:E1;
          rewrite ?Qltb_lt, ?Qltb_ge in E1; [lra|].
        destruct (Qltb 1 _) eqn:E2; rewrite ?Qltb_lt, ?Qltb_ge in E2; lra.
Qed.

Lemma robust_norm_monotone_witness :
  ∃ y, _robust_norm [0; 1]%Q 5 95 eps9 = Ok y
       ∧ ∃ u' v', y !! 0%nat = Some u' ∧ y !! 1%nat = Some v' ∧ (u' <= v')%Q.
Proof.
  pose proof robust_norm_example_runs as Hrun.
  destruct (_robust_norm [0; 1]%Q 5 95 eps9) as [y|e] eqn:E; [|discriminate].
  exists y. split; [done|].
  assert (Hrange : no_overflow [0; 1]%Q).
  { repeat constructor; discriminate. }
  apply (proj1 (robust_norm_monotone [0; 1]%Q y 5 95 eps9 eq_refl Hrange E)
           0%nat 1%nat 0%Q 1%Q eq_refl eq_refl).
  discriminate.
Defined.

(** ** Period estimate from the autocorrelation *)

Lemma length_correlate_full (a v : list Q) :
  length (correlate_full a v) = (2 * length a - 1)%nat.
Proof. unfold correlate_full. by rewrite length_fmap, length_seq. Qed.

(** With its first two entries equal, the first maximum of an array is not
    at position 1. *)
Lemma argmax_skips_tie (a : Q) (l : list Q) (k : Z) :
  argmax (a :: a :: l) = Ok k → k = 0 ∨ 2 <= k < 2 + len l.
Proof.
  simpl. intros [= <-].
  assert (Qltb a a = false) as -> by (apply Qltb_ge; lra).
  destruct (argmax_from_range a 0 (1 + 1) l) as [->|Hr]; [by left|by right].
Qed.

(** X6: [_estimate_period_from_autocorr] yields [None] on fewer than eight
    samples.  With [fps] other than zero it never raises, and a period it
    yields is [k / fps] for a lag [k] of at least two frames and less than
    the number of samples.  With [fps = 0] it yields [None] or, when a lag
    was found, raises [ZeroDivisionError]. *)
Theorem estimate_period_lag_bounds `{Libm} (x : list Q) (fps : Q) :
  (len x < 8 → _estimate_period_from_autocorr x fps = Ok None)
  ∧ (¬ (fps == 0)%Q →
     ∃ r, _estimate_period_from_autocorr x fps = Ok r
          ∧ ∀ p, r = Some p →
              ∃ k, 2 <= k < len x ∧ p = (inject_Z k / fps)%Q)
  ∧ ((fps == 0)%Q →
     _estimate_period_from_autocorr x fps = Ok None
     ∨ _estimate_period_from_autocorr x fps = Raise ZeroDivisionError).
Proof.
  unfold _estimate_period_from_autocorr.
  destruct (len x <? 8) eqn:E.
  { split; [done|]. split; [|by left]. intros _. exists None. by split. }
  apply Z.ltb_ge in E. split; [lia|].
  set (xn := (fun v => ((v - mean x) / (std x + eps9))%Q) <$> x).
  set (ac := fill_slice (slice_from (correlate_full xn xn) (len xn - 1)) 0 2 0%Q).
  assert (Hlen : length ac = length x).
  { unfold ac, slice_from. rewrite length_fill_slice, length_drop,
      length_correlate_full.
    assert (length xn = length x) as Hxn by apply length_fmap.
    rewrite slice_bound_nonneg by (unfold len in *; lia).
    rewrite length_correlate_full. unfold len in *. lia. }
  assert (H0 : ac !! 0%nat = Some 0%Q ∧ ac !! 1%nat = Some 0%Q).
  { unfold ac. rewrite !lookup_fill_slice. unfold ac in Hlen.
    rewrite length_fill_slice in Hlen. unfold len in E.
    destruct (lookup_lt_is_Some_2
                (slice_from (correlate_full xn xn) (len xn - 1)) 0) as [a0 ->];
      [lia|].
    destruct (lookup_lt_is_Some_2
                (slice_from (correlate_full xn xn) (len xn - 1)) 1) as [a1 ->];
      [lia|].
    done. }
  destruct ac as [|a0 [|a1 rest]]; [simpl in *; unfold len in *; lia..|].
  destruct H0 as [[= ->] [= ->]].
  destruct (argmax (0%Q :: 0%Q :: rest)) as [k|e] eqn:Hk; [|done].
  apply argmax_skips_tie in Hk. cbn [bind].
  destruct (k <=? 0) eqn:Ek.
  { split; [|by left]. intros _. exists None. by split. }
  apply Z.leb_gt in Ek. split.
  - intros Hfps. destruct (Qeq_bool fps 0) eqn:Ef.
    { apply Qeq_bool_iff in Ef. done. }
    eexists. split; [done|]. intros p [= <-]. exists k. split; [|done].
    unfold len in *. simpl in Hlen. lia.
  - intros Hfps. right. apply Qeq_bool_iff in Hfps. by rewrite Hfps.
Qed.

(** ** Prominence and area of a peak *)

Lemma getitem_lookup {A} (l : list A) (i : Z) (a : A) :
  0 <= i → l !! Z.to_nat i = Some a → getitem l i = Ok a.
Proof.
  intros Hi Hl. unfold getitem.
  destruct (Z.ltb_spec i 0); [lia|].
  destruct (Z.ltb_spec i 0); [lia|]. by rewrite Hl.
Qed.

Lemma foldl_Qmin2_spec (v : Q) (l : list Q) :
  foldl Qmin2 v l ∈ v :: l
  ∧ Forall (fun u => (foldl Qmin2 v l <= u)%Q) (v :: l).
Proof.
  revert v. induction l as [|a l IH]; intros v; simpl.
  { split; [by left|]. apply Forall_singleton. lra. }
  destruct (IH (Qmin2 v a)) as [Hin Hall]. split.
  - apply elem_of_cons in Hin as [->|Hin]; [|set_solver].
    unfold Qmin2. destruct (Qltb a v); set_solver.
  - inversion Hall as [|? ? Hm Hl]; subst.
    assert ((Qmin2 v a <= v)%Q ∧ (Qmin2 v a <= a)%Q) as [Hv Ha].
    { unfold Qmin2. destruct (Qltb a v) eqn:E; Qltb_cases; lra. }
    repeat constructor; [lra|lra|done].
Qed.

Lemma Qsum_nonneg (l : list Q) : Forall (fun v => (0 <= v)%Q) l → (0 <= Qsum l)%Q.
Proof.
  induction 1 as [|v l Hv Hl IH]; simpl; [lra|].
  change (foldr Qplus 0%Q l) with (Qsum l). lra.
Qed.

Lemma trapz_nonneg (w : list Q) : Forall (fun v => (0 <= v)%Q) w → (0 <= trapz w)%Q.
Proof.
  intros Hw. unfold trapz. apply Qsum_nonneg.
  assert (Hd : Forall (fun v => (0 <= v)%Q) (drop 1 w)) by by apply Forall_drop.
  revert Hd. generalize (drop 1 w). intros d Hd. revert w Hw.
  induction Hd as [|a d Ha Hd IH]; intros w Hw; [constructor|].
  destruct Hw as [|b w Hb Hw]; simpl; [constructor|].
  constructor; [|by apply IH].
  apply Qle_shift_div_l; lra.
Qed.

(** The window [x[lo:hi]] with non-negative bounds, position by position. *)
Lemma lookup_slice_nonneg {A} (x : list A) (lo hi : Z) (j : nat) :
  0 <= lo <= hi → hi <= len x → (Z.of_nat j < hi - lo) →
  slice x lo hi !! j = x !! (Z.to_nat lo + j)%nat.
Proof.
  intros Hlo Hhi Hj. unfold slice, len in *.
  rewrite !slice_bound_nonneg by lia.
  rewrite lookup_take_lt by lia. rewrite lookup_drop. f_equal. lia.
Qed.

(** X7: at a position [i] inside the signal and with a non-negative
    radius, [_prominence_and_area] returns.  The area is never negative;
    the prominence is at most the peak value minus any lower bound of the
    window [x[lo:hi]]; and it is non-negative when no sample of the window
    exceeds the peak. *)
Theorem prominence_and_area_bounds (x : list Q) (i radius : Z) (peak : Q) :
  0 <= radius → 0 <= i → x !! Z.to_nat i = Some peak →
  let win := slice x (Z.max 0 (i - radius)) (Z.min (len x) (i + radius + 1)) in
  ∃ prom area,
    _prominence_and_area x i radius = Ok (prom, area)
    ∧ (0 <= area)%Q
    ∧ (∀ c, Forall (fun v => (c <= v)%Q) win → (prom <= peak - c)%Q)
    ∧ (Forall (fun v => (v <= peak)%Q) win → (0 <= prom)%Q).
Proof.
  intros Hr Hi Hpeak win. unfold _prominence_and_area. fold win.
  pose proof (lookup_lt_Some _ _ _ Hpeak) as Hlt.
  set (lo := Z.max 0 (i - radius)) in *.
  set (hi := Z.min (len x) (i + radius + 1)) in *.
  assert (Hlohi : 0 <= lo <= i ∧ i < hi ∧ hi <= len x) by (unfold lo, hi, len; lia).
  assert (Hwin : ∀ j, lo <= j < hi →
            win !! Z.to_nat (j - lo) = x !! Z.to_nat j).
  { intros j Hj. unfold win. rewrite lookup_slice_nonneg by lia.
    f_equal. lia. }
  assert (Hpw : peak ∈ win).
  { eapply list_elem_of_lookup_2. rewrite (Hwin i) by lia. done. }
  rewrite (getitem_lookup _ _ _ Hi Hpeak). simpl.
  destruct win as [|w0 wrest] eqn:Ewin; [by apply elem_of_nil in Hpw|].
  simpl. destruct (foldl_Qmin2_spec w0 wrest) as [Hmin_in Hmin_le].
  set (wmin := foldl Qmin2 w0 wrest) in *.
  assert (Hel : ∃ el, (if 0 <? lo then getitem x lo else Ok peak) = Ok el
                      ∧ el ∈ w0 :: wrest).
  { destruct (Z.ltb_spec 0 lo); [|by eauto].
    destruct (lookup_lt_is_Some_2 x (Z.to_nat lo)) as [el Hel];
      [unfold len in *; lia|].
    exists el. split; [apply getitem_lookup; [lia|done]|].
    eapply list_elem_of_lookup_2. rewrite <- Hel, <- (Hwin lo) by lia.
    by rewrite Z.sub_diag. }
  assert (Her : ∃ er, (if hi <? len x then getitem x (hi - 1) else Ok peak) = Ok er
                      ∧ er ∈ w0 :: wrest).
  { destruct (Z.ltb_spec hi (len x)); [|by eauto].
    destruct (lookup_lt_is_Some_2 x (Z.to_nat (hi - 1))) as [er Her];
      [unfold len in *; lia|].
    exists er. split; [apply getitem_lookup; [lia|done]|].
    eapply list_elem_of_lookup_2. rewrite <- Her. apply (Hwin (hi - 1)). lia. }
  destruct Hel as (el & -> & Hel). destruct Her as (er & -> & Her). simpl.
  eexists _, _. split; [done|]. split; [|split].
  - apply trapz_nonneg. apply (proj2 (Forall_fmap (clip_lo 0) _ (w0 :: wrest))).
    apply Forall_true. intros v.
    unfold clip_lo, Qmax2. simpl. destruct (Qltb v 0) eqn:E; Qltb_cases; lra.
  - intros c Hc. rewrite Forall_forall in Hc. apply Hc in Hmin_in.
    unfold Qmax2. destruct (Qltb wmin (Qmin2 el er)) eqn:E; Qltb_cases; lra.
  - intros Hc. rewrite Forall_forall in Hc.
    apply Hc in Hmin_in, Hel, Her.
    unfold Qmax2, Qmin2. destruct (Qltb er el) eqn:E1; Qltb_cases; lra.
Qed.

Lemma prominence_and_area_bounds_witness :
  ∃ prom area,
    _prominence_and_area [0; 1; 0]%Q 1 1 = Ok (prom, area)
    ∧ (0 <= area)%Q
    ∧ (∀ c, Forall (fun v => (c <= v)%Q) (slice [0; 1; 0]%Q 0 3) →
            (prom <= 1 - c)%Q)
    ∧ (Forall (fun v => (v <= 1)%Q) (slice [0; 1; 0]%Q 0 3) → (0 <= prom)%Q).
Proof.
  apply (prominence_and_area_bounds [0; 1; 0]%Q 1 1 1%Q); [lia|lia|reflexivity].
Defined.

(** ** Finite differences of a 1-D signal *)

Lemma getitem_neg_lookup {A} (l : list A) (i : Z) (a : A) :
  i < 0 → 0 <= i + len l → l !! Z.to_nat (i + len l) = Some a →
  getitem l i = Ok a.
Proof.
  intros Hi Hl Ha. unfold getitem.
  destruct (Z.ltb_spec i 0); [|lia].
  destruct (Z.ltb_spec (i + len l) 0); [lia|]. by rewrite Ha.
Qed.

(** X8: the 1-D branch of [_grad] raises [IndexError] on an empty signal
    and yields [[0]] on a single sample.  On two or more samples it returns
    one value per sample: the forward difference at the first sample, the
    backward difference at the last one, and the central difference
    [(x[k+1] - x[k-1]) / (2 dt)] at every sample in between. *)
Theorem grad_pointwise (x : list Q) (dt : Q) :
  (x = [] → _grad x dt = Raise IndexError)
  ∧ (length x = 1%nat → _grad x dt = Ok [0%Q])
  ∧ ((2 ≤ length x)%nat →
     ∃ g, _grad x dt = Ok g
          ∧ length g = length x
          ∧ (∀ a b, x !! 0%nat = Some a → x !! 1%nat = Some b →
               g !! 0%nat = Some ((b - a) / dt)%Q)
          ∧ (∀ a b, x !! (length x - 2)%nat = Some a →
               x !! (length x - 1)%nat = Some b →
               g !! (length x - 1)%nat = Some ((b - a) / dt)%Q)
          ∧ (∀ k l r, (1 ≤ k)%nat → (k + 1 < length x)%nat →
               x !! (k - 1)%nat = Some l → x !! (k + 1)%nat = Some r →
               g !! k = Some ((r - l) / (2 * dt))%Q)).
Proof.
  split; [by intros ->|]. split.
  { intros Hx. unfold _grad, len. by rewrite Hx. }
  intros Hn. unfold _grad at 1.
  destruct (Z.eqb_spec (len x) 1) as [E|_]; [unfold len in E; lia|].
  destruct (lookup_lt_is_Some_2 x 0) as [x0 H0]; [lia|].
  destruct (lookup_lt_is_Some_2 x 1) as [x1 H1]; [lia|].
  destruct (lookup_lt_is_Some_2 x (length x - 1)) as [xl Hl]; [lia|].
  destruct (lookup_lt_is_Some_2 x (length x - 2)) as [xl2 Hl2]; [lia|].
  rewrite (getitem_lookup x 1 x1), (getitem_lookup x 0 x0) by (done || lia).
  rewrite (getitem_neg_lookup x (-1) xl), (getitem_neg_lookup x (-2) xl2);
    [|lia|unfold len; lia| |lia|unfold len; lia|].
  2:{ rewrite <- Hl2. f_equal. unfold len. lia. }
  2:{ rewrite <- Hl. f_equal. unfold len. lia. }
  simpl. eexists. split; [done|]. split.
  { apply (length_grad x _ dt). unfold _grad.
    destruct (Z.eqb_spec (len x) 1) as [E|_]; [unfold len in E; lia|].
    rewrite (getitem_lookup x 1 x1), (getitem_lookup x 0 x0) by (done || lia).
    rewrite (getitem_neg_lookup x (-1) xl), (getitem_neg_lookup x (-2) xl2);
      [done|lia|unfold len; lia| |lia|unfold len; lia|].
    - rewrite <- Hl2. f_equal. unfold len. lia.
    - rewrite <- Hl. f_equal. unfold len. lia. }
  set (mid := zip_with (fun a b => ((a - b) / (2 * dt))%Q)
                (slice_from x 2) (slice_to x (-2))).
  assert (Hmid : length mid = (length x - 2)%nat).
  { unfold mid. rewrite length_zip_with, length_slice_from_2, length_slice_to_m2.
    lia. }
  destruct (Z.ltb_spec 2 (len x)) as [Hgt|Hle]; unfold len in *.
  - split; [|split].
    + intros a b Ha Hb. simplify_eq. done.
    + intros a b Ha Hb. simplify_eq.
      replace (length x - 1)%nat with (S (length mid + 0)) by lia.
      simpl. by rewrite lookup_app_r, Nat.add_0_r, Nat.sub_diag by lia.
    + intros k l r Hk1 Hk2 Hkl Hkr.
      destruct k as [|k]; [lia|]. simpl.
      rewrite lookup_app_l by lia. unfold mid.
      rewrite lookup_zip_with, lookup_slice_from_2, lookup_slice_to_m2 by lia.
      replace (S k - 1)%nat with k in Hkl by lia.
      replace (S k + 1)%nat with (2 + k)%nat in Hkr by lia.
      by rewrite Hkr, Hkl.
  - assert (length x = 2%nat) as Hx2 by lia. rewrite Hx2 in *. simpl in *.
    split; [|split].
    + intros a b Ha Hb. simplify_eq. done.
    + intros a b Ha Hb. simplify_eq. done.
    + intros k l r Hk1 Hk2. lia.
Qed.

(** ** Canonical form of an event list *)

(** X9: [_as_int_sorted_unique] yields the one strictly increasing list
    with the same elements as its input: the result is strictly increasing,
    has exactly the input's elements, is never longer than the input, and
    equals every strictly increasing list with those elements (in
    particular a strictly increasing input is returned unchanged). *)
Theorem as_int_sorted_unique_canonical (x l : list Z) :
  StronglySorted Z.lt (_as_int_sorted_unique x)
  ∧ (∀ e, e ∈ _as_int_sorted_unique x ↔ e ∈ x)
  ∧ (length (_as_int_sorted_unique x) ≤ length x)%nat
  ∧ (StronglySorted Z.lt l → (∀ e, e ∈ l ↔ e ∈ x) →
     _as_int_sorted_unique x = l).
Proof.
  pose proof (as_int_sorted_unique_strict x) as Hs.
  pose proof (StronglySorted_lt_le _ Hs) as [Hle Hnd].
  split; [done|]. split; [apply elem_of_as_int_sorted_unique|]. split.
  - apply submseteq_length, NoDup_submseteq; [done|].
    intros e. by rewrite elem_of_as_int_sorted_unique.
  - intros Hl Hel. apply StronglySorted_lt_le in Hl as [Hlle Hlnd].
    apply (StronglySorted_unique Z.le); [done|done|].
    apply NoDup_Permutation; [done|done|].
    intros e. by rewrite elem_of_as_int_sorted_unique, Hel.
Qed.

(** ** [refine_events_with_tempo] always returns *)

Lemma length_as_int_sorted_unique (x : list Z) :
  (length (_as_int_sorted_unique x) ≤ length x)%nat.
Proof.
  pose proof (StronglySorted_lt_le _ (as_int_sorted_unique_strict x)) as [_ Hnd].
  apply submseteq_length, NoDup_submseteq; [done|].
  intros e. by rewrite elem_of_as_int_sorted_unique.
Qed.

Lemma length_mask_select {A} (mask : list bool) (a : list A) :
  length mask = length a →
  length (mask_select mask a) = length (filter (fun g => g = true) mask).
Proof.
  revert a. induction mask as [|b mask IH]; intros [|x a] Hlen; try done.
  unfold mask_select in *. destruct b.
  - rewrite filter_cons_True by done. simpl. f_equal. apply IH. by injection Hlen.
  - rewrite filter_cons_False by done. simpl. apply IH. by injection Hlen.
Qed.

Lemma argmax_ok (l : list Q) : l ≠ [] → ∃ m, argmax l = Ok m.
Proof. destruct l; [done|]. simpl. eauto. Qed.

Lemma snap_loop_ok (score : list Q) (drift : Z) (pred : list Q) (acc : list Z) :
  ∃ out, foldR (snap_to_peak score drift) acc pred = Ok out
         ∧ (length out ≤ length acc + length pred)%nat.
Proof.
  revert acc. induction pred as [|p pred IH]; intros acc; simpl.
  { exists acc. split; [done|lia]. }
  unfold snap_to_peak at 1.
  set (lo := Z.max 0 (round p - drift)).
  set (hi := Z.min (len score) (round p + drift + 1)).
  destruct (Z.leb_spec hi lo) as [|Hlt]; simpl.
  { destruct (IH acc) as (out & -> & Hlen). exists out. split; [done|lia]. }
  destruct (argmax_ok (slice score lo hi)) as [m ->].
  { assert (Hb : 0 <= lo ∧ hi <= Z.of_nat (length score))
      by (unfold lo, hi, len; lia).
    clearbody lo hi.
    intros Hnil. apply (f_equal length) in Hnil. revert Hnil.
    unfold slice. rewrite length_take, length_drop, !slice_bound_nonneg by lia.
    cbn [length]. lia. }
  simpl. destruct (IH (acc ++ [lo + m])) as (out & -> & Hlen).
  exists out. split; [done|]. rewrite length_app in Hlen. simpl in Hlen. lia.
Qed.

(** X11: with [min_events <= 0] the size tests of
    [refine_events_with_tempo] let an empty selection through: when there
    are at least two distinct events, the score is not empty and no event
    is a frame of the score, the clamp leaves nothing and the line fit
    raises [TypeError]. *)
Theorem refine_events_empty_fit_raises (events : list Z) (score : list Q)
    (fps : Q) (max_drift_frames min_events : Z) :
  min_events <= 0 →
  2 <= len (_as_int_sorted_unique events) →
  score ≠ [] →
  Forall (fun e => ¬ (0 <= e < len score)) events →
  refine_events_with_tempo events score fps max_drift_frames min_events
  = Raise TypeError.
Proof.
  intros Hmin Hsize Hscore Hout. unfold refine_events_with_tempo.
  set (ev := _as_int_sorted_unique events) in *.
  destruct (Z.ltb_spec (len ev) min_events); [lia|].
  destruct (Z.ltb_spec (len ev) 2); [lia|].
  destruct (Z.eqb_spec (len score) 0) as [E|_]; [by destruct score|].
  simpl.
  assert (filter (fun e => 0 <= e < len score) ev = []) as ->.
  { destruct (filter _ ev) as [|e rest] eqn:Ef; [done|].
    assert (He : e ∈ filter (fun e => 0 <= e < len score) ev)
      by (rewrite Ef; by left).
    apply list_elem_of_filter in He as [Hin He]. unfold ev in He.
    rewrite elem_of_as_int_sorted_unique in He.
    rewrite Forall_forall in Hout. by apply Hout in He. }
  destruct (Z.ltb_spec (len (@nil Z)) min_events) as [Hlt|_].
  { unfold len in Hlt. simpl in Hlt. lia. }
  done.
Qed.

Lemma refine_events_empty_fit_raises_witness :
  refine_events_with_tempo [-1; -2] [0%Q] 30 3 0 = Raise TypeError.
Proof.
  apply refine_events_empty_fit_raises.
  - lia.
  - vm_compute. discriminate.
  - discriminate.
  - repeat constructor; unfold len; simpl; lia.
Defined.

(** ** Rounding *)

Lemma Qfloor_bounds (x : Q) :
  (inject_Z (Qfloor x) <= x)%Q ∧ (x < inject_Z (Qfloor x) + 1)%Q.
Proof.
  split; [apply Qfloor_le|].
  pose proof (Qlt_floor x) as H. rewrite inject_Z_plus in H. exact H.
Qed.

Lemma round_floor (x : Q) : Qfloor x <= round x <= Qfloor x + 1.
Proof.
  unfold round. destruct (Qltb _ _); [lia|].
  destruct (Qltb _ _); [lia|]. destruct (Z.even _); lia.
Qed.

(** Rounding half to even is monotone. *)
Lemma round_mono (x y : Q) : (x <= y)%Q → round x <= round y.
Proof.
  intros Hxy. pose proof (Qfloor_resp_le _ _ Hxy) as Hf.
  destruct (Z.eq_dec (Qfloor x) (Qfloor y)) as [E|E].
  2:{ pose proof (round_floor x). pose proof (round_floor y). lia. }
  unfold round. rewrite <- E. set (f := Qfloor x).
  destruct (Qltb (x - inject_Z f) (1 # 2)) eqn:E1;
    destruct (Qltb (y - inject_Z f) (1 # 2)) eqn:E2;
    destruct (Qltb (1 # 2) (x - inject_Z f)) eqn:E3;
    destruct (Qltb (1 # 2) (y - inject_Z f)) eqn:E4;
    Qltb_cases; try lia; try (exfalso; lra);
    destruct (Z.even f); lia.
Qed.

Lemma round_inject_Z (n : Z) : round (inject_Z n) = n.
Proof.
  unfold round. rewrite Qfloor_Z.
  assert (Qltb (inject_Z n - inject_Z n) (1 # 2) = true) as ->; [|done].
  apply Qltb_lt. lra.
Qed.

(** ** [subdivide_events_uniform] *)

Lemma seqZ_sorted (m n : Z) : StronglySorted Z.le (seqZ m n).
Proof.
  unfold seqZ. generalize (Z.to_nat n) as k. generalize 0%nat as s.
  intros s k. revert s. induction k as [|k IH]; intros s; simpl; [constructor|].
  constructor; [apply IH|].
  apply Forall_fmap, Forall_forall. intros i Hi. apply elem_of_seq in Hi.
  simpl. lia.
Qed.

Lemma subdivide_points_spec (a b factor : Z) :
  a <= b → 1 <= factor →
  StronglySorted Z.le (subdivide_points a b factor)
  ∧ Forall (fun p => a <= p <= b) (subdivide_points a b factor).
Proof.
  intros Hab Hf. unfold subdivide_points.
  assert (HD : (0 <= inject_Z (b - a))%Q).
  { change 0%Q with (inject_Z 0). rewrite <- Zle_Qle. lia. }
  assert (HF : (0 < inject_Z factor)%Q).
  { change 0%Q with (inject_Z 0). rewrite <- Zlt_Qlt. lia. }
  assert (HFi : (0 <= / inject_Z factor)%Q) by (apply Qinv_le_0_compat; lra).
  split.
  - eapply StronglySorted_fmap; [|apply seqZ_sorted].
    intros k k' Hk. simpl. apply round_mono.
    assert (Hkk : (inject_Z k <= inject_Z k')%Q) by by rewrite <- Zle_Qle.
    assert ((inject_Z k / inject_Z factor <= inject_Z k' / inject_Z factor)%Q).
    { unfold Qdiv. by apply Qmult_le_compat_r. }
    nra.
  - apply Forall_fmap, Forall_forall. intros k Hk. apply elem_of_seqZ in Hk.
    simpl.
    assert (Hu : (0 <= inject_Z k / inject_Z factor <= 1)%Q).
    { split.
      - apply Qle_shift_div_l; [done|]. rewrite Qmult_0_l.
        change 0%Q with (inject_Z 0). rewrite <- Zle_Qle. lia.
      - apply Qle_shift_div_r; [done|]. rewrite Qmult_1_l.
        rewrite <- Zle_Qle. lia. }
    assert (Hba : (inject_Z a + inject_Z (b - a) == inject_Z b)%Q).
    { rewrite <- inject_Z_plus. by replace (a + (b - a)) with b by lia. }
    set (u := (inject_Z k / inject_Z factor)%Q) in *.
    set (D := inject_Z (b - a)) in *.
    split.
    + transitivity (round (inject_Z a)); [by rewrite round_inject_Z|].
      apply round_mono. nra.
    + transitivity (round (inject_Z b)); [|by rewrite round_inject_Z].
      apply round_mono. nra.
Qed.

(** The subdivision loop keeps the list non-decreasing and keeps every
    event. *)
Lemma subdivide_loop_sorted (factor : Z) (rest : list Z) (a : Z) (pre : list Z) :
  1 <= factor →
  StronglySorted Z.lt (a :: rest) →
  StronglySorted Z.le (pre ++ [a]) →
  let out := foldl (fun (out : list Z) (ab : Z * Z) =>
                      if ab.2 <=? ab.1 then out
                      else out ++ subdivide_points ab.1 ab.2 factor ++ [ab.2])
                   (pre ++ [a]) (zip (a :: rest) rest) in
  StronglySorted Z.le out
  ∧ (∀ e, e ∈ pre ++ [a] → e ∈ out)
  ∧ (∀ e, e ∈ rest → e ∈ out).
Proof.
  intros Hf. revert a pre. induction rest as [|b rest IH]; intros a pre Hs Hpre.
  { simpl. split; [done|]. split; [done|]. intros e He. by apply elem_of_nil in He. }
  cbn [zip zip_with foldl fst snd].
  apply StronglySorted_cons in Hs as [Hall Hs].
  assert (Hab : a < b) by (by inversion Hall).
  destruct (Z.leb_spec b a) as [|_]; [lia|].
  destruct (subdivide_points_spec a b factor ltac:(lia) Hf) as [Hps Hpr].
  rewrite Forall_forall in Hpr.
  assert (Hle_a : ∀ x, x ∈ pre ++ [a] → x <= a).
  { intros x Hx. apply elem_of_app in Hx as [Hx|Hx].
    - apply (StronglySorted_app_1_elem_of _ _ _ _ _ Hpre Hx). by left.
    - apply list_elem_of_singleton in Hx. lia. }
  assert (Hnew : StronglySorted Z.le
                   (((pre ++ [a]) ++ subdivide_points a b factor) ++ [b])).
  { apply StronglySorted_app_2.
    - intros x y Hx Hy. apply list_elem_of_singleton in Hy as ->.
      apply elem_of_app in Hx as [Hx|Hx]; [apply Hle_a in Hx; lia|].
      apply Hpr in Hx. lia.
    - apply StronglySorted_app_2; [|done|done].
      intros x y Hx Hy. apply Hle_a in Hx. apply Hpr in Hy. lia.
    - repeat constructor. }
  rewrite (assoc_L (++)).
  destruct (IH b ((pre ++ [a]) ++ subdivide_points a b factor) Hs Hnew)
    as (Hout & Hin & Hrest).
  split; [done|]. split.
  - intros e He. apply Hin. set_solver.
  - intros e He. apply elem_of_cons in He as [->|He]; [|by apply Hrest].
    apply Hin. set_solver.
Qed.

(** The clean-up loop on a non-decreasing list: the first occurrences of
    the clamped values form a strictly increasing list. *)
Lemma clamp_dedup_sorted (T : Z) (l cleaned seen : list Z) :
  StronglySorted Z.le l →
  (∀ x, x ∈ seen ↔ x ∈ cleaned) →
  StronglySorted Z.lt cleaned →
  (∀ x y, x ∈ cleaned → y ∈ l → x <= Z.max 0 (Z.min (T - 1) y)) →
  let st := foldl (clamp_dedup_step T) (cleaned, seen) l in
  StronglySorted Z.lt st.1
  ∧ (∀ x, x ∈ st.1 ↔ x ∈ cleaned ∨ ∃ y, y ∈ l ∧ x = Z.max 0 (Z.min (T - 1) y)).
Proof.
  revert cleaned seen.
  induction l as [|e l IH]; intros cleaned seen Hl Hseen Hcl Hle; simpl.
  { split; [done|]. intros x. split; [by left|].
    intros [?|(y & Hy & _)]; [done|by apply elem_of_nil in Hy]. }
  apply StronglySorted_cons in Hl as [Hall Hl]. rewrite Forall_forall in Hall.
  set (c := Z.max 0 (Z.min (T - 1) e)).
  destruct (bool_decide (c ∈ seen)) eqn:Ec.
  - apply bool_decide_eq_true in Ec. apply Hseen in Ec.
    destruct (IH cleaned seen) as [Hs Hel]; [done|done|done| |].
    { intros x y Hx Hy. apply Hle; [done|by right]. }
    split; [done|]. intros x. rewrite Hel. split.
    + intros [?|(y & Hy & ->)]; [by left|]. right. exists y. split; [by right|done].
    + intros [?|(y & Hy & ->)]; [by left|].
      apply elem_of_cons in Hy as [->|Hy]; [by left|]. right. eauto.
  - apply bool_decide_eq_false in Ec. rewrite Hseen in Ec.
    destruct (IH (cleaned ++ [c]) (c :: seen)) as [Hs Hel]; [done| | | |].
    { intros x. rewrite elem_of_cons, elem_of_app, list_elem_of_singleton, Hseen.
      tauto. }
    { apply StronglySorted_app_2; [|done|repeat constructor].
      intros x y Hx Hy. apply list_elem_of_singleton in Hy as ->.
      assert (x ≠ c) by (by intros ->).
      specialize (Hle x e Hx ltac:(by left)). fold c in Hle. lia. }
    { intros x y Hx Hy. apply elem_of_app in Hx as [Hx|Hx].
      - apply Hle; [done|by right].
      - apply list_elem_of_singleton in Hx as ->. specialize (Hall y Hy).
        unfold c. lia. }
    split; [done|]. intros x. rewrite Hel, elem_of_app, list_elem_of_singleton.
    split.
    + intros [[? | ->]|(y & Hy & ->)]; [by left| |].
      * right. exists e. split; [by left|done].
      * right. exists y. split; [by right|done].
    + intros [?|(y & Hy & ->)]; [by left; left|].
      apply elem_of_cons in Hy as [->|Hy]; [by left; right|]. right. eauto.
Qed.

(** X12: the list returned by [subdivide_events_uniform] is strictly
    increasing; every given event that is a frame of [0, T) is in it; for
    [T >= 1] all its elements are frames of [0, T); for [T <= 0] the
    subdividing branch (two or more distinct events, factor two or more)
    returns [[0]]. *)
Theorem subdivide_events_sorted (events : list Z) (factor T : Z) :
  let out := subdivide_events_uniform events factor T in
  StronglySorted Z.lt out
  ∧ (∀ e, e ∈ events → 0 <= e < T → e ∈ out)
  ∧ (1 <= T → Forall (fun e => 0 <= e < T) out)
  ∧ (T <= 0 → 2 <= factor → 2 <= len (_as_int_sorted_unique events) →
     out = [0]).
Proof.
  unfold subdivide_events_uniform.
  pose proof (as_int_sorted_unique_strict events) as Hs.
  assert (Hel := elem_of_as_int_sorted_unique events).
  set (ev := _as_int_sorted_unique events) in *.
  destruct ((len ev <? 2) || (Z.max 1 factor =? 1)) eqn:Eg.
  { split; [|split; [|split]].
    - eapply sublist_StronglySorted; [apply sublist_filter|done].
    - intros e He Hr. apply list_elem_of_filter. split; [done|by apply Hel].
    - intros _. apply Forall_forall. intros e He.
      by apply list_elem_of_filter in He as [He _].
    - intros _ Hf Hl. apply orb_true_iff in Eg as [Eg|Eg]; [apply Z.ltb_lt in Eg|
        apply Z.eqb_eq in Eg]; lia. }
  apply orb_false_iff in Eg as [Eg1 Eg2].
  apply Z.ltb_ge in Eg1. apply Z.eqb_neq in Eg2.
  destruct ev as [|a rest] eqn:Eev; [unfold len in Eg1; simpl in Eg1; lia|].
  change (take 1 (a :: rest)) with ([] ++ [a]). cbn [drop].
  destruct (subdivide_loop_sorted (Z.max 1 factor) rest a [] ltac:(lia) Hs
              ltac:(repeat constructor)) as (Hout & Hina & Hinr).
  set (out := foldl _ ([] ++ [a]) _) in *.
  destruct (clamp_dedup_sorted T out [] [] Hout ltac:(done) ltac:(constructor))
    as [Hcs Hcel].
  { intros x y Hx. by apply elem_of_nil in Hx. }
  split; [done|]. split; [|split].
  - intros e He Hr. apply Hcel. right. exists e. split; [|lia].
    apply Hel in He. apply elem_of_cons in He as [->|He].
    + apply Hina. set_solver.
    + by apply Hinr.
  - intros HT. apply Forall_forall. intros e He.
    apply Hcel in He as [He|(y & _ & ->)]; [by apply elem_of_nil in He|lia].
  - intros HT _ _.
    assert (Hall : ∀ x, x ∈ (foldl (clamp_dedup_step T) ([], []) out).1 ↔ x = 0).
    { intros x. rewrite Hcel. split.
      - intros [He|(y & _ & ->)]; [by apply elem_of_nil in He|lia].
      - intros ->. right. exists a. split; [|lia]. apply Hina. set_solver. }
    destruct (foldl (clamp_dedup_step T) ([], []) out).1 as [|c0 [|c1 cs]].
    + specialize (proj2 (Hall 0) eq_refl) as H0. by apply elem_of_nil in H0.
    + f_equal. apply Hall. by left.
    + apply StronglySorted_cons in Hcs as [Hc _].
      assert (c0 = 0) by (apply Hall; by left).
      assert (c1 = 0) by (apply Hall; right; by left).
      inversion Hc; lia.
Qed.

Example subdivide_events_docstring :
  subdivide_events_uniform [0; 10] 2 11 = [0; 5; 10]
  ∧ subdivide_events_uniform [0; 10] 4 11 = [0; 2; 5; 8; 10].
Proof. split; vm_compute; reflexivity. Qed.

(** ** Runs of a thresholded probability: [probs_to_events] *)

Lemma np_where_shift (n : nat) (cs : list bool) :
  omap (fun p : nat * bool => if p.2 then Some (Z.of_nat p.1) else None)
       (imap (fun i b => (S n + i, b)%nat) cs)
  = Z.succ <$> omap (fun p : nat * bool => if p.2 then Some (Z.of_nat p.1) else None)
                 (imap (fun i b => (n + i, b)%nat) cs).
Proof.
  revert n. induction cs as [|c cs IH]; intros n; [done|].
  rewrite !imap_cons.
  rewrite (imap_ext _ (fun i b => (S (S n) + i, b)%nat) cs)
    by (intros; simpl; f_equal; lia).
  rewrite (imap_ext ((fun i b => (n + i, b)%nat) ∘ S)
             (fun i b => (S n + i, b)%nat) cs)
    by (intros; simpl; f_equal; lia).
  specialize (IH (S n)). destruct c; csimpl; csimpl in IH; rewrite IH; [|done].
  f_equal. lia.
Qed.

Lemma np_where_cons (c : bool) (cs : list bool) :
  np_where (c :: cs) = (if c then [0] else []) ++ (Z.succ <$> np_where cs).
Proof.
  unfold np_where. rewrite imap_cons.
  rewrite (imap_ext (pair ∘ S) (fun i b => (1 + i, b)%nat) cs) by done.
  pose proof (np_where_shift 0 cs) as Hs.
  rewrite (imap_ext (fun i b => (0 + i, b)%nat) pair cs) in Hs by done.
  destruct c; csimpl; csimpl in Hs; by rewrite Hs.
Qed.

Lemma edges_cons (v : Z) (a b : bool) (r : list bool) :
  edges v (a :: b :: r)
  = (if bool_to_int b - bool_to_int a =? v then [0] else [])
    ++ (Z.succ <$> edges v (b :: r)).
Proof. unfold edges, np_diff. cbn [fmap list_fmap drop zip_with]. apply np_where_cons. Qed.

Lemma edges_singleton (v : Z) (a : bool) : edges v [a] = [].
Proof. done. Qed.

Lemma is_run_shift (a : bool) (p : list bool) (se : Z * Z) :
  is_run p se → is_run (a :: p) (Z.succ se.1, Z.succ se.2).
Proof.
  destruct se as [s e]. unfold is_run. simpl. intros (Hse & Hs & He & Hrun).
  split; [lia|]. split; [|split].
  - replace (Z.to_nat (Z.succ s)) with (S (Z.to_nat s)) by lia. done.
  - replace (Z.to_nat (Z.succ e + 1)) with (S (Z.to_nat (e + 1))) by lia. done.
  - intros j Hj. replace (Z.to_nat (j + 1)) with (S (Z.to_nat (j - 1 + 1))) by lia.
    simpl. apply Hrun. lia.
Qed.

Lemma zip_fmap_succ (S E : list Z) :
  zip (Z.succ <$> S) (Z.succ <$> E)
  = (fun se : Z * Z => (Z.succ se.1, Z.succ se.2)) <$> zip S E.
Proof.
  revert E. induction S as [|s S IH]; intros [|e E]; simpl; try done.
  f_equal. apply IH.
Qed.

Lemma lookup_cons_succ {A} (a : A) (p : list A) (j : Z) :
  0 <= j → (a :: p) !! Z.to_nat (j + 1) = p !! Z.to_nat j.
Proof. intros Hj. by replace (Z.to_nat (j + 1)) with (S (Z.to_nat j)) by lia. Qed.

Lemma elem_of_zip_succ (S E : list Z) (se : Z * Z) :
  se ∈ zip S E → (Z.succ se.1, Z.succ se.2) ∈ zip (Z.succ <$> S) (Z.succ <$> E).
Proof.
  intros Hse. rewrite zip_fmap_succ. apply list_elem_of_fmap. by exists se.
Qed.

Lemma Forall_is_run_shift (a : bool) (p : list bool) (S E : list Z) :
  Forall (is_run p) (zip S E) →
  Forall (is_run (a :: p)) (zip (Z.succ <$> S) (Z.succ <$> E)).
Proof.
  intros HF. rewrite zip_fmap_succ. apply Forall_fmap.
  eapply Forall_impl; [exact HF|]. intros se Hse. by apply is_run_shift.
Qed.

Lemma edges_cons_cases (a b : bool) (r : list bool) :
  edges 1 (a :: b :: r)
  = (if negb a && b then [0] else []) ++ (Z.succ <$> edges 1 (b :: r))
  ∧ edges (-1) (a :: b :: r)
    = (if a && negb b then [0] else []) ++ (Z.succ <$> edges (-1) (b :: r)).
Proof. rewrite !edges_cons. by destruct a, b. Qed.

(** Rising and falling edges of a padded mask pair up into its maximal
    runs.  When the list starts inside a run, the first falling edge closes
    that run and the remaining edges pair up. *)
Lemma edges_runs (r : list bool) (a : bool) :
  last (a :: r) = Some false →
  let p := a :: r in
  let S := edges 1 p in
  let E := edges (-1) p in
  if a then
    ∃ e0 E', E = e0 :: E' ∧ 0 <= e0
      ∧ p !! Z.to_nat (e0 + 1) = Some false
      ∧ (∀ j, 0 <= j < e0 → p !! Z.to_nat (j + 1) = Some true)
      ∧ length S = length E'
      ∧ Forall (is_run p) (zip S E')
      ∧ (∀ j, 0 <= j → p !! Z.to_nat (j + 1) = Some true →
           j < e0 ∨ ∃ se, se ∈ zip S E' ∧ se.1 <= j < se.2)
  else
    length S = length E
    ∧ Forall (is_run p) (zip S E)
    ∧ (∀ j, 0 <= j → p !! Z.to_nat (j + 1) = Some true →
         ∃ se, se ∈ zip S E ∧ se.1 <= j < se.2).
Proof.
  revert a. induction r as [|b r IH]; intros a Hlast.
  { injection Hlast as ->. simpl. split; [done|]. split; [constructor|].
    intros j Hj. rewrite lookup_cons_succ by done. done. }
  rewrite last_cons_cons in Hlast. specialize (IH b Hlast).
  cbv zeta in IH |- *.
  destruct (edges_cons_cases a b r) as [-> ->].
  set (S' := edges 1 (b :: r)) in *. set (E' := edges (-1) (b :: r)) in *.
  set (p' := b :: r) in *.
  destruct a, b; cbn [negb andb app] in *.
  - (* inside a run that continues *)
    destruct IH as (e0 & E'' & -> & He0 & Hend & Hrun & Hlen & Hruns & Hcov).
    exists (Z.succ e0), (Z.succ <$> E''). split; [done|]. split; [lia|].
    split; [|split; [|split; [|split]]].
    + rewrite lookup_cons_succ by lia.
      by replace (Z.succ e0) with (e0 + 1) by lia.
    + intros j Hj. rewrite lookup_cons_succ by lia.
      destruct (decide (j = 0)) as [->|Hne]; [done|].
      replace j with (j - 1 + 1) by lia. apply Hrun. lia.
    + by rewrite !length_fmap.
    + by apply Forall_is_run_shift.
    + intros j Hj. rewrite lookup_cons_succ by lia. intros Hp.
      destruct (decide (j = 0)) as [->|Hne]; [left; lia|].
      replace j with (j - 1 + 1) in Hp by lia.
      apply Hcov in Hp as [Hlt|(se & Hse & Hin)]; [left; lia| |lia].
      right. exists (Z.succ se.1, Z.succ se.2).
      split; [by apply elem_of_zip_succ|simpl; lia].
  - (* the run ends here *)
    destruct IH as (Hlen & Hruns & Hcov).
    exists 0, (Z.succ <$> E'). split; [done|]. split; [lia|].
    split; [done|]. split; [intros j Hj; lia|].
    split; [by rewrite !length_fmap|]. split; [by apply Forall_is_run_shift|].
    intros j Hj. rewrite lookup_cons_succ by lia. intros Hp.
    destruct (decide (j = 0)) as [->|Hne]; [done|].
    replace j with (j - 1 + 1) in Hp by lia.
    apply Hcov in Hp as (se & Hse & Hin); [|lia].
    right. exists (Z.succ se.1, Z.succ se.2).
    split; [by apply elem_of_zip_succ|simpl; lia].
  - (* a run starts here *)
    destruct IH as (e0 & E'' & HE & He0 & Hend & Hrun & Hlen & Hruns & Hcov).
    rewrite HE. cbn [fmap list_fmap zip zip_with length].
    assert (Hfirst : is_run (false :: p') (0, Z.succ e0)).
    { unfold is_run. simpl. split; [lia|]. split; [done|]. split.
      - rewrite lookup_cons_succ by lia.
        by replace (Z.succ e0) with (e0 + 1) by lia.
      - intros j Hj. rewrite lookup_cons_succ by lia.
        destruct (decide (j = 0)) as [->|Hne]; [done|].
        replace j with (j - 1 + 1) by lia. apply Hrun. lia. }
    split; [by rewrite !length_fmap, Hlen|]. split.
    + constructor; [done|]. by apply Forall_is_run_shift.
    + intros j Hj. rewrite lookup_cons_succ by lia. intros Hp.
      destruct (decide (j = 0)) as [->|Hne].
      { exists (0, Z.succ e0). split; [by left|simpl; lia]. }
      replace j with (j - 1 + 1) in Hp by lia.
      apply Hcov in Hp as [Hlt|(se & Hse & Hin)]; [| |lia].
      * exists (0, Z.succ e0). split; [by left|simpl; lia].
      * exists (Z.succ se.1, Z.succ se.2).
        split; [right; by apply elem_of_zip_succ|simpl; lia].
  - (* outside any run *)
    destruct IH as (Hlen & Hruns & Hcov).
    split; [by rewrite !length_fmap, Hlen|].
    split; [by apply Forall_is_run_shift|].
    intros j Hj. rewrite lookup_cons_succ by lia. intros Hp.
    destruct (decide (j = 0)) as [->|Hne]; [done|].
    replace j with (j - 1 + 1) in Hp by lia.
    apply Hcov in Hp as (se & Hse & Hin); [|lia].
    exists (Z.succ se.1, Z.succ se.2).
    split; [by apply elem_of_zip_succ|simpl; lia].
Qed.

(** [np.argmax] returns a position holding the maximum. *)
Lemma argmax_from_spec (best : Q) (bi i : Z) (l : list Q) :
  (argmax_from best bi i l = bi ∧ Forall (fun v => (v <= best)%Q) l)
  ∨ (i <= argmax_from best bi i l < i + len l
     ∧ ∃ v, l !! Z.to_nat (argmax_from best bi i l - i) = Some v
            ∧ (best < v)%Q ∧ Forall (fun u => (u <= v)%Q) l).
Proof.
  revert best bi i. induction l as [|v l IH]; intros best bi i; simpl.
  { left. split; [done|constructor]. }
  unfold len. simpl length. rewrite Nat2Z.inj_succ.
  destruct (Qltb best v) eqn:E; Qltb_cases.
  - right. destruct (IH v i (i + 1)) as [[-> Hall]|(Hr & w & Hw & Hvw & Hall)].
    + split; [unfold len; lia|]. exists v. rewrite Z.sub_diag. simpl.
      split; [done|]. split; [done|]. constructor; [lra|done].
    + unfold len in Hr. split; [lia|]. exists w.
      replace (Z.to_nat (argmax_from v i (i + 1) l - i))
        with (S (Z.to_nat (argmax_from v i (i + 1) l - (i + 1)))) by lia.
      split; [done|]. split; [lra|]. constructor; [lra|done].
  - destruct (IH best bi (i + 1)) as [[-> Hall]|(Hr & w & Hw & Hvw & Hall)].
    + left. split; [done|]. by constructor.
    + right. unfold len in Hr. split; [lia|]. exists w.
      replace (Z.to_nat (argmax_from best bi (i + 1) l - i))
        with (S (Z.to_nat (argmax_from best bi (i + 1) l - (i + 1)))) by lia.
      split; [done|]. split; [done|]. constructor; [lra|done].
Qed.

Lemma argmax_spec (l : list Q) (m : Z) :
  argmax l = Ok m →
  0 <= m < len l
  ∧ ∃ v, l !! Z.to_nat m = Some v ∧ Forall (fun u => (u <= v)%Q) l.
Proof.
  intros Hm. split; [by apply argmax_range|].
  destruct l as [|v0 l]; [done|]. simpl in Hm. injection Hm as <-.
  destruct (argmax_from_spec v0 0 1 l) as [[-> Hall]|(Hr & w & Hw & Hvw & Hall)].
  - exists v0. split; [done|]. constructor; [lra|done].
  - exists w.
    replace (Z.to_nat (argmax_from v0 0 1 l))
      with (S (Z.to_nat (argmax_from v0 0 1 l - 1))) by lia.
    split; [done|]. constructor; [lra|done].
Qed.

(** The event loop of [probs_to_events] over well-formed segments. *)
Lemma probs_loop_ok (prob : list Q) (pairs : list (Z * Z)) (acc : list Z) :
  Forall (fun se : Z * Z => 0 <= se.1 < se.2 ∧ se.2 <= len prob) pairs →
  ∃ events,
    foldR (fun (events : list Z) (se : Z * Z) =>
             if se.2 <=? se.1 then Ok events
             else k <- argmax (slice prob se.1 se.2);;
                  Ok (events ++ [se.1 + k])) acc pairs = Ok events
    ∧ ∀ x, x ∈ events ↔
           x ∈ acc ∨ ∃ se k, se ∈ pairs
                             ∧ argmax (slice prob se.1 se.2) = Ok k
                             ∧ x = se.1 + k.
Proof.
  intros Hp. revert acc. induction Hp as [|[s e] pairs [Hse He] Hp IH]; intros acc.
  { exists acc. split; [done|]. intros x. split; [by left|].
    intros [?|(se & k & Hin & _)]; [done|by apply elem_of_nil in Hin]. }
  simpl in *. destruct (Z.leb_spec e s) as [|_]; [lia|].
  destruct (argmax_ok (slice prob s e)) as [k Hk].
  { intros Hnil. apply (f_equal length) in Hnil. revert Hnil.
    unfold slice, len in *.
    rewrite length_take, length_drop, !slice_bound_nonneg by lia.
    cbn [length]. lia. }
  rewrite Hk. simpl. destruct (IH (acc ++ [s + k])) as (events & -> & Hel).
  exists events. split; [done|]. intros x. rewrite Hel, elem_of_app,
    list_elem_of_singleton. split.
  - intros [[?| ->]|(se & k' & Hin & Hk' & ->)]; [by left| |].
    + right. exists (s, e), k. split; [by left|done].
    + right. exists se, k'. split; [by right|done].
  - intros [?|(se & k' & Hin & Hk' & ->)]; [by left; left|].
    apply elem_of_cons in Hin as [->|Hin].
    + simpl in Hk'. rewrite Hk in Hk'. injection Hk' as <-. left. by right.
    + right. eauto.
Qed.

(** What a run of the padded mask says about the probabilities. *)
Lemma run_facts (prob : list Q) (thr : Q) (se : Z * Z) :
  is_run (false :: ((fun p => Qleb thr p) <$> prob) ++ [false]) se →
  0 <= se.1 < se.2 ∧ se.2 <= len prob
  ∧ (∀ j, se.1 <= j < se.2 →
       ∃ p, prob !! Z.to_nat j = Some p ∧ (thr <= p)%Q)
  ∧ (∀ p, 0 < se.1 → prob !! Z.to_nat (se.1 - 1) = Some p → (p < thr)%Q)
  ∧ (∀ p, prob !! Z.to_nat se.2 = Some p → (p < thr)%Q).
Proof.
  destruct se as [s e]. unfold is_run. simpl. intros (Hse & Hs & He & Hrun).
  set (mask := (fun p => Qleb thr p) <$> prob) in *.
  assert (Hmlen : length mask = length prob) by apply length_fmap.
  assert (HeT : e <= len prob).
  { apply lookup_lt_Some in He. simpl in He. rewrite length_app in He.
    simpl in He. unfold len. lia. }
  assert (Hmask : ∀ j b, 0 <= j < len prob →
            (mask ++ [false]) !! Z.to_nat j = Some b →
            ∃ p, prob !! Z.to_nat j = Some p ∧ Qleb thr p = b).
  { intros j b Hj. unfold len in Hj. rewrite lookup_app_l by lia.
    unfold mask. rewrite list_lookup_fmap.
    destruct (prob !! Z.to_nat j) as [p|]; [|done]. intros [= <-]. eauto. }
  split; [done|]. split; [done|]. split; [|split].
  - intros j Hj. specialize (Hrun j Hj). rewrite lookup_cons_succ in Hrun by lia.
    apply Hmask in Hrun as (p & Hp & Hle); [|lia].
    exists p. split; [done|]. by apply Qleb_le.
  - intros p Hs0 Hp. replace s with (s - 1 + 1) in Hs by lia.
    rewrite lookup_cons_succ in Hs by lia.
    apply Hmask in Hs as (p' & Hp' & Hle); [|lia].
    rewrite Hp in Hp'. injection Hp' as <-.
    unfold Qleb in Hle. apply Qltb_lt. unfold Qltb. by rewrite Hle.
  - intros p Hp. rewrite lookup_cons_succ in He by lia.
    pose proof (lookup_lt_Some _ _ _ Hp).
    apply Hmask in He as (p' & Hp' & Hle); [|unfold len; lia].
    rewrite Hp in Hp'. injection Hp' as <-.
    unfold Qleb in Hle. apply Qltb_lt. unfold Qltb. by rewrite Hle.
Qed.

(** X13: [probs_to_events] never raises and returns an event set over the
    frames of [prob].  Every returned event lies in a maximal run [s, e) of
    frames at or above [thr] and holds the maximum of that run; and every
    frame at or above [thr] lies in the run of a returned event. *)
Theorem probs_to_events_runs (prob : list Q) (thr : Q) :
  ∃ ev, probs_to_events prob thr = Ok ev
    ∧ event_set (len prob) ev
    ∧ (∀ x, x ∈ ev → ∃ s e px,
         0 <= s ∧ s <= x < e ∧ e <= len prob
         ∧ prob !! Z.to_nat x = Some px
         ∧ (∀ j, s <= j < e →
              ∃ p, prob !! Z.to_nat j = Some p ∧ (thr <= p)%Q ∧ (p <= px)%Q)
         ∧ (∀ p, 0 < s → prob !! Z.to_nat (s - 1) = Some p → (p < thr)%Q)
         ∧ (∀ p, prob !! Z.to_nat e = Some p → (p < thr)%Q))
    ∧ (∀ j p, prob !! j = Some p → (thr <= p)%Q →
         ∃ x s e, x ∈ ev ∧ s <= x < e ∧ s <= Z.of_nat j < e
           ∧ ∀ i, s <= i < e →
               ∃ q, prob !! Z.to_nat i = Some q ∧ (thr <= q)%Q).
Proof.
  unfold probs_to_events. destruct (Z.eqb_spec (len prob) 0) as [E|E].
  { destruct prob; [|done]. exists []. split; [done|].
    split; [apply event_set_nil|]. split.
    - intros x Hx. by apply elem_of_nil in Hx.
    - intros j p Hp. done. }
  set (mask := (fun p => Qleb thr p) <$> prob).
  change ([false] ++ mask ++ [false]) with (false :: (mask ++ [false])).
  pose proof (edges_runs (mask ++ [false]) false) as Hruns.
  cbv zeta in Hruns. simpl in Hruns.
  destruct Hruns as (Hlen & Hruns & Hcov).
  { rewrite app_comm_cons. apply last_snoc. }
  set (pairs := zip (edges 1 (false :: mask ++ [false]))
                    (edges (-1) (false :: mask ++ [false]))) in *.
  assert (Hfacts : ∀ se, se ∈ pairs →
            0 <= se.1 < se.2 ∧ se.2 <= len prob
            ∧ (∀ j, se.1 <= j < se.2 →
                 ∃ p, prob !! Z.to_nat j = Some p ∧ (thr <= p)%Q)
            ∧ (∀ p, 0 < se.1 → prob !! Z.to_nat (se.1 - 1) = Some p → (p < thr)%Q)
            ∧ (∀ p, prob !! Z.to_nat se.2 = Some p → (p < thr)%Q)).
  { intros se Hse. apply run_facts. rewrite Forall_forall in Hruns.
    by apply Hruns. }
  destruct (probs_loop_ok prob pairs []) as (events & -> & Hev).
  { apply Forall_forall. intros se Hse.
    destruct (Hfacts se Hse) as (H1 & H2 & _). done. }
  assert (Hpeak : ∀ se k, se ∈ pairs → argmax (slice prob se.1 se.2) = Ok k →
            se.1 <= se.1 + k < se.2
            ∧ ∃ px, prob !! Z.to_nat (se.1 + k) = Some px
                    ∧ ∀ j q, se.1 <= j < se.2 →
                        prob !! Z.to_nat j = Some q → (q <= px)%Q).
  { intros [s e] k Hse Hk. simpl in *.
    destruct (Hfacts _ Hse) as (Hs & He & _). simpl in *.
    apply argmax_spec in Hk as (Hkr & px & Hpx & Hmax).
    assert (Hlen_s : len (slice prob s e) = e - s).
    { unfold slice, len in *.
      rewrite length_take, length_drop, !slice_bound_nonneg by lia. lia. }
    split; [lia|]. exists px. split.
    - rewrite <- Hpx. rewrite lookup_slice_nonneg by lia. f_equal. lia.
    - intros j q Hj Hq. rewrite Forall_forall in Hmax. apply Hmax.
      apply list_elem_of_lookup. exists (Z.to_nat (j - s)).
      rewrite lookup_slice_nonneg by lia. rewrite <- Hq. f_equal. lia. }
  simpl. eexists. split; [done|].
  assert (Hin : ∀ x, x ∈ _as_int_sorted_unique events ↔
            ∃ se k, se ∈ pairs ∧ argmax (slice prob se.1 se.2) = Ok k
                    ∧ x = se.1 + k).
  { intros x. rewrite elem_of_as_int_sorted_unique, Hev. split.
    - intros [Hx|?]; [by apply elem_of_nil in Hx|done].
    - by right. }
  split; [|split].
  - apply as_int_sorted_unique_event_set. apply Forall_forall. intros x Hx.
    apply Hev in Hx as [Hx|(se & k & Hse & Hk & ->)]; [by apply elem_of_nil in Hx|].
    destruct (Hfacts se Hse) as (H1 & H2 & _).
    destruct (Hpeak se k Hse Hk) as (H3 & _). lia.
  - intros x Hx. apply Hin in Hx as (se & k & Hse & Hk & ->).
    destruct (Hfacts se Hse) as (H1 & H2 & Hthr & Hstart & Hend).
    destruct (Hpeak se k Hse Hk) as (H3 & px & Hpx & Hmax).
    exists se.1, se.2, px. split; [lia|]. split; [done|]. split; [done|].
    split; [done|]. split; [|done].
    intros j Hj. destruct (Hthr j Hj) as (p & Hp & Hle).
    exists p. split; [done|]. split; [done|]. by apply (Hmax j).
  - intros j p Hp Hle.
    destruct (Hcov (Z.of_nat j)) as (se & Hse & Hjr); [lia| |].
    { rewrite lookup_cons_succ by lia. rewrite Nat2Z.id.
      rewrite lookup_app_l by (unfold mask; rewrite length_fmap;
                               by eapply lookup_lt_Some).
      unfold mask. rewrite list_lookup_fmap, Hp. simpl. f_equal.
      by apply Qleb_le. }
    destruct (Hfacts se Hse) as (H1 & H2 & Hthr & _).
    destruct (argmax_ok (slice prob se.1 se.2)) as [k Hk].
    { intros Hnil. apply (f_equal length) in Hnil. revert Hnil.
      unfold slice, len in *.
      rewrite length_take, length_drop, !slice_bound_nonneg by lia.
      cbn [length]. lia. }
    destruct (Hpeak se k Hse Hk) as (H3 & _).
    exists (se.1 + k), se.1, se.2. split; [apply Hin; eauto|].
    split; [done|]. split; [done|]. exact Hthr.
Qed.

(** ** Hybrid events: [combine_rule_and_ml_events] *)

Lemma probs_to_events_ok (prob : list Q) (thr : Q) :
  ∃ ev, probs_to_events prob thr = Ok ev ∧ event_set (len prob) ev.
Proof.
  unfold probs_to_events. destruct (Z.eqb_spec (len prob) 0) as [E|E].
  { exists []. split; [done|apply event_set_nil]. }
  set (mask := (fun p => Qleb thr p) <$> prob).
  change ([false] ++ mask ++ [false]) with (false :: (mask ++ [false])).
  pose proof (edges_runs (mask ++ [false]) false) as Hruns.
  cbv zeta in Hruns. simpl in Hruns.
  destruct Hruns as (_ & Hruns & _).
  { rewrite app_comm_cons. apply last_snoc. }
  set (pairs := zip _ _) in *.
  assert (Hfacts : Forall (fun se : Z * Z => 0 <= se.1 < se.2 ∧ se.2 <= len prob)
                     pairs).
  { eapply Forall_impl; [exact Hruns|]. intros se Hse.
    apply run_facts in Hse as (H1 & H2 & _). done. }
  destruct (probs_loop_ok prob pairs [] Hfacts) as (events & -> & Hev).
  simpl. eexists. split; [done|].
  apply as_int_sorted_unique_event_set, Forall_forall. intros x Hx.
  apply Hev in Hx as [Hx|(se & k & Hse & Hk & ->)]; [by apply elem_of_nil in Hx|].
  rewrite Forall_forall in Hfacts. destruct (Hfacts se Hse) as [H1 H2].
  apply argmax_range in Hk.
  pose proof (len_slice_le prob se.1 se.2 ltac:(lia)). lia.
Qed.

(** The snapping loop on rule events that are frames of [prob]: every
    snapped event is a frame and within [snap_r] of a rule event. *)
Lemma snap_rule_loop_ok (prob : list Q) (snap_r : Z) (thr_ml : Q)
    (events acc : list Z) (P : Z → Prop) :
  0 <= snap_r →
  Forall (fun e => 0 <= e < len prob) events →
  (∀ b e, e ∈ events → 0 <= b < len prob → Z.abs (b - e) <= snap_r → P b) →
  Forall P acc →
  ∃ out, foldR (snap_rule_event prob snap_r thr_ml) acc events = Ok out
         ∧ Forall P out.
Proof.
  intros Hr Hev. revert acc.
  induction Hev as [|e events He Hev IH]; intros acc HP Hacc.
  { exists acc. done. }
  simpl. unfold snap_rule_event at 1.
  set (lo := Z.max 0 (e - snap_r)). set (hi := Z.min (len prob) (e + snap_r + 1)).
  assert (Hb : 0 <= lo ∧ lo <= e ∧ e < hi ∧ hi <= len prob
               ∧ e - snap_r <= lo ∧ hi <= e + snap_r + 1)
    by (unfold lo, hi; lia).
  clearbody lo hi.
  destruct (Z.leb_spec hi lo) as [|_]; [lia|].
  destruct (argmax_ok (slice prob lo hi)) as [k Hk].
  { intros Hnil. apply (f_equal length) in Hnil. revert Hnil.
    unfold slice, len in *.
    rewrite length_take, length_drop, !slice_bound_nonneg by lia.
    cbn [length]. lia. }
  rewrite Hk. simpl. apply argmax_range in Hk as Hkr.
  pose proof (len_slice_le prob lo hi ltac:(lia)) as Hsl.
  destruct (lookup_lt_is_Some_2 prob (Z.to_nat (lo + k))) as [pb Hpb];
    [unfold len in *; lia|].
  rewrite (getitem_lookup prob (lo + k) pb) by (done || lia). simpl.
  apply IH.
  - intros b e' He'. apply HP. by right.
  - apply Forall_app. split; [done|]. apply Forall_singleton.
    destruct (Qltb pb thr_ml).
    + apply (HP e e); [by left|lia|lia].
    + apply (HP (lo + k) e); [by left|lia|lia].
Qed.

Lemma StronglySorted_mono {A} (R1 R2 : relation A) (l : list A) :
  (∀ a b, R1 a b → R2 a b) → StronglySorted R1 l → StronglySorted R2 l.
Proof.
  intros HR. induction 1 as [|a l Hs IH Hall]; constructor; [done|].
  eapply Forall_impl; [exact Hall|]. apply HR.
Qed.

Lemma StronglySorted_lookup_lt {A} (R : relation A) (l : list A) (i j : nat)
    (x y : A) :
  StronglySorted R l → l !! i = Some x → l !! j = Some y → (i < j)%nat → R x y.
Proof.
  intros Hs. revert i j. induction Hs as [|a l Hs IH Hall]; intros i j Hi Hj Hij.
  { done. }
  destruct j as [|j]; [lia|]. destruct i as [|i]; simpl in *.
  - injection Hi as <-. rewrite Forall_forall in Hall. apply Hall.
    by eapply list_elem_of_lookup_2.
  - apply (IH i j); [done|done|lia].
Qed.

(** The merging loop on a strictly increasing list of frames: the kept
    events stay at least [min_sep] apart. *)
Lemma keep_separated_loop (prob : list Q) (min_sep : Z) (l kept : list Z) :
  1 <= min_sep →
  StronglySorted Z.lt l →
  Forall (fun e => 0 <= e < len prob) l →
  Forall (fun e => 0 <= e < len prob) kept →
  StronglySorted (fun a b => a + min_sep <= b) kept →
  (∀ x y, x ∈ kept → y ∈ l → x < y) →
  ∃ out, foldR (keep_separated prob min_sep) kept l = Ok out
         ∧ StronglySorted (fun a b => a + min_sep <= b) out
         ∧ (∀ x, x ∈ out → x ∈ kept ∨ x ∈ l).
Proof.
  intros Hmin Hs. revert kept.
  induction Hs as [|e l Hs IH Hall]; intros kept Hl Hk Hsep Hlt.
  { exists kept. split; [done|]. split; [done|]. by left. }
  apply Forall_cons in Hl as [He Hl]. rewrite Forall_forall in Hall.
  cbv beta in He. simpl. unfold keep_separated at 1.
  assert (Hstep : ∃ kept', match last kept with
            | None => Ok (kept ++ [e])
            | Some l0 =>
                if e - l0 <? min_sep then
                  pe <- getitem prob e;;
                  pl <- getitem prob l0;;
                  if Qltb pl pe then Ok (take (length kept - 1) kept ++ [e])
                  else Ok kept
                else Ok (kept ++ [e])
            end = Ok kept'
            ∧ Forall (fun e => 0 <= e < len prob) kept'
            ∧ StronglySorted (fun a b => a + min_sep <= b) kept'
            ∧ (∀ x, x ∈ kept' → x ∈ kept ∨ x = e)
            ∧ (∀ x y, x ∈ kept' → y ∈ l → x < y)).
  { destruct (last kept) as [l0|] eqn:Elast.
    - apply last_Some in Elast as [init ->].
      rewrite length_app, Nat.add_sub. cbn [length].
      rewrite take_app_length.
      pose proof Hsep as Hsep0.
      apply StronglySorted_app in Hsep as (Hil & Hinit & _).
      apply Forall_app in Hk as [Hki Hkl]. rewrite Forall_singleton in Hkl.
      assert (Hl0e : l0 < e) by (apply Hlt; [set_solver|by left]).
      assert (Hnew : StronglySorted (fun a b => a + min_sep <= b) (init ++ [e])).
      { apply StronglySorted_app_2; [|done|repeat constructor].
        intros x y Hx Hy. apply list_elem_of_singleton in Hy as ->.
        specialize (Hil x l0 Hx ltac:(by left)). simpl in Hil. lia. }
      destruct (Z.ltb_spec (e - l0) min_sep) as [Hclose|Hfar].
      + destruct (lookup_lt_is_Some_2 prob (Z.to_nat e)) as [pe Hpe];
          [unfold len in *; lia|].
        destruct (lookup_lt_is_Some_2 prob (Z.to_nat l0)) as [pl Hpl];
          [unfold len in *; lia|].
        rewrite (getitem_lookup prob e pe), (getitem_lookup prob l0 pl)
          by (done || lia).
        simpl. destruct (Qltb pl pe).
        * eexists. split; [done|]. split; [|split; [done|split]].
          -- apply Forall_app. split; [done|]. by apply Forall_singleton.
          -- intros x Hx. set_solver.
          -- intros x y Hx Hy. apply elem_of_app in Hx as [Hx|Hx].
             ++ apply Hlt; [set_solver|by right].
             ++ apply list_elem_of_singleton in Hx as ->. by apply Hall.
        * eexists. split; [done|]. split; [|split; [|split]].
          -- apply Forall_app. split; [done|]. by apply Forall_singleton.
          -- done.
          -- intros x Hx. by left.
          -- intros x y Hx Hy. apply Hlt; [done|by right].
      + eexists. split; [done|]. split; [|split; [|split]].
        * apply Forall_app. split; [|by apply Forall_singleton].
          apply Forall_app. split; [done|]. by apply Forall_singleton.
        * apply StronglySorted_app_2; [|done|repeat constructor].
          intros x y Hx Hy. apply list_elem_of_singleton in Hy as ->.
          apply elem_of_app in Hx as [Hx|Hx].
          -- specialize (Hil x l0 Hx ltac:(by left)). simpl in Hil. lia.
          -- apply list_elem_of_singleton in Hx as ->. lia.
        * intros x Hx. set_solver.
        * intros x y Hx Hy. apply elem_of_app in Hx as [Hx|Hx].
          -- apply Hlt; [done|by right].
          -- apply list_elem_of_singleton in Hx as ->. by apply Hall.
    - apply last_None in Elast as ->. eexists. split; [done|]. simpl.
      split; [by apply Forall_singleton|]. split; [repeat constructor|].
      split; [intros x Hx; set_solver|].
      intros x y Hx Hy. apply list_elem_of_singleton in Hx as ->. by apply Hall. }
  destruct Hstep as (kept' & -> & Hk' & Hsep' & Hsub & Hlt'). simpl.
  destruct (IH kept' Hl Hk' Hsep' Hlt') as (out & -> & Hout & Hin).
  exists out. split; [done|]. split; [done|].
  intros x Hx. apply Hin in Hx as [Hx|Hx]; [|right; by right].
  apply Hsub in Hx as [Hx| ->]; [by left|right; by left].
Qed.

(** X14: when every rule event is a frame of [prob],
    [combine_rule_and_ml_events] never raises; it returns an event set over
    the frames of [prob] whose events are pairwise at least
    [min_sep = max(1, round(min_sep_s * fps))] frames apart, and each of
    them is an event of [probs_to_events] or within
    [snap_r = max(0, round(snap_radius_s * fps))] frames of a rule
    event. *)
Theorem combine_events_separated (events_rule : list Z) (prob : list Q)
    (fps snap_radius_s thr_ml min_sep_s : Q) :
  Forall (fun e => 0 <= e < len prob) events_rule →
  ∃ out,
    combine_rule_and_ml_events events_rule prob fps snap_radius_s thr_ml min_sep_s
    = Ok out
    ∧ event_set (len prob) out
    ∧ (∀ i j, i ∈ out → j ∈ out → i ≠ j →
         Z.max 1 (round (min_sep_s * fps)%Q) <= Z.abs (i - j))
    ∧ (∀ x ml, x ∈ out → probs_to_events prob thr_ml = Ok ml →
         x ∈ ml ∨ ∃ e, e ∈ events_rule
                       ∧ Z.abs (x - e) <= Z.max 0 (round (snap_radius_s * fps)%Q)).
Proof.
  intros Hrule. unfold combine_rule_and_ml_events.
  destruct (Z.eqb_spec (len prob) 0) as [E|E].
  { exists []. split; [done|]. split; [apply event_set_nil|].
    split; intros; by match goal with H : _ ∈ [] |- _ => apply elem_of_nil in H end. }
  set (snap_r := Z.max 0 (round (snap_radius_s * fps)%Q)).
  set (min_sep := Z.max 1 (round (min_sep_s * fps)%Q)).
  set (rule := _as_int_sorted_unique events_rule).
  assert (Hrule' : Forall (fun e => 0 <= e < len prob) rule).
  { apply Forall_forall. intros e He. unfold rule in He.
    rewrite elem_of_as_int_sorted_unique in He.
    rewrite Forall_forall in Hrule. by apply Hrule. }
  destruct (snap_rule_loop_ok prob snap_r thr_ml rule []
              (fun b => 0 <= b < len prob
                        ∧ ∃ e, e ∈ events_rule ∧ Z.abs (b - e) <= snap_r))
    as (snapped & -> & Hsn); [unfold snap_r; lia|done| |constructor|].
  { intros b e He Hb Hnear. split; [done|]. exists e. split; [|done].
    unfold rule in He. by rewrite elem_of_as_int_sorted_unique in He. }
  simpl. destruct (probs_to_events_ok prob thr_ml) as (ml & -> & Hml_s & Hml_r).
  simpl. set (all_e := _as_int_sorted_unique (_ ++ ml)).
  assert (Hall : ∀ x, x ∈ all_e ↔ x ∈ snapped ∨ x ∈ ml).
  { intros x. unfold all_e.
    by rewrite elem_of_as_int_sorted_unique, elem_of_app,
      elem_of_as_int_sorted_unique. }
  rewrite Forall_forall in Hsn, Hml_r.
  destruct (keep_separated_loop prob min_sep all_e [])
    as (kept & -> & Hsep & Hsub); [unfold min_sep; lia| | |constructor|constructor| |].
  { apply as_int_sorted_unique_strict. }
  { apply Forall_forall. intros x Hx. apply Hall in Hx as [Hx|Hx].
    - by apply Hsn in Hx as [? _].
    - by apply Hml_r. }
  { intros x y Hx. by apply elem_of_nil in Hx. }
  simpl. eexists. split; [done|].
  assert (Hlt : StronglySorted Z.lt kept).
  { eapply StronglySorted_mono; [|exact Hsep].
    intros a b Hab. unfold min_sep in Hab. lia. }
  rewrite (as_int_sorted_unique_id kept Hlt).
  assert (Hkin : ∀ x, x ∈ kept → x ∈ snapped ∨ x ∈ ml).
  { intros x Hx. apply Hsub in Hx as [Hx|Hx]; [by apply elem_of_nil in Hx|].
    by apply Hall. }
  split; [|split].
  - split; [done|]. apply Forall_forall. intros x Hx.
    apply Hkin in Hx as [Hx|Hx]; [by apply Hsn in Hx as [? _]|by apply Hml_r].
  - intros i j Hi Hj Hne.
    apply list_elem_of_lookup in Hi as [ni Hni].
    apply list_elem_of_lookup in Hj as [nj Hnj].
    destruct (Nat.lt_trichotomy ni nj) as [Hlt'|[->|Hlt']].
    + pose proof (StronglySorted_lookup_lt _ _ _ _ _ _ Hsep Hni Hnj Hlt'). simpl in *. lia.
    + congruence.
    + pose proof (StronglySorted_lookup_lt _ _ _ _ _ _ Hsep Hnj Hni Hlt'). simpl in *. lia.
  - intros x ml' Hx [= <-]. apply Hkin in Hx as [Hx|Hx]; [right|by left].
    by apply Hsn in Hx as [_ ?].
Qed.

Lemma combine_events_separated_witness :
  ∃ out,
    combine_rule_and_ml_events [1] [0; 1; 0]%Q 30 (3 # 25) (1 # 2) (2 # 25)
    = Ok out
    ∧ event_set 3 out.
Proof.
  destruct (combine_events_separated [1] [0; 1; 0]%Q 30 (3 # 25) (1 # 2) (2 # 25))
    as (out & Hout & Hset & _).
  - repeat constructor; unfold len; simpl; lia.
  - exists out. split; [exact Hout|exact Hset].
Defined.

(** ** [_dedup_events_by_time] *)

Lemma dedup_loop (m : Z) (l init : list Z) (last : Z) :
  1 <= m →
  StronglySorted Z.le (last :: l) →
  StronglySorted (fun a b => a + m <= b) (init ++ [last]) →
  ∃ sub, sublist sub l
    ∧ (foldl (dedup_step m) (init ++ [last], last) l).1 = (init ++ [last]) ++ sub
    ∧ StronglySorted (fun a b => a + m <= b) ((init ++ [last]) ++ sub)
    ∧ ∀ e, e ∈ l → ∃ k, k ∈ (init ++ [last]) ++ sub ∧ k <= e < k + m.
Proof.
  intros Hm. revert init last.
  induction l as [|e l IH]; intros init last Hle Hsep.
  { exists []. rewrite app_nil_r. split; [done|]. split; [done|].
    split; [done|]. intros e He. by apply elem_of_nil in He. }
  apply StronglySorted_cons in Hle as [Hall Hle].
  apply Forall_cons in Hall as [Hlast_e Hall].
  apply StronglySorted_cons in Hle as [Hall_e Hle].
  simpl. unfold dedup_step at 2. simpl.
  destruct (Z.leb_spec m (e - last)) as [Hfar|Hclose].
  - destruct (IH (init ++ [last]) e) as (sub & Hsub & Heq & Hs & Hcov).
    { by constructor. }
    { apply StronglySorted_app_2; [|done|repeat constructor].
      intros x y Hx Hy. apply list_elem_of_singleton in Hy as ->.
      apply elem_of_app in Hx as [Hx|Hx].
      - apply StronglySorted_app in Hsep as (Hil & _ & _).
        specialize (Hil x last Hx ltac:(by left)). simpl in Hil. lia.
      - apply list_elem_of_singleton in Hx as ->. lia. }
    exists (e :: sub). split; [by constructor|].
    rewrite Heq, <- (assoc_L (++)). simpl.
    split; [done|]. rewrite <- (assoc_L (++)) in Hs, Hcov. simpl in Hs, Hcov.
    split; [done|].
    intros x Hx. apply elem_of_cons in Hx as [->|Hx]; [|by apply Hcov].
    exists e. split; [set_solver|lia].
  - destruct (IH init last) as (sub & Hsub & Heq & Hs & Hcov).
    { by constructor. }
    { done. }
    exists sub. split; [by apply sublist_cons|]. split; [done|]. split; [done|].
    intros x Hx. apply elem_of_cons in Hx as [->|Hx]; [|by apply Hcov].
    exists last. split; [set_solver|lia].
Qed.

(** X15: on a non-empty event list with positive [min_sep_s] and [fps],
    [_dedup_events_by_time] returns a sub-list of the sorted events.  With
    [m = round(min_sep_s * fps) <= 1] this is the whole sorted list,
    repeated entries included.  With [m >= 2] the kept events are pairwise
    at least [m] frames apart, start with the earliest event, and every
    given event is less than [m] frames after a kept one. *)
Theorem dedup_events_separated (events : list Z) (fps min_sep_s : Q) :
  events ≠ [] → (0 < min_sep_s)%Q → (0 < fps)%Q →
  let m := round (min_sep_s * fps)%Q in
  ∃ kept, _dedup_events_by_time (Some events) fps min_sep_s = Some kept
    ∧ sublist kept (sorted events)
    ∧ (m <= 1 → kept = sorted events)
    ∧ (2 <= m →
       StronglySorted (fun a b => a + m <= b) kept
       ∧ head kept = head (sorted events)
       ∧ ∀ e, e ∈ events → ∃ k, k ∈ kept ∧ k <= e < k + m).
Proof.
  intros Hne Hsep Hfps m. unfold _dedup_events_by_time.
  destruct (Z.eqb_spec (len events) 0) as [E|_]; [by destruct events|].
  assert (Qleb min_sep_s 0 = false) as ->.
  { destruct (Qleb min_sep_s 0) eqn:E; [|done]. apply Qleb_le in E. lra. }
  assert (Qleb fps 0 = false) as ->.
  { destruct (Qleb fps 0) eqn:E; [|done]. apply Qleb_le in E. lra. }
  simpl. fold m.
  destruct (Z.leb_spec m 1) as [Hm|Hm].
  { exists (sorted events). split; [done|]. split; [done|]. split; [done|lia]. }
  assert (Hs : StronglySorted Z.le (sorted events)).
  { apply StronglySorted_merge_sort; apply _. }
  assert (Hel := elem_of_sorted events).
  destruct (sorted events) as [|e0 rest] eqn:Es.
  { destruct events as [|e ?]; [done|].
    specialize (proj2 (Hel e) ltac:(by left)) as He. by apply elem_of_nil in He. }
  simpl. destruct (dedup_loop m rest [] e0 ltac:(lia) Hs ltac:(repeat constructor))
    as (sub & Hsub & Heq & Hsorted & Hcov).
  change ([] ++ [e0]) with [e0] in *. rewrite drop_0, Heq.
  eexists. split; [done|]. split; [by constructor|].
  split; [lia|]. intros _. split; [done|]. split; [done|].
  intros e He. apply Hel in He. apply elem_of_cons in He as [->|He].
  - exists e0. split; [by left|lia].
  - by apply Hcov.
Qed.

Lemma dedup_events_separated_witness :
  ∃ kept, _dedup_events_by_time (Some [0; 1; 5]) 1 2 = Some kept
    ∧ sublist kept (sorted [0; 1; 5]).
Proof.
  destruct (dedup_events_separated [0; 1; 5] 1 2) as (kept & Hk & Hsub & _).
  - discriminate.
  - reflexivity.
  - reflexivity.
  - exists kept. split; [exact Hk|exact Hsub].
Defined.

(** ** Label segments: [frames_to_segments] *)

Lemma edges_nonneg (v : Z) (p : list bool) (i : Z) : i ∈ edges v p → 0 <= i.
Proof. unfold edges. rewrite elem_of_np_where. tauto. Qed.

Lemma elem_of_zip_l_Z (S E : list Z) (se : Z * Z) : se ∈ zip S E → se.1 ∈ S.
Proof.
  intros Hse. apply list_elem_of_lookup in Hse as [i Hi].
  apply lookup_zip_with_Some in Hi as (s & e & -> & Hs & _).
  simpl. by eapply list_elem_of_lookup_2.
Qed.

(** The runs delimited by the edges come in increasing order and do not
    touch. *)
Lemma edges_ordered (r : list bool) (a : bool) :
  last (a :: r) = Some false →
  let S := edges 1 (a :: r) in
  let E := edges (-1) (a :: r) in
  if a then
    ∃ e0 E', E = e0 :: E'
      ∧ Forall (fun se : Z * Z => e0 < se.1) (zip S E')
      ∧ StronglySorted (fun x y : Z * Z => x.2 < y.1) (zip S E')
  else StronglySorted (fun x y : Z * Z => x.2 < y.1) (zip S E).
Proof.
  revert a. induction r as [|b r IH]; intros a Hlast.
  { injection Hlast as ->. simpl. constructor. }
  rewrite last_cons_cons in Hlast. specialize (IH b Hlast).
  cbv zeta in IH |- *.
  destruct (edges_cons_cases a b r) as [-> ->].
  assert (Hnn : ∀ i, i ∈ edges 1 (b :: r) → 0 <= i) by apply edges_nonneg.
  set (S' := edges 1 (b :: r)) in *. set (E' := edges (-1) (b :: r)) in *.
  assert (Hshift : ∀ E0, StronglySorted (fun x y : Z * Z => x.2 < y.1) (zip S' E0) →
            StronglySorted (fun x y : Z * Z => x.2 < y.1)
              (zip (Z.succ <$> S') (Z.succ <$> E0))).
  { intros E0 Hs. rewrite zip_fmap_succ.
    eapply StronglySorted_fmap; [|exact Hs]. simpl. intros x y. lia. }
  assert (Hshift2 : ∀ e0 E0, Forall (fun se : Z * Z => e0 < se.1) (zip S' E0) →
            Forall (fun se : Z * Z => Z.succ e0 < se.1)
              (zip (Z.succ <$> S') (Z.succ <$> E0))).
  { intros e0 E0 HF. rewrite zip_fmap_succ. apply Forall_fmap.
    eapply Forall_impl; [exact HF|]. simpl. intros x. lia. }
  destruct a, b; cbn [negb andb app] in *.
  - destruct IH as (e0 & E'' & -> & Hlt & Hs).
    exists (Z.succ e0), (Z.succ <$> E''). split; [done|]. split; [by apply Hshift2|].
    by apply Hshift.
  - exists 0, (Z.succ <$> E'). split; [done|]. split; [|by apply Hshift].
    rewrite zip_fmap_succ. apply Forall_fmap, Forall_forall. intros se Hse.
    apply elem_of_zip_l_Z, Hnn in Hse. simpl. lia.
  - destruct IH as (e0 & E'' & -> & Hlt & Hs).
    cbn [fmap list_fmap zip zip_with]. constructor; [by apply Hshift|].
    by apply Hshift2.
  - by apply Hshift.
Qed.

Lemma binary_as_mask (y : list Z) :
  Forall (fun v => v = 0 ∨ v = 1) y →
  y = bool_to_int <$> ((fun v => v =? 1) <$> y).
Proof.
  induction 1 as [|v y Hv Hy IH]; [done|]. csimpl. rewrite <- IH.
  by destruct Hv as [-> | ->].
Qed.

(** X16: on a 0/1 label sequence, [frames_to_segments] returns exactly the
    maximal runs of ones, in increasing order and without touching: every
    segment [(s, e)] satisfies [0 <= s < e <= T], all labels in [s, e) are
    1, the labels just before [s] and at [e] are 0 when they exist, each
    segment ends before the next one starts, and every label 1 lies in a
    segment. *)
Theorem frames_to_segments_runs (y : list Z) :
  Forall (fun v => v = 0 ∨ v = 1) y →
  let segs := frames_to_segments y in
  (∀ se, se ∈ segs →
     0 <= se.1 < se.2 ∧ se.2 <= len y
     ∧ (∀ j, se.1 <= j < se.2 → y !! Z.to_nat j = Some 1)
     ∧ (0 < se.1 → y !! Z.to_nat (se.1 - 1) = Some 0)
     ∧ (se.2 < len y → y !! Z.to_nat se.2 = Some 0))
  ∧ StronglySorted (fun x y : Z * Z => x.2 < y.1) segs
  ∧ (∀ j, y !! j = Some 1 → ∃ se, se ∈ segs ∧ se.1 <= Z.of_nat j < se.2).
Proof.
  intros Hbin. unfold frames_to_segments.
  destruct (Z.eqb_spec (len y) 0) as [E|E].
  { destruct y; [|done]. simpl. split; [|split; [constructor|]].
    - intros se Hse. by apply elem_of_nil in Hse.
    - intros j Hj. done. }
  set (mask := (fun v => v =? 1) <$> y).
  assert (Hpad : [0] ++ y ++ [0] = bool_to_int <$> (false :: mask ++ [false])).
  { rewrite fmap_cons, fmap_app. unfold mask.
    by rewrite <- (binary_as_mask y Hbin). }
  rewrite Hpad. fold (edges 1 (false :: mask ++ [false])).
  fold (edges (-1) (false :: mask ++ [false])).
  assert (Hlast : last (false :: mask ++ [false]) = Some false).
  { rewrite app_comm_cons. apply last_snoc. }
  pose proof (edges_runs (mask ++ [false]) false Hlast) as Hruns.
  pose proof (edges_ordered (mask ++ [false]) false Hlast) as Hord.
  cbv zeta in Hruns, Hord. simpl in Hruns, Hord.
  destruct Hruns as (_ & Hruns & Hcov).
  set (pairs := zip _ _) in *.
  assert (Hmlen : length mask = length y) by apply length_fmap.
  assert (Hmask : ∀ j b, 0 <= j < len y →
            (mask ++ [false]) !! Z.to_nat j = Some b →
            y !! Z.to_nat j = Some (bool_to_int b)).
  { intros j b Hj. unfold len in Hj. rewrite lookup_app_l by lia.
    unfold mask. rewrite list_lookup_fmap.
    destruct (y !! Z.to_nat j) as [v|] eqn:Ev; [|done]. intros [= <-].
    f_equal. rewrite Forall_forall in Hbin.
    destruct (Hbin v) as [-> | ->]; [by eapply list_elem_of_lookup_2|done|done]. }
  split; [|split; [done|]].
  - intros [s e] Hse. rewrite Forall_forall in Hruns.
    destruct (Hruns _ Hse) as (Hrange & Hs & He & Hrun). simpl in *.
    assert (HeT : e <= len y).
    { apply lookup_lt_Some in He. simpl in He. rewrite length_app in He.
      simpl in He. unfold len. lia. }
    split; [done|]. split; [done|]. split; [|split].
    + intros j Hj. specialize (Hrun j Hj).
      rewrite lookup_cons_succ in Hrun by lia.
      by apply Hmask in Hrun; [|lia].
    + intros Hs0. replace s with (s - 1 + 1) in Hs by lia.
      rewrite lookup_cons_succ in Hs by lia. by apply Hmask in Hs; [|lia].
    + intros HeT'. rewrite lookup_cons_succ in He by lia.
      by apply Hmask in He; [|lia].
  - intros j Hj. apply (Hcov (Z.of_nat j)); [lia|].
    rewrite lookup_cons_succ by lia. rewrite Nat2Z.id.
    rewrite lookup_app_l by (rewrite Hmlen; by eapply lookup_lt_Some).
    unfold mask. by rewrite list_lookup_fmap, Hj.
Qed.

Lemma frames_to_segments_runs_witness :
  StronglySorted (fun x y : Z * Z => x.2 < y.1) (frames_to_segments [0; 1; 1; 0; 1]).
Proof.
  apply (frames_to_segments_runs [0; 1; 1; 0; 1]).
  repeat constructor; lia.
Defined.

(** ** Event-level metrics *)

Lemma lookup_mark_true (l : list bool) (i j : nat) :
  <[i:=true]> l !! j = Some true ↔
  l !! j = Some true ∨ (j = i ∧ (i < length l)%nat).
Proof.
  rewrite list_lookup_insert_Some. split.
  - intros [(-> & _ & Hlt)|[_ Hl]]; [right; done|by left].
  - intros [Hl|[-> Hlt]].
    + destruct (decide (i = j)) as [->|Hne]; [|by right].
      left. split; [done|]. split; [done|]. by eapply lookup_lt_Some.
    + by left.
Qed.

(** The inner loop of [event_level_metrics] for one predicted segment. *)
Lemma mark_inner (pseg : Z * Z) (i : nat) (T : list (Z * Z)) (k : nat)
    (st : list bool * list bool) :
  let st' := foldl (fun (st : list bool * list bool) (jt : nat * (Z * Z)) =>
                      if segments_overlap pseg jt.2
                      then (<[i := true]> st.1, <[jt.1 := true]> st.2)
                      else st)
                   st (imap (fun j t => ((k + j)%nat, t)) T) in
  length st'.1 = length st.1 ∧ length st'.2 = length st.2
  ∧ (∀ i', st'.1 !! i' = Some true ↔
       st.1 !! i' = Some true
       ∨ (i' = i ∧ (i < length st.1)%nat
          ∧ ∃ t, t ∈ T ∧ segments_overlap pseg t = true))
  ∧ (∀ j, st'.2 !! j = Some true ↔
       st.2 !! j = Some true
       ∨ ((j < length st.2)%nat ∧ (k ≤ j)%nat
          ∧ ∃ t, T !! (j - k)%nat = Some t ∧ segments_overlap pseg t = true)).
Proof.
  revert k st. induction T as [|t T IH]; intros k st.
  { simpl. split; [done|]. split; [done|]. split.
    - intros i'. split; [by left|]. intros [?|(_ & _ & t & Ht & _)]; [done|].
      by apply elem_of_nil in Ht.
    - intros j. split; [by left|]. intros [?|(_ & _ & t & Ht & _)]; done. }
  rewrite imap_cons. cbn [foldl fst snd].
  rewrite (imap_ext _ (fun j t => ((S k + j)%nat, t)) T)
    by (intros; simpl; f_equal; lia).
  set (st1 := if segments_overlap pseg t
              then (<[i := true]> st.1, <[(k + 0)%nat := true]> st.2) else st).
  destruct (IH (S k) st1) as (Hl1 & Hl2 & H1 & H2). cbv zeta.
  assert (Hst1 : length st1.1 = length st.1 ∧ length st1.2 = length st.2
    ∧ (∀ i', st1.1 !! i' = Some true ↔
         st.1 !! i' = Some true
         ∨ (i' = i ∧ (i < length st.1)%nat ∧ segments_overlap pseg t = true))
    ∧ (∀ j, st1.2 !! j = Some true ↔
         st.2 !! j = Some true
         ∨ (j = k ∧ (k < length st.2)%nat ∧ segments_overlap pseg t = true))).
  { unfold st1. simpl. rewrite Nat.add_0_r.
    destruct (segments_overlap pseg t); simpl.
    - rewrite !length_insert. split; [done|]. split; [done|].
      split; intros ?; rewrite lookup_mark_true; naive_solver.
    - split; [done|]. split; [done|]. split; intros ?; naive_solver. }
  destruct Hst1 as (Hl1' & Hl2' & H1' & H2').
  split; [congruence|]. split; [congruence|]. split.
  - intros i'. rewrite H1, H1', Hl1'. split.
    + intros [[?|(-> & ? & ?)]|(-> & ? & t' & ? & ?)]; [by left| |].
      * right. split; [done|]. split; [done|]. exists t. split; [by left|done].
      * right. split; [done|]. split; [done|]. exists t'. split; [by right|done].
    + intros [?|(-> & ? & t' & Ht' & ?)]; [by left; left|].
      apply elem_of_cons in Ht' as [->|Ht'].
      * left. right. done.
      * right. split; [done|]. split; [done|]. eauto.
  - intros j. rewrite H2, H2', Hl2'. split.
    + intros [[?|(-> & ? & ?)]|(? & ? & t' & Ht' & ?)]; [by left| |].
      * right. split; [done|]. split; [done|]. exists t.
        rewrite Nat.sub_diag. done.
      * right. split; [done|]. split; [lia|]. exists t'. split; [|done].
        replace (j - k)%nat with (S (j - S k)) by lia. done.
    + intros [?|(? & ? & t' & Ht' & ?)]; [by left; left|].
      destruct (decide (j = k)) as [->|Hne].
      * rewrite Nat.sub_diag in Ht'. injection Ht' as ->. left. right. done.
      * right. split; [done|]. split; [lia|]. exists t'. split; [|done].
        replace (j - k)%nat with (S (j - S k)) in Ht' by lia. done.
Qed.

(** The double loop: a predicted segment is marked when it overlaps some
    true segment, a true segment when some predicted segment overlaps
    it. *)
Lemma mark_outer (P T : list (Z * Z)) (k : nat) (st : list bool * list bool) :
  let st' :=
    foldl (fun st (ip : nat * (Z * Z)) =>
             foldl (fun (st : list bool * list bool) (jt : nat * (Z * Z)) =>
                      if segments_overlap ip.2 jt.2
                      then (<[ip.1 := true]> st.1, <[jt.1 := true]> st.2)
                      else st)
                   st (imap pair T))
          st (imap (fun i p => ((k + i)%nat, p)) P) in
  length st'.1 = length st.1 ∧ length st'.2 = length st.2
  ∧ (∀ i, st'.1 !! i = Some true ↔
       st.1 !! i = Some true
       ∨ ((i < length st.1)%nat ∧ (k ≤ i)%nat
          ∧ ∃ p, P !! (i - k)%nat = Some p
                 ∧ ∃ t, t ∈ T ∧ segments_overlap p t = true))
  ∧ (∀ j, st'.2 !! j = Some true ↔
       st.2 !! j = Some true
       ∨ ((j < length st.2)%nat
          ∧ ∃ t, T !! j = Some t
                 ∧ ∃ p, p ∈ P ∧ segments_overlap p t = true)).
Proof.
  revert k st. induction P as [|p P IH]; intros k st.
  { simpl. split; [done|]. split; [done|]. split.
    - intros i. split; [by left|]. intros [?|(_ & _ & p & Hp & _)]; done.
    - intros j. split; [by left|].
      intros [?|(_ & t & _ & p & Hp & _)]; [done|by apply elem_of_nil in Hp]. }
  rewrite imap_cons. cbn [foldl].
  rewrite (imap_ext _ (fun i p => ((S k + i)%nat, p)) P)
    by (intros; simpl; f_equal; lia).
  pose proof (mark_inner p (k + 0) T 0 st) as Hin. cbv zeta in Hin.
  change (imap (fun j t => ((0 + j)%nat, t)) T) with (imap pair T) in Hin.
  cbn [fst snd] in *.
  set (st1 := foldl _ st (imap pair T)) in *.
  destruct Hin as (Hl1' & Hl2' & H1' & H2').
  destruct (IH (S k) st1) as (Hl1 & Hl2 & H1 & H2). cbv zeta.
  rewrite Nat.add_0_r in H1'.
  split; [congruence|]. split; [congruence|]. split.
  - intros i. rewrite H1, H1', Hl1'. split.
    + intros [[?|(-> & ? & t & ? & ?)]|(? & ? & p' & Hp' & t & ? & ?)]; [by left| |].
      * right. split; [done|]. split; [done|]. exists p.
        rewrite Nat.sub_diag. split; [done|]. eauto.
      * right. split; [done|]. split; [lia|]. exists p'. split; [|eauto].
        replace (i - k)%nat with (S (i - S k)) by lia. done.
    + intros [?|(? & ? & p' & Hp' & t & ? & ?)]; [by left; left|].
      destruct (decide (i = k)) as [->|Hne].
      * rewrite Nat.sub_diag in Hp'. injection Hp' as ->. left. right.
        split; [done|]. split; [done|]. eauto.
      * right. split; [done|]. split; [lia|]. exists p'. split; [|eauto].
        replace (i - k)%nat with (S (i - S k)) in Hp' by lia. done.
  - intros j. rewrite H2, H2', Hl2'. split.
    + intros [[?|(? & _ & t & Ht & ?)]|(? & t & ? & p' & ? & ?)]; [by left| |].
      * rewrite Nat.sub_0_r in Ht. right. split; [done|]. exists t.
        split; [done|]. exists p. split; [by left|done].
      * right. split; [done|]. exists t. split; [done|]. exists p'.
        split; [by right|done].
    + intros [?|(? & t & Ht & p' & Hp' & ?)]; [by left; left|].
      apply elem_of_cons in Hp' as [->|Hp'].
      * left. right. split; [done|]. split; [lia|]. exists t.
        rewrite Nat.sub_0_r. done.
      * right. split; [done|]. exists t. split; [done|]. eauto.
Qed.

Lemma count_true_bounds (a : list bool) : 0 <= count_true a <= len a.
Proof.
  unfold count_true, len.
  pose proof (length_filter (fun b => b = true) a). lia.
Qed.

Lemma ratio_unit (a n : Z) :
  0 <= a <= n → 0 < n → (0 <= inject_Z a / inject_Z n <= 1)%Q.
Proof.
  intros Ha Hn.
  assert (HN : (0 < inject_Z n)%Q).
  { change 0%Q with (inject_Z 0). rewrite <- Zlt_Qlt. lia. }
  split.
  - apply Qle_shift_div_l; [done|]. rewrite Qmult_0_l.
    change 0%Q with (inject_Z 0). rewrite <- Zle_Qle. lia.
  - apply Qle_shift_div_r; [done|]. rewrite Qmult_1_l. rewrite <- Zle_Qle. lia.
Qed.

Lemma f1_unit (p r : Q) :
  (0 <= p <= 1)%Q → (0 <= r <= 1)%Q → (0 < p + r)%Q →
  (0 <= 2 * p * r / (p + r) <= 1)%Q.
Proof.
  intros Hp Hr Hpr. split.
  - apply Qle_shift_div_l; [done|]. nra.
  - apply Qle_shift_div_r; [done|]. nra.
Qed.

(** X17: [event_level_metrics] fails its assertion when the two arrays
    differ in length.  Otherwise it returns precision, recall and F1 in
    [0, 1] together with the numbers of true and predicted segments; and
    when both kinds of segments exist, precision is the fraction of
    predicted segments that overlap a true segment and recall the fraction
    of true segments overlapped by a predicted one. *)
Theorem event_level_metrics_spec (prob : list Q) (y_true : list Z) (thr : Q) :
  let T := frames_to_segments y_true in
  let P := frames_to_segments ((fun p => bool_to_int (Qleb thr p)) <$> prob) in
  (len prob ≠ len y_true →
   event_level_metrics prob y_true thr = Raise AssertionError)
  ∧ (len prob = len y_true →
     ∃ p r f1,
       event_level_metrics prob y_true thr = Ok (p, r, f1, len T, len P)
       ∧ (0 <= p <= 1)%Q ∧ (0 <= r <= 1)%Q ∧ (0 <= f1 <= 1)%Q
       ∧ (P ≠ [] → T ≠ [] →
          ∃ mp mt,
            length mp = length P ∧ length mt = length T
            ∧ (∀ i, mp !! i = Some true ↔
                 ∃ ps, P !! i = Some ps
                       ∧ ∃ t, t ∈ T ∧ segments_overlap ps t = true)
            ∧ (∀ j, mt !! j = Some true ↔
                 ∃ t, T !! j = Some t
                      ∧ ∃ ps, ps ∈ P ∧ segments_overlap ps t = true)
            ∧ p = (inject_Z (count_true mp) / inject_Z (len P))%Q
            ∧ r = (inject_Z (count_true mt) / inject_Z (len T))%Q)).
Proof.
  intros T P. unfold event_level_metrics. fold T. fold P. split.
  { intros Hne. by destruct (Z.eqb_spec (len prob) (len y_true)). }
  intros Heq. destruct (Z.eqb_spec (len prob) (len y_true)); [|done]. simpl.
  destruct (Z.eqb_spec (len T) 0) as [ET|ET];
    destruct (Z.eqb_spec (len P) 0) as [EP|EP]; simpl.
  - exists 1%Q, 1%Q, 1%Q. split; [done|]. repeat split; try lra.
    intros HP. by destruct P.
  - exists 0%Q, 1%Q, 0%Q. split; [done|]. repeat split; try lra.
    intros _ HT. by destruct T.
  - exists 0%Q, 0%Q, 0%Q. split; [done|]. repeat split; try lra.
    intros HP. by destruct P.
  - unfold mark_matches.
    pose proof (mark_outer P T 0
                  (replicate (Z.to_nat (len P)) false,
                   replicate (Z.to_nat (len T)) false)) as Hm.
    cbv zeta in Hm.
    change (imap (fun i p => ((0 + i)%nat, p)) P) with (imap pair P) in Hm.
    set (st := foldl _ _ (imap pair P)) in *.
    destruct Hm as (Hl1 & Hl2 & H1 & H2). simpl in Hl1, Hl2, H1, H2.
    rewrite length_replicate in Hl1, Hl2. unfold len in Hl1, Hl2.
    rewrite Nat2Z.id in Hl1, Hl2.
    pose proof (count_true_bounds st.1) as Hc1.
    pose proof (count_true_bounds st.2) as Hc2.
    unfold len in *. rewrite Hl1 in Hc1. rewrite Hl2 in Hc2.
    pose proof (ratio_unit (count_true st.1) (Z.of_nat (length P))
                  Hc1 ltac:(lia)) as Hp.
    pose proof (ratio_unit (count_true st.2) (Z.of_nat (length T))
                  Hc2 ltac:(lia)) as Hr.
    set (p := (inject_Z (count_true st.1) / inject_Z (Z.of_nat (length P)))%Q) in *.
    set (r := (inject_Z (count_true st.2) / inject_Z (Z.of_nat (length T)))%Q) in *.
    eexists p, r, _. split; [done|]. split; [done|]. split; [done|]. split.
    { destruct (Qltb 0 (p + r)) eqn:E; [|lra].
      apply Qltb_lt in E. by apply f1_unit. }
    intros _ _. exists st.1, st.2. split; [done|]. split; [done|].
    split; [|split; [|done]].
    + intros i. rewrite H1. split.
      * intros [Hf|(_ & _ & ps & Hps & Ht)].
        { apply lookup_replicate in Hf as [? _]. done. }
        rewrite Nat.sub_0_r in Hps. eauto.
      * intros (ps & Hps & Ht). right. rewrite length_replicate, Nat2Z.id.
        split; [by eapply lookup_lt_Some|]. split; [lia|].
        rewrite Nat.sub_0_r. eauto.
    + intros j. rewrite H2. split.
      * intros [Hf|(_ & t & Ht & Hps)].
        { apply lookup_replicate in Hf as [? _]. done. }
        eauto.
      * intros (t & Ht & Hps). right. rewrite length_replicate, Nat2Z.id.
        split; [by eapply lookup_lt_Some|]. eauto.
Qed.

(** ** The arrays returned by the extractors *)

Lemma Qmax2_unit (a b : Q) :
  (0 <= a <= 1)%Q → (0 <= b <= 1)%Q → (0 <= Qmax2 a b <= 1)%Q.
Proof. intros Ha Hb. unfold Qmax2. by destruct (Qltb a b). Qed.

Lemma unit_array_foot (T : nat) (l r : list Q) :
  unit_array T l → unit_array T r → unit_array T (zip_with Qmax2 l r).
Proof.
  intros [Hl1 Hl2] [Hr1 Hr2]. split; [rewrite length_zip_with; lia|].
  clear Hl1 Hr1. revert r Hr2.
  induction Hl2 as [|a l Ha Hl IH]; intros r Hr; [constructor|].
  destruct Hr as [|b r Hb Hr]; simpl; [constructor|].
  constructor; [by apply Qmax2_unit|by apply IH].
Qed.

(** The lengths, together with the value ranges of the exact arithmetic of
    the model: the fused score and the cue arrays lie in [0, 1].  The
    ranges rest on exact arithmetic and on the model's [median] of no
    values being 0; in float64, NaN can take their place (no selected
    joint, overflow).  The lengths do not depend on either. *)
Lemma extract_beats_unit_arrays `{Libm} (positions : positions_t) (fps : Q)
    (joint_indices : list Z) (params1 : option BeatParamsV1)
    (params2 : option BeatParamsV2)
    (pelvis_idx left_foot_idx right_foot_idx : option Z) :
  (0 < fps)%Q →
  let T := length positions in
  (∀ r, extract_beats_v1 positions fps joint_indices params1 pelvis_idx
          left_foot_idx right_foot_idx = Ok r →
        unit_array T (beat_score r) ∧ length (candidate_mask r) = T
        ∧ unit_array T (C_decel r) ∧ unit_array T (C_pelvis r)
        ∧ unit_array T (C_foot r))
  ∧ (∀ r, extract_beats_v2 positions fps joint_indices params2 pelvis_idx
            left_foot_idx right_foot_idx = Ok r →
          unit_array T (beat_score (common r))
          ∧ length (candidate_mask (common r)) = T
          ∧ unit_array T (C_decel (common r)) ∧ unit_array T (C_pelvis (common r))
          ∧ unit_array T (C_foot (common r))
          ∧ unit_array T (C_accel r) ∧ unit_array T (C_reversal r)).
Proof.
  intros Hfps T.
  assert (Hq : Qleb fps 0 = false).
  { destruct (Qleb fps 0) eqn:E; [|done]. apply Qleb_le in E. lra. }
  assert (Hempty : unit_array 0 []) by (split; [done|constructor]).
  assert (Hscore : ∀ fused score, _robust_norm fused 5 95 eps9 = Ok score →
            length fused = T → unit_array T score).
  { intros fused score Hs Hlen. split.
    - apply length_robust_norm in Hs. lia.
    - by eapply robust_norm_default_range. }
  split; intros r.
  - unfold extract_beats_v1. rewrite Hq, orb_false_r.
    destruct (Z.eqb_spec (len positions) 0) as [E|_].
    { intros [= <-]. unfold T. destruct positions; [|done]. simpl.
      repeat split; done || constructor. }
    intros Hb.
    apply bind_ok in Hb as (leg & _ & Hb).
    apply bind_ok in Hb as (speed & Hspeed & Hb).
    apply bind_ok in Hb as (cd & Hcd & Hb).
    apply bind_ok in Hb as (cp & Hcp & Hb).
    apply bind_ok in Hb as (cl & Hcl & Hb).
    apply bind_ok in Hb as (cr & Hcr & Hb).
    apply bind_ok in Hb as (score & Hsc & Hb).
    apply bind_ok in Hb as (sep & _ & Hb).
    apply bind_ok in Hb as (ev & _ & [= <-]). simpl.
    assert (Hd : unit_array (length (select_joints positions
                   (clamp_joints joint_indices
                      (from_option len 0 (head positions))))) cd).
    { eapply (cues_length_and_range _ None _ _ 0 0 0). left.
      rewrite Hspeed. exact Hcd. }
    rewrite length_select_joints in Hd. fold T in Hd.
    assert (Hp : unit_array T cp).
    { eapply (cues_length_and_range _ _ _ _ 0 0 0). right. left. exact Hcp. }
    assert (Hl : unit_array T cl).
    { eapply cues_length_and_range. right. right. left. exact Hcl. }
    assert (Hr : unit_array T cr).
    { eapply cues_length_and_range. right. right. left. exact Hcr. }
    pose proof (unit_array_foot _ _ _ Hl Hr) as Hf.
    assert (Hs : unit_array T score).
    { eapply Hscore; [exact Hsc|].
      destruct Hd as [Hd _], Hp as [Hp _], Hf as [Hf _].
      rewrite !length_zip_with, !length_fmap. lia. }
    split; [done|]. split.
    { pose proof (length_hysteresis_mask score (score_threshold
        (default default_params_v1 params1))
        (score_threshold (default default_params_v1 params1)
         * hysteresis_low_fac (default default_params_v1 params1))) as Hm.
      destruct Hs as [Hs _]. lia. }
    done.
  - unfold extract_beats_v2. rewrite Hq, orb_false_r.
    destruct (Z.eqb_spec (len positions) 0) as [E|_].
    { intros [= <-]. unfold T. destruct positions; [|done]. simpl.
      repeat split; done || constructor. }
    intros Hb.
    apply bind_ok in Hb as (leg & _ & Hb).
    apply bind_ok in Hb as (speed & Hspeed & Hb).
    apply bind_ok in Hb as (cd & Hcd & Hb).
    apply bind_ok in Hb as (cp & Hcp & Hb).
    apply bind_ok in Hb as (cl & Hcl & Hb).
    apply bind_ok in Hb as (cr & Hcr & Hb).
    apply bind_ok in Hb as (ca & Hca & Hb).
    apply bind_ok in Hb as (cv & Hcv & Hb).
    apply bind_ok in Hb as (score & Hsc & Hb).
    apply bind_ok in Hb as (cand & _ & Hb).
    apply bind_ok in Hb as (sep & _ & Hb).
    apply bind_ok in Hb as (ev & _ & [= <-]). simpl.
    assert (Hd : unit_array (length (select_joints positions
                   (clamp_joints joint_indices
                      (from_option len 0 (head positions))))) cd).
    { eapply (cues_length_and_range _ None _ _ 0 0 0). left.
      rewrite Hspeed. exact Hcd. }
    assert (Ha : unit_array (length (select_joints positions
                   (clamp_joints joint_indices
                      (from_option len 0 (head positions))))) ca).
    { eapply (cues_length_and_range _ None _ _ 0 0 0). do 3 right. left.
      exact Hca. }
    assert (Hv : unit_array (length (select_joints positions
                   (clamp_joints joint_indices
                      (from_option len 0 (head positions))))) cv).
    { eapply (cues_length_and_range _ None _ _ 0 0 0). do 4 right. exact Hcv. }
    rewrite length_select_joints in Hd, Ha, Hv. fold T in Hd, Ha, Hv.
    assert (Hp : unit_array T cp).
    { eapply (cues_length_and_range _ _ _ _ 0 0 0). right. left. exact Hcp. }
    assert (Hl : unit_array T cl).
    { eapply cues_length_and_range. right. right. left. exact Hcl. }
    assert (Hr : unit_array T cr).
    { eapply cues_length_and_range. right. right. left. exact Hcr. }
    pose proof (unit_array_foot _ _ _ Hl Hr) as Hf.
    assert (Hs : unit_array T score).
    { eapply Hscore; [exact Hsc|].
      destruct Hd as [Hd _], Hp as [Hp _], Hf as [Hf _], Ha as [Ha _],
        Hv as [Hv _].
      rewrite !length_zip_with, !length_fmap. lia. }
    split; [done|]. split.
    { pose proof (length_hysteresis_mask score (score_threshold
        (v1 (default default_params_v2 params2)))
        (score_threshold (v1 (default default_params_v2 params2))
         * hysteresis_low_fac (v1 (default default_params_v2 params2)))) as Hm.
      destruct Hs as [Hs _]. lia. }
    done.
Qed.

(** X18: for [fps > 0], every per-frame array in the dictionaries returned
    by [extract_beats_v1] and [extract_beats_v2] (the fused score, the
    candidate mask and every cue array) has exactly [T] entries. *)
Theorem extract_beats_lengths `{Libm} (positions : positions_t) (fps : Q)
    (joint_indices : list Z) (params1 : option BeatParamsV1)
    (params2 : option BeatParamsV2)
    (pelvis_idx left_foot_idx right_foot_idx : option Z) :
  (0 < fps)%Q →
  let T := length positions in
  (∀ r, extract_beats_v1 positions fps joint_indices params1 pelvis_idx
          left_foot_idx right_foot_idx = Ok r →
        length (beat_score r) = T ∧ length (candidate_mask r) = T
        ∧ length (C_decel r) = T ∧ length (C_pelvis r) = T
        ∧ length (C_foot r) = T)
  ∧ (∀ r, extract_beats_v2 positions fps joint_indices params2 pelvis_idx
            left_foot_idx right_foot_idx = Ok r →
          length (beat_score (common r)) = T
          ∧ length (candidate_mask (common r)) = T
          ∧ length (C_decel (common r)) = T ∧ length (C_pelvis (common r)) = T
          ∧ length (C_foot (common r)) = T
          ∧ length (C_accel r) = T ∧ length (C_reversal r) = T).
Proof.
  intros Hfps T.
  destruct (extract_beats_unit_arrays positions fps joint_indices params1
              params2 pelvis_idx left_foot_idx right_foot_idx Hfps)
    as [Hv1 Hv2].
  split; intros r Hr.
  - destruct (Hv1 r Hr) as ([? _] & ? & [? _] & [? _] & [? _]). done.
  - destruct (Hv2 r Hr)
      as ([? _] & ? & [? _] & [? _] & [? _] & [? _] & [? _]). done.
Qed.

Lemma extract_beats_lengths_witness :
  match @extract_beats_v1 libm_rational example_clip 1 [0; 1]
          (Some example_params_v1) (Some 0) (Some 1) None with
  | Ok r => length (beat_score r) = 5%nat ∧ length (candidate_mask r) = 5%nat
  | Raise _ => False
  end.
Proof.
  pose proof example_clip_v1_events as Hrun.
  pose proof (@extract_beats_lengths libm_rational example_clip 1 [0; 1]
                (Some example_params_v1) (Some example_params_v2)
                (Some 0) (Some 1) None eq_refl) as [Hv1 _].
  destruct (@extract_beats_v1 libm_rational example_clip 1 [0; 1]
              (Some example_params_v1) (Some 0) (Some 1) None) as [r|e];
    [|discriminate Hrun].
  destruct (Hv1 r eq_refl) as (Hs & Hm & _). split; [exact Hs|exact Hm].
Defined.

(** ** Homogeneous transforms *)

Section loadbvh_transforms.
Context {F : Type} `{FloatOps F}.

(** X19: a matrix returned by [transformation_matrix] is 4x4; its last row
    is [0, 0, 0, 1] and its translation column [M[[0, 1, 2], 3]] is the
    displacement it was given, whatever the angles and the rotation
    order. *)
Theorem transformation_matrix_shape (displ rxyz : list F) (order : list Z)
    (M : list (list F)) :
  transformation_matrix displ rxyz order = Ok M →
  length M = 4%nat
  ∧ Forall (fun row => length row = 4%nat) M
  ∧ M !! 3%nat = Some [fzero; fzero; fzero; fone]
  ∧ translation_of M = Ok displ.
Proof.
  unfold transformation_matrix. intros Hb.
  apply bind_ok in Hb as (c0 & _ & Hb). apply bind_ok in Hb as (s0 & _ & Hb).
  apply bind_ok in Hb as (c1 & _ & Hb). apply bind_ok in Hb as (s1 & _ & Hb).
  apply bind_ok in Hb as (c2 & _ & Hb). apply bind_ok in Hb as (s2 & _ & Hb).
  apply bind_ok in Hb as (o0 & _ & Hb). apply bind_ok in Hb as (R0 & HR0 & Hb).
  apply bind_ok in Hb as (o1 & _ & Hb). apply bind_ok in Hb as (R1 & HR1 & Hb).
  apply bind_ok in Hb as (o2 & _ & Hb). apply bind_ok in Hb as (R2 & HR2 & Hb).
  destruct displ as [|d0 [|d1 [|d2 [|? ?]]]]; try done.
  injection Hb as <-.
  apply getitem_elem_of in HR0, HR2. clear HR1.
  assert (Hrot : ∃ a b c, mat_mul (mat_mul R0 R1) R2 = [a; b; c]
                          ∧ length a = 3%nat ∧ length b = 3%nat
                          ∧ length c = 3%nat).
  { unfold mat_mul at 1.
    assert (from_option length 0%nat (head R2) = 3%nat) as ->.
    { apply elem_of_cons in HR2 as [->|HR2]; [done|].
      apply elem_of_cons in HR2 as [->|HR2]; [done|].
      apply list_elem_of_singleton in HR2 as ->. done. }
    assert (∃ a b c, mat_mul R0 R1 = [a; b; c]) as (a & b & c & ->).
    { unfold mat_mul.
      apply elem_of_cons in HR0 as [->|HR0]; [simpl; eauto|].
      apply elem_of_cons in HR0 as [->|HR0]; [simpl; eauto|].
      apply list_elem_of_singleton in HR0 as ->. simpl. eauto. }
    simpl. eexists _, _, _. done. }
  destruct Hrot as (a & b & c & -> & Ha & Hb & Hc).
  destruct a as [|a0 [|a1 [|a2 [|? ?]]]]; try done.
  destruct b as [|b0 [|b1 [|b2 [|? ?]]]]; try done.
  destruct c as [|c0' [|c1' [|c2' [|? ?]]]]; try done.
  simpl. split; [done|]. split; [repeat constructor|]. done.
Qed.

End loadbvh_transforms.

Lemma transformation_matrix_example :
  is_ok (@transformation_matrix Q float_ops_Q [1; 2; 3]%Q [90; 0; 0]%Q [2; 0; 1])
  = true.
Proof. vm_compute. reflexivity. Qed.

Lemma transformation_matrix_shape_witness :
  ∃ M, @transformation_matrix Q float_ops_Q [1; 2; 3]%Q [90; 0; 0]%Q [2; 0; 1] = Ok M
       ∧ @translation_of Q M = Ok [1; 2; 3]%Q.
Proof.
  pose proof transformation_matrix_example as Hrun.
  destruct (@transformation_matrix Q float_ops_Q [1; 2; 3]%Q [90; 0; 0]%Q [2; 0; 1])
    as [M|e] eqn:E; [|discriminate Hrun].
  exists M. split; [reflexivity|].
  exact (proj2 (proj2 (proj2
           (@transformation_matrix_shape Q float_ops_Q _ _ _ M E)))).
Defined.

(** ** The loader keeps the rig and fills every position buffer *)

Section loadbvh_structure.
Context {F : Type} `{FloatOps F}.

Lemma same_static_set_motion (j0 j : Joint F) d r t :
  same_static j0 j → same_static j0 (set_motion j d r t).
Proof. unfold same_static. simpl. tauto. Qed.

Lemma same_static_refl (j : Joint F) : same_static j j.
Proof. unfold same_static. tauto. Qed.

Lemma transpose_shape (m : list (list F)) :
  length (transpose 3 m) = 3%nat
  ∧ Forall (fun row : list F => length row = length m) (transpose 3 m).
Proof.
  unfold transpose. split; [by rewrite length_fmap|].
  apply Forall_fmap, Forall_true. intros c. simpl. by rewrite length_fmap.
Qed.

Lemma length_columns_at (m : list (list F)) (cols : list Z) (r : list (list F)) :
  columns_at m cols = Ok r → length r = length m.
Proof. unfold columns_at. apply length_mapR. Qed.

Lemma length_add_broadcast (v : list F) (m r : list (list F)) :
  add_broadcast v m = Ok r → length r = length m.
Proof.
  unfold add_broadcast. destruct v as [|a [|b [|c [|? ?]]]]; try done;
    intros [= <-]; by rewrite length_fmap.
Qed.

(** The buffers written by the first loop have shape [(3, T)]. *)
Lemma initial_motion_shape (raw : list (list F)) (cc : Z) (j : Joint F) d r t :
  initial_motion raw cc j = Ok (d, r, t) →
  length d = 3%nat ∧ Forall (fun row : list F => length row = length raw) d.
Proof.
  unfold initial_motion.
  destruct (n_channels j =? 6).
  { intros Hb. apply bind_ok in Hb as (cols & Hcols & Hb).
    apply bind_ok in Hb as (d0 & Hd0 & Hb).
    apply bind_ok in Hb as (rc & _ & Hb). apply bind_ok in Hb as (r0 & _ & Hb).
    apply bind_ok in Hb as (t0 & _ & [= <- <- <-]).
    apply length_columns_at in Hcols. apply length_add_broadcast in Hd0.
    destruct (transpose_shape d0) as [H3 Hrows]. split; [done|].
    eapply Forall_impl; [exact Hrows|]. simpl. intros row ->. lia. }
  assert (Hnan : length (replicate 3 (replicate (length raw) (@fnan F _))) = 3%nat
                 ∧ Forall (fun row : list F => length row = length raw)
                     (replicate 3 (replicate (length raw) fnan))).
  { split; [done|]. apply Forall_replicate, length_replicate. }
  destruct (n_channels j =? 3).
  { intros Hb. apply bind_ok in Hb as (rc & _ & Hb).
    apply bind_ok in Hb as (r0 & _ & [= <- <- <-]). done. }
  destruct (n_channels j =? 0); [|done].
  intros [= <- <- <-]. done.
Qed.

Lemma initial_loop_rig (raw : list (list F)) (l done done' : list (Joint F))
    (cc cc' : Z) :
  foldR (fun (st : list (Joint F) * Z) (joint : Joint F) =>
           let '(done, channel_count) := st in
           m <- initial_motion raw channel_count joint;;
           let '(d, r, t) := m in
           Ok (done ++ [set_motion joint d r t], channel_count + n_channels joint))
        (done, cc) l = Ok (done', cc') →
  ∃ tail, done' = done ++ tail
          ∧ Forall2 (fun j j' => same_static j j' ∧ has_positions (length raw) j')
              l tail.
Proof.
  revert done cc. induction l as [|j l IH]; intros done cc; simpl.
  - intros [= <- <-]. exists []. split; [by rewrite app_nil_r|constructor].
  - intros Hb. apply bind_ok in Hb as ([d1 c1] & Hstep & Hrest).
    apply bind_ok in Hstep as ([[d r] t] & Hinit & [= <- <-]).
    apply IH in Hrest as (tail & -> & HF).
    exists (set_motion j d r t :: tail). split; [by rewrite <- app_assoc|].
    constructor; [|done]. split.
    + apply same_static_set_motion, same_static_refl.
    + exists d. split; [done|]. by eapply initial_motion_shape.
Qed.

(** What both kinematics loops preserve. *)
Lemma rig_insert (T : nat) (sk0 sk : list (Joint F)) (i : nat) (joint : Joint F)
    d r t :
  Forall2 (fun j j' => same_static j j' ∧ has_positions T j') sk0 sk →
  sk !! i = Some joint →
  length d = 3%nat → Forall (fun row : list F => length row = T) d →
  Forall2 (fun j j' => same_static j j' ∧ has_positions T j') sk0
    (<[i := set_motion joint d r t]> sk).
Proof.
  intros HF Hi Hd Hrows.
  destruct (Forall2_lookup_r _ _ _ _ _ HF Hi) as (j0 & Hj0 & Hst & _).
  rewrite <- (list_insert_id sk0 i j0 Hj0).
  apply Forall2_insert; [done|]. split.
  - by apply same_static_set_motion.
  - exists d. done.
Qed.

Lemma length_mapR_seq {B} (f : nat → result B) (n : nat) (r : list B) :
  mapR f (seq 0 n) = Ok r → length r = n.
Proof. intros Hr. apply length_mapR in Hr. by rewrite length_seq in Hr. Qed.

Lemma kinematics_joint_rig (T : nat) (sk0 sk sk' : list (Joint F)) (i : nat) :
  Forall2 (fun j j' => same_static j j' ∧ has_positions T j') sk0 sk →
  kinematics_joint T sk i = Ok sk' →
  Forall2 (fun j j' => same_static j j' ∧ has_positions T j') sk0 sk'.
Proof.
  intros HF. unfold kinematics_joint.
  destruct (sk !! i) as [joint|] eqn:Hi; [|done].
  destruct (is_end_site joint || is_root joint); [by intros [= <-]|].
  intros Hb. apply bind_ok in Hb as (frames & Hfr & Hb).
  destruct (T =? 0)%nat; [by simplify_eq|].
  destruct (trans joint) as [[|? ?]|]; simplify_eq.
  apply length_mapR_seq in Hfr.
  destruct (transpose_shape (snd <$> frames)) as [H3 Hrows].
  rewrite length_fmap, Hfr in Hrows. by apply rig_insert.
Qed.

Lemma kinematics_end_site_rig (T : nat) (sk0 sk sk' : list (Joint F)) (i : nat) :
  Forall2 (fun j j' => same_static j j' ∧ has_positions T j') sk0 sk →
  kinematics_end_site T sk i = Ok sk' →
  Forall2 (fun j j' => same_static j j' ∧ has_positions T j') sk0 sk'.
Proof.
  intros HF. unfold kinematics_end_site.
  destruct (sk !! i) as [joint|] eqn:Hi; [|done].
  destruct (negb (is_end_site joint)); [by intros [= <-]|].
  intros Hb. apply bind_ok in Hb as (frames & Hfr & Hb).
  destruct (T =? 0)%nat; simplify_eq; [done|].
  apply length_mapR_seq in Hfr.
  destruct (transpose_shape frames) as [H3 Hrows].
  rewrite Hfr in Hrows. by apply rig_insert.
Qed.

(** X20: when [resolve_motion] returns, the skeleton has the same joints
    in the same order with unchanged static fields (parent, offset,
    channel count, channel orders, root and end-site flags, joint index),
    and every joint carries a position buffer of shape [(3, T)], [T] being
    the number of motion rows. *)
Theorem resolve_motion_keeps_rig (skeleton sk' : list (Joint F))
    (raw : list (list F)) :
  resolve_motion skeleton raw = Ok sk' →
  Forall2 (fun j j' => same_static j j' ∧ has_positions (length raw) j')
    skeleton sk'.
Proof.
  unfold resolve_motion, _apply_initial_motion_data_to_skeleton,
    _apply_kinematics_to_skeleton.
  intros Hb. apply bind_ok in Hb as (sk1 & H1 & Hb).
  apply bind_ok in H1 as ([done cc] & Hfold & [= <-]).
  apply initial_loop_rig in Hfold as (tail & -> & HF). simpl in *.
  apply bind_ok in Hb as (sk2 & H2 & H3).
  assert (HF2 : Forall2 (fun j j' => same_static j j'
                                     ∧ has_positions (length raw) j')
                  skeleton sk2).
  { revert H2. apply (foldR_inv (fun sk => Forall2 _ skeleton sk)); [|done].
    intros s a s' _ Hs. by apply kinematics_joint_rig. }
  revert H3. apply (foldR_inv (fun sk => Forall2 _ skeleton sk)); [|done].
  intros s a s' _ Hs. by apply kinematics_end_site_rig.
Qed.

End loadbvh_structure.

Lemma resolve_motion_keeps_rig_witness :
  ∃ sk', @resolve_motion _ float_ops_Q example_rig example_motion = Ok sk'
         ∧ length sk' = 3%nat.
Proof.
  pose proof example_rig_resolves as Hok.
  destruct (@resolve_motion _ float_ops_Q example_rig example_motion)
    as [sk'|e] eqn:E; [|discriminate Hok].
  exists sk'. split; [reflexivity|].
  pose proof (@resolve_motion_keeps_rig Q float_ops_Q example_rig sk'
                example_motion E) as HF.
  apply Forall2_length in HF. symmetry. exact HF.
Defined.

(** ** The cross-correlation offset is a step of an admitted lag *)




(** ** [pack_positions_from_textures] *)

Lemma pack_loop (textures : list (list Q)) (n : Z) (rest : list Z) (base : nat)
    (pos0 : list (list (list Q))) :
  (∀ i, (i < length rest)%nat → (3 * (base + i) + 2 < length textures)%nat) →
  NoDup rest →
  ∃ pos',
    foldR (pack_joint textures n) pos0 (imap (fun i j => ((base + i)%nat, j)) rest)
    = Ok pos'
    ∧ length pos' = length pos0
    ∧ ∀ t frame0, pos0 !! t = Some frame0 →
        ∃ frame', pos' !! t = Some frame' ∧ length frame' = length frame0
          ∧ (∀ j, Z.of_nat j ∉ rest → frame' !! j = frame0 !! j)
          ∧ (∀ i jidx x y z,
               rest !! i = Some jidx → 0 <= jidx < n →
               (Z.to_nat jidx < length frame0)%nat →
               textures !! (3 * (base + i))%nat = Some x →
               textures !! (3 * (base + i) + 1)%nat = Some z →
               textures !! (3 * (base + i) + 2)%nat = Some y →
               frame' !! Z.to_nat jidx = Some (texture_xyz x y z t)).
Proof.
  revert base pos0. induction rest as [|j0 rest IH]; intros base pos0 Hrows Hnd.
  { exists pos0. split; [done|]. split; [done|]. intros t frame0 Ht.
    exists frame0. split; [done|]. split; [done|]. split; [done|].
    intros i jidx x y z Hi. done. }
  apply NoDup_cons in Hnd as [Hnotin Hnd].
  rewrite imap_cons. cbn [foldR].
  rewrite (imap_ext _ (fun i j => ((S base + i)%nat, j)) rest)
    by (intros; simpl; f_equal; lia).
  assert (Hrows' : ∀ i, (i < length rest)%nat →
            (3 * (S base + i) + 2 < length textures)%nat).
  { intros i Hi. specialize (Hrows (S i)). simpl in Hrows. lia. }
  unfold pack_joint at 1. cbn [fst snd]. unfold _valid_idx.
  destruct ((0 <=? j0) && (j0 <? n)) eqn:Hvalid; cbn [negb bind].
  - apply andb_true_iff in Hvalid as [H0 Hn].
    apply Z.leb_le in H0. apply Z.ltb_lt in Hn.
    specialize (Hrows 0%nat ltac:(simpl; lia)).
    destruct (lookup_lt_is_Some_2 textures (3 * (base + 0))) as [x0 Hx0]; [lia|].
    destruct (lookup_lt_is_Some_2 textures (3 * (base + 0) + 1)) as [z0 Hz0]; [lia|].
    destruct (lookup_lt_is_Some_2 textures (3 * (base + 0) + 2)) as [y0 Hy0]; [lia|].
    rewrite (getitem_lookup textures _ x0), (getitem_lookup textures _ z0),
      (getitem_lookup textures _ y0); [|lia| |lia| |lia|].
    2:{ rewrite <- Hy0. f_equal. lia. }
    2:{ rewrite <- Hz0. f_equal. lia. }
    2:{ rewrite <- Hx0. f_equal. lia. }
    cbn [bind].
    set (pos1 := imap _ pos0).
    destruct (IH (S base) pos1 Hrows' Hnd) as (pos' & -> & Hlen & Hframes).
    exists pos'. split; [done|]. split; [by rewrite Hlen; apply length_imap|].
    intros t frame0 Ht.
    assert (Ht1 : pos1 !! t
                  = Some (<[Z.to_nat j0 := texture_xyz x0 y0 z0 t]> frame0)).
    { unfold pos1. by rewrite list_lookup_imap, Ht. }
    destruct (Hframes t _ Ht1) as (frame' & Hf' & Hl' & Hkeep & Hset).
    rewrite length_insert in Hl', Hset.
    exists frame'. split; [done|]. split; [done|]. split.
    + intros j Hj. rewrite Hkeep by set_solver.
      apply list_lookup_insert_ne. intros Heq. apply Hj.
      apply elem_of_cons. left. lia.
    + intros i jidx x y z Hi Hjr Hjl Hx Hz Hy. destruct i as [|i]; simpl in Hi.
      * injection Hi as <-. rewrite Hkeep by (rewrite Z2Nat.id by lia; done).
        rewrite list_lookup_insert_eq by done.
        rewrite Hx0 in Hx. rewrite Hz0 in Hz. rewrite Hy0 in Hy.
        by simplify_eq.
      * apply (Hset i jidx x y z); try done.
        -- rewrite <- Hx. f_equal. lia.
        -- rewrite <- Hz. f_equal. lia.
        -- rewrite <- Hy. f_equal. lia.
  - destruct (IH (S base) pos0 Hrows' Hnd) as (pos' & -> & Hlen & Hframes).
    exists pos'. split; [done|]. split; [done|].
    intros t frame0 Ht.
    destruct (Hframes t _ Ht) as (frame' & Hf' & Hl' & Hkeep & Hset).
    exists frame'. split; [done|]. split; [done|]. split.
    + intros j Hj. apply Hkeep. set_solver.
    + intros i jidx x y z Hi Hjr Hjl Hx Hz Hy. destruct i as [|i]; simpl in Hi.
      * injection Hi as <-. apply andb_false_iff in Hvalid as [Hv|Hv];
          [apply Z.leb_gt in Hv|apply Z.ltb_ge in Hv]; lia.
      * apply (Hset i jidx x y z); try done.
        -- rewrite <- Hx. f_equal. lia.
        -- rewrite <- Hz. f_equal. lia.
        -- rewrite <- Hy. f_equal. lia.
Qed.

(** X22: with the layout [(x, z, y)], a non-negative joint count, three
    texture rows per listed joint and no joint listed twice,
    [pack_positions_from_textures] returns an array with one frame per
    texture column and [n_total_joints] joints per frame; a joint that is
    not listed stays at [(0, 0, 0)], and a listed joint inside
    [0, n_total_joints) gets, at frame [t], the values of its rows
    [3k], [3k+2], [3k+1] (in that order) at column [t].  Any other layout
    raises [ValueError]. *)
Theorem pack_positions_layout (textures : list (list Q)) (joint_indices : list Z)
    (n_total_joints : Z) :
  0 <= n_total_joints →
  length textures = (3 * length joint_indices)%nat →
  NoDup joint_indices →
  pack_positions_from_textures textures joint_indices n_total_joints false
  = Raise ValueError
  ∧ ∃ pos,
      pack_positions_from_textures textures joint_indices n_total_joints true
      = Ok pos
      ∧ length pos = from_option length 0%nat (head textures)
      ∧ ∀ t frame, pos !! t = Some frame →
          length frame = Z.to_nat n_total_joints
          ∧ (∀ j, (j < Z.to_nat n_total_joints)%nat →
               Z.of_nat j ∉ joint_indices → frame !! j = Some [0; 0; 0]%Q)
          ∧ (∀ k jidx x y z,
               joint_indices !! k = Some jidx → 0 <= jidx < n_total_joints →
               textures !! (3 * k)%nat = Some x →
               textures !! (3 * k + 1)%nat = Some z →
               textures !! (3 * k + 2)%nat = Some y →
               frame !! Z.to_nat jidx = Some (texture_xyz x y z t)).
Proof.
  intros Hn Hrows Hnd. unfold pack_positions_from_textures.
  destruct (Z.ltb_spec n_total_joints 0) as [|_]; [lia|].
  split; [done|]. cbn [negb].
  set (T := from_option length 0%nat (head textures)).
  set (pos0 := replicate T (replicate (Z.to_nat n_total_joints) [0; 0; 0]%Q)).
  destruct (pack_loop textures n_total_joints joint_indices 0 pos0)
    as (pos & Hpos & Hlen & Hframes); [intros i Hi; lia|done|].
  rewrite (imap_ext _ pair joint_indices) in Hpos by done.
  exists pos. split; [done|].
  split; [by rewrite Hlen; apply length_replicate|].
  intros t frame Ht.
  assert (Ht0 : pos0 !! t = Some (replicate (Z.to_nat n_total_joints) [0; 0; 0]%Q)).
  { apply lookup_replicate_2. apply lookup_lt_Some in Ht.
    unfold pos0 in Hlen. rewrite length_replicate in Hlen. lia. }
  destruct (Hframes t _ Ht0) as (frame' & Hf' & Hl' & Hkeep & Hset).
  rewrite Ht in Hf'. injection Hf' as <-. rewrite length_replicate in Hl', Hset.
  split; [done|]. split.
  - intros j Hj Hnot. rewrite Hkeep by done. by apply lookup_replicate_2.
  - intros k jidx x y z Hk Hj Hx Hz Hy.
    apply (Hset k jidx x y z); try done. lia.
Qed.

Lemma pack_positions_layout_witness :
  ∃ pos, pack_positions_from_textures [[1; 2]; [3; 4]; [5; 6]]%Q [1] 2 true = Ok pos
         ∧ length pos = 2%nat.
Proof.
  destruct (pack_positions_layout [[1; 2]; [3; 4]; [5; 6]]%Q [1] 2)
    as (_ & pos & Hpos & Hlen & _).
  - lia.
  - reflexivity.
  - repeat constructor. set_solver.
  - exists pos. split; [exact Hpos|exact Hlen].
Defined.

(** ** [widen_labels_per_clip] *)

Lemma widen_fold (radius Tc : Z) (yc pos cur : list Z) :
  (∀ p, p ∈ pos → ∃ q, yc !! q = Some 1) →
  length cur = length yc →
  (∀ k, (yc !! k = Some 1 → cur !! k = Some 1)
        ∧ (∀ v, cur !! k = Some v →
             yc !! k = Some v ∨ (v = 1 ∧ ∃ p, yc !! p = Some 1))) →
  let w := foldl (fun yc p => fill_slice yc (Z.max 0 (p - radius))
                                (Z.min Tc (p + radius + 1)) 1) cur pos in
  length w = length yc
  ∧ ∀ k, (yc !! k = Some 1 → w !! k = Some 1)
         ∧ (∀ v, w !! k = Some v →
              yc !! k = Some v ∨ (v = 1 ∧ ∃ p, yc !! p = Some 1)).
Proof.
  revert cur. induction pos as [|p pos IH]; intros cur Hpos Hlen Hinv; [done|].
  simpl. apply IH; [intros q Hq; apply (Hpos q); by right| |].
  { by rewrite length_fill_slice. }
  intros k. destruct (Hinv k) as [H1 H2]. rewrite lookup_fill_slice. split.
  - intros Hk. rewrite (H1 Hk). simpl. by destruct (_ && _).
  - intros v Hv. destruct (cur !! k) as [c|] eqn:E; [|done]. simpl in Hv.
    destruct (_ && _).
    + injection Hv as <-. right. split; [done|]. apply (Hpos p). by left.
    + injection Hv as <-. by apply H2.
Qed.

Lemma widen_clip_spec (radius : Z) (yc : list Z) :
  length (widen_clip radius yc) = length yc
  ∧ ∀ k, (yc !! k = Some 1 → widen_clip radius yc !! k = Some 1)
         ∧ (∀ v, widen_clip radius yc !! k = Some v →
              yc !! k = Some v ∨ (v = 1 ∧ ∃ p, yc !! p = Some 1)).
Proof.
  unfold widen_clip. apply widen_fold; [|done|].
  - intros p Hp. apply elem_of_np_where in Hp as [_ Hp].
    rewrite list_lookup_fmap in Hp.
    destruct (yc !! Z.to_nat p) as [v|] eqn:E; [|done].
    injection Hp as Hv. apply Z.eqb_eq in Hv as ->. eauto.
  - intros k. split; [done|]. intros v Hv. by left.
Qed.

Lemma scatter_cases (idx vals : list Z) (y_new : list Z) (j : nat) :
  length (scatter y_new idx vals) = length y_new
  ∧ (scatter y_new idx vals !! j = y_new !! j
     ∨ ∃ k i v, idx !! k = Some i ∧ vals !! k = Some v ∧ Z.to_nat i = j
                ∧ scatter y_new idx vals !! j = Some v).
Proof.
  unfold scatter. revert vals y_new.
  induction idx as [|i idx IH]; intros vals y_new; [by split; [|left]|].
  destruct vals as [|v vals]; [by split; [|left]|].
  simpl. destruct (IH vals (<[Z.to_nat i := v]> y_new)) as [Hlen Hcase].
  rewrite length_insert in Hlen. split; [done|].
  destruct Hcase as [Hsame|(k & i' & v' & Hi' & Hv' & Hj & Hres)].
  - destruct (decide (Z.to_nat i = j)) as [Heq|Hne].
    + destruct (decide (j < length y_new)%nat) as [Hlt|Hge].
      * right. exists 0%nat, i, v. split; [done|]. split; [done|].
        split; [done|]. rewrite Hsame, <- Heq.
        apply list_lookup_insert_eq. lia.
      * left. rewrite Hsame. rewrite !lookup_ge_None_2; [done|lia|].
        rewrite length_insert. lia.
    + left. rewrite Hsame. by apply list_lookup_insert_ne.
  - right. exists (S k), i', v'. done.
Qed.

Lemma mapR_ok {A B} (f : A → result B) (l : list A) :
  (∀ a, a ∈ l → ∃ b, f a = Ok b) → ∃ r, mapR f l = Ok r.
Proof.
  induction l as [|a l IH]; intros Hf; simpl; [by eauto|].
  destruct (Hf a ltac:(by left)) as [b ->].
  destruct IH as [r ->]; [intros a' Ha'; apply Hf; by right|]. simpl. eauto.
Qed.

Lemma mapR_lookup_ok {A B} (f : A → result B) (l : list A) (r : list B)
    (i : nat) (a : A) :
  mapR f l = Ok r → l !! i = Some a → ∃ b, f a = Ok b ∧ r !! i = Some b.
Proof.
  revert r i. induction l as [|x l IH]; intros r i; simpl; [done|].
  intros Hb. apply bind_ok in Hb as (b & Hfx & Hb).
  apply bind_ok in Hb as (bs & Hbs & [= <-]).
  destruct i as [|i]; simpl.
  - intros [= <-]. eauto.
  - intros Hl. by apply (IH bs i).
Qed.

(** X23: when [clip_ids] has one entry per label,
    [widen_labels_per_clip] never raises and returns as many labels as it
    was given; a label 1 stays 1; a label only ever changes to 1, and only
    when some frame of the same clip was labelled 1; and with
    [radius <= 0] nothing changes. *)
Theorem widen_labels_within_clip (y clip_ids : list Z) (radius : Z) :
  length clip_ids = length y →
  ∃ y', widen_labels_per_clip y clip_ids radius = Ok y'
    ∧ length y' = length y
    ∧ (radius <= 0 → y' = y)
    ∧ (∀ i, y !! i = Some 1 → y' !! i = Some 1)
    ∧ (∀ i v, y' !! i = Some v →
         y !! i = Some v
         ∨ (v = 1 ∧ ∃ p, y !! p = Some 1 ∧ clip_ids !! p = clip_ids !! i)).
Proof.
  intros Hlen. unfold widen_labels_per_clip.
  destruct (Z.leb_spec radius 0) as [Hr|Hr].
  { exists y. split; [done|]. split; [done|]. split; [done|].
    split; [done|]. intros i v Hv. by left. }
  set (step := fun y_new clip => _).
  assert (Hidx : ∀ clip i, i ∈ np_where ((fun c => c =? clip) <$> clip_ids) →
            0 <= i ∧ (Z.to_nat i < length y)%nat
            ∧ clip_ids !! Z.to_nat i = Some clip).
  { intros clip i Hi. apply elem_of_np_where in Hi as [Hi0 Hi].
    rewrite list_lookup_fmap in Hi.
    destruct (clip_ids !! Z.to_nat i) as [c|] eqn:E; [|done].
    injection Hi as Hc. apply Z.eqb_eq in Hc as ->.
    apply lookup_lt_Some in E. split; [done|]. split; [lia|done]. }
  assert (Hyc : ∀ clip, ∃ yc,
            mapR (getitem y) (np_where ((fun c => c =? clip) <$> clip_ids)) = Ok yc).
  { intros clip. apply mapR_ok. intros i Hi.
    destruct (Hidx clip i Hi) as (Hi0 & Hil & _).
    destruct (lookup_lt_is_Some_2 y (Z.to_nat i) Hil) as [v Hv].
    exists v. by apply getitem_lookup. }
  destruct (foldR_ok step (np_unique clip_ids)) with (st := y) as [y' Hy'].
  { intros st clip _. unfold step. destruct (Hyc clip) as [yc ->]. simpl. eauto. }
  exists y'. split; [done|].
  assert (Hinv : length y' = length y
    ∧ ∀ i, (y !! i = Some 1 → y' !! i = Some 1)
           ∧ (∀ v, y' !! i = Some v →
                y !! i = Some v
                ∨ (v = 1 ∧ ∃ p, y !! p = Some 1
                                ∧ clip_ids !! p = clip_ids !! i))).
  { revert Hy'. apply (foldR_inv (fun st => length st = length y
      ∧ ∀ i, (y !! i = Some 1 → st !! i = Some 1)
             ∧ (∀ v, st !! i = Some v →
                  y !! i = Some v
                  ∨ (v = 1 ∧ ∃ p, y !! p = Some 1
                                  ∧ clip_ids !! p = clip_ids !! i)))).
    2:{ split; [done|]. intros i. split; [done|]. intros v Hv. by left. }
    intros st clip st' _ [Hl Hst]. unfold step. intros Hb.
    apply bind_ok in Hb as (yc & Hmap & [= <-]).
    destruct (widen_clip_spec radius yc) as [Hwl Hw].
    split.
    { destruct (scatter_cases (np_where ((fun c => c =? clip) <$> clip_ids))
                  (widen_clip radius yc) st 0) as [-> _]. done. }
    intros i.
    destruct (scatter_cases (np_where ((fun c => c =? clip) <$> clip_ids))
                (widen_clip radius yc) st i)
      as [_ [Hsame|(k & gi & v & Hgi & Hv & Hi & Hres)]].
    { rewrite Hsame. apply Hst. }
    rewrite Hres.
    destruct (Hidx clip gi ltac:(by eapply list_elem_of_lookup_2))
      as (Hg0 & Hgl & Hgc).
    destruct (mapR_lookup_ok _ _ _ _ _ Hmap Hgi) as (b & Hb & Hyck).
    apply getitem_nonneg in Hb; [|done]. rewrite Hi in Hb, Hgc.
    destruct (Hw k) as [Hw1 Hw2]. split.
    - intros Hy1. rewrite Hy1 in Hb. injection Hb as <-.
      rewrite <- Hv. by apply Hw1.
    - intros v' [= <-]. destruct (Hw2 v Hv) as [Hk|[-> (lp & Hlp)]].
      + left. rewrite Hyck in Hk. by injection Hk as ->.
      + right. split; [done|].
        assert (Hlpl : (lp < length (np_where ((fun c => (c =? clip)%Z)
                                                 <$> clip_ids)))%nat).
        { apply length_mapR in Hmap. apply lookup_lt_Some in Hlp. lia. }
        destruct (lookup_lt_is_Some_2 _ _ Hlpl) as [gp Hgp].
        destruct (Hidx clip gp ltac:(by eapply list_elem_of_lookup_2))
          as (Hp0 & Hpl & Hpc).
        destruct (mapR_lookup_ok _ _ _ _ _ Hmap Hgp) as (b' & Hb' & Hycp).
        apply getitem_nonneg in Hb'; [|done].
        rewrite Hlp in Hycp. injection Hycp as <-.
        exists (Z.to_nat gp). split; [done|]. by rewrite Hpc, Hgc. }
  destruct Hinv as [Hl Hinv]. split; [done|]. split; [lia|]. split.
  - intros i. apply Hinv.
  - intros i. apply Hinv.
Qed.

Lemma widen_labels_within_clip_witness :
  ∃ y', widen_labels_per_clip [0; 1; 0; 0] [7; 7; 8; 8] 1 = Ok y'
        ∧ length y' = 4%nat.
Proof.
  destruct (widen_labels_within_clip [0; 1; 0; 0] [7; 7; 8; 8] 1)
    as (y' & Hy' & Hlen & _); [reflexivity|].
  exists y'. split; [exact Hy'|exact Hlen].
Defined.

(** ** The fitted tempo line of an event set *)

Lemma Qsum_app (l1 l2 : list Q) : (Qsum (l1 ++ l2) == Qsum l1 + Qsum l2)%Q.
Proof.
  induction l1 as [|a l1 IH]; simpl; [ring|].
  change (foldr Qplus 0%Q (l1 ++ l2)) with (Qsum (l1 ++ l2)).
  change (foldr Qplus 0%Q l1) with (Qsum l1). rewrite IH. ring.
Qed.

Lemma dot_snoc (k d : list Q) (x y : Q) :
  length k = length d →
  (dot (k ++ [x]) (d ++ [y]) == dot k d + x * y)%Q.
Proof.
  intros Hlen. unfold dot. rewrite zip_with_app by done.
  rewrite Qsum_app. simpl. ring.
Qed.

(** The cross terms gained by one more sample. *)
Lemma cross_terms (k d : list Q) (x y : Q) :
  length k = length d →
  (Qsum (zip_with (fun ki di => (x - ki) * (y - di)) k d)
   == inject_Z (len k) * (x * y) - y * Qsum k - x * Qsum d + dot k d)%Q.
Proof.
  revert d. induction k as [|a k IH]; intros [|b d] Hlen; try done.
  { unfold dot, len. simpl. ring. }
  injection Hlen as Hlen. specialize (IH d Hlen).
  unfold dot, len in *. cbn [zip_with Qsum foldr length].
  change (foldr Qplus 0%Q ?l) with (Qsum l).
  change (foldr Qplus 0%Q ?l) with (Qsum l) in IH.
  rewrite IH, Nat2Z.inj_succ, <- Z.add_1_r, inject_Z_plus.
  change (inject_Z 1) with 1%Q. ring.
Qed.

(** Chebyshev's sum, one sample at a time: appending [(x, y)] to [n]
    samples changes [n * sum(k*d) - sum(k) * sum(d)] by the sum of the
    cross terms [(x - k_i) * (y - d_i)]. *)
Lemma covariance_snoc (k d : list Q) (x y : Q) :
  length k = length d →
  (inject_Z (len (k ++ [x])) * dot (k ++ [x]) (d ++ [y])
   - Qsum (k ++ [x]) * Qsum (d ++ [y])
   == (inject_Z (len k) * dot k d - Qsum k * Qsum d)
      + Qsum (zip_with (fun ki di => (x - ki) * (y - di)) k d))%Q.
Proof.
  intros Hlen. rewrite cross_terms, dot_snoc, !Qsum_app by done.
  unfold len. rewrite length_app. simpl.
  rewrite Nat2Z.inj_add, inject_Z_plus. simpl.
  change (inject_Z 1) with 1%Q. ring.
Qed.

Lemma cross_moment_snoc (k d : list Q) (x y : Q) :
  length k = length d →
  (cross_moment (k ++ [x]) (d ++ [y])
   == cross_moment k d
      + Qsum (zip_with (fun ki di => (x - ki) * (y - di)) k d))%Q.
Proof. apply covariance_snoc. Qed.

Lemma Qsum_pointwise_le (u v : list Q) :
  Forall2 Qle u v → (Qsum u <= Qsum v)%Q.
Proof.
  induction 1 as [|a b u v Hab _ IH]; simpl; [lra|].
  change (foldr Qplus 0%Q ?l) with (Qsum l) in *. lra.
Qed.

Lemma Qsum_ge_elem (l : list Q) (i : nat) (v : Q) :
  Forall (fun v => (0 <= v)%Q) l → l !! i = Some v → (v <= Qsum l)%Q.
Proof.
  intros Hl. revert i. induction Hl as [|a l Ha Hl IH]; intros i Hi; [done|].
  pose proof (Qsum_nonneg l Hl). simpl.
  change (foldr Qplus 0%Q l) with (Qsum l).
  destruct i as [|i]; simpl in Hi.
  - injection Hi as <-. lra.
  - specialize (IH i Hi). lra.
Qed.

Lemma arange_S (m : nat) :
  arange (S m) = arange m ++ [inject_Z (Z.of_nat m)].
Proof. unfold arange. by rewrite seq_S, fmap_app. Qed.

Lemma length_arange (m : nat) : length (arange m) = m.
Proof. unfold arange. by rewrite length_fmap, length_seq. Qed.

Lemma lookup_arange (m i : nat) (q : Q) :
  arange m !! i = Some q → q = inject_Z (Z.of_nat i) ∧ (i < m)%nat.
Proof.
  unfold arange. intros H. apply list_lookup_fmap_Some in H as (j & -> & Hj).
  apply lookup_seq in Hj as [-> Hj]. done.
Qed.

(** In a strictly increasing list of integers, values are at least as far
    apart as their positions. *)
Lemma sorted_gap (l : list Z) (i d : nat) (a b : Z) :
  StronglySorted Z.lt l → l !! i = Some a → l !! (i + d)%nat = Some b →
  Z.of_nat d <= b - a.
Proof.
  intros Hs Ha. revert b. induction d as [|d IH]; intros b Hb.
  - rewrite Nat.add_0_r in Hb. simplify_eq. lia.
  - destruct (lookup_lt_is_Some_2 l (i + d)) as [c Hc].
    { apply lookup_lt_Some in Hb. lia. }
    specialize (IH c Hc).
    pose proof (StronglySorted_lookup_lt Z.lt l (i + d) (i + S d) c b Hs Hc Hb
                  ltac:(lia)).
    lia.
Qed.

Lemma StronglySorted_from_lookup {A} (R : relation A) (l : list A) :
  (∀ i j x y, (i < j)%nat → l !! i = Some x → l !! j = Some y → R x y) →
  StronglySorted R l.
Proof.
  induction l as [|a l IH]; intros H; constructor.
  - apply IH. intros i j x y Hij Hi Hj. apply (H (S i) (S j)); [lia|done..].
  - apply Forall_lookup. intros j y Hj. apply (H 0%nat (S j)); [lia|done..].
Qed.

(** The samples [(i, ev[i])] of a strictly increasing event list. *)
Lemma events_gap_dom (ev : list Z) :
  StronglySorted Z.lt ev →
  StronglySorted gap_dom (zip (arange (length ev)) (inject_Z <$> ev)).
Proof.
  intros Hs. apply StronglySorted_from_lookup.
  intros i j [a b] [a' b'] Hij Hi Hj.
  apply lookup_zip_Some in Hi as [Ha Hb], Hj as [Ha' Hb'].
  apply lookup_arange in Ha as [-> _], Ha' as [-> _].
  apply list_lookup_fmap_Some in Hb as (e & -> & He).
  apply list_lookup_fmap_Some in Hb' as (e' & -> & He').
  replace j with (i + (j - i))%nat in He' by lia.
  pose proof (sorted_gap ev i (j - i) e e' Hs He He') as Hgap.
  unfold gap_dom, Qle, Qminus, Qplus, Qopp, inject_Z. simpl. lia.
Qed.

Lemma mask_select_zip {A B} (mask : list bool) (k : list A) (e : list B) :
  zip (mask_select mask k) (mask_select mask e) = mask_select mask (zip k e).
Proof.
  unfold mask_select. revert k e.
  induction mask as [|g mask IH]; intros [|a k] [|b e]; csimpl; try done.
  - by destruct g, (omap _ _).
  - destruct g; csimpl; by rewrite IH.
Qed.

Lemma mask_select_sublist {A} (mask : list bool) (l : list A) :
  mask_select mask l `sublist_of` l.
Proof.
  unfold mask_select. revert l.
  induction mask as [|g mask IH]; intros [|a l]; csimpl;
    try done; try apply sublist_nil_l.
  destruct g; csimpl; [by apply sublist_skip|by apply sublist_cons].
Qed.

Lemma length_mask_select_same {A B} (mask : list bool) (u : list A)
    (v : list B) :
  length u = length v →
  length (mask_select mask u) = length (mask_select mask v).
Proof.
  unfold mask_select. revert u v.
  induction mask as [|g mask IH]; intros [|a u] [|b v] Huv; csimpl; try done.
  injection Huv as Huv. destruct g; csimpl; [f_equal|]; by apply IH.
Qed.

(** The moments of samples whose [e]-gaps dominate their [k]-gaps: the
    cross moment dominates the moment of [k], which is at least 1 from two
    samples on. *)
Lemma fit_moments (kel : list (Q * Q)) :
  StronglySorted gap_dom kel →
  (cross_moment kel.*1 kel.*1 <= cross_moment kel.*1 kel.*2)%Q
  ∧ (0 <= cross_moment kel.*1 kel.*1)%Q
  ∧ ((2 ≤ length kel)%nat → (1 <= cross_moment kel.*1 kel.*1)%Q).
Proof.
  induction kel as [|[x y] kel IH] using rev_ind; intros Hs.
  { unfold cross_moment, dot, len. simpl. split; [lra|]. split; [lra|].
    simpl. lia. }
  apply StronglySorted_app in Hs as (Hlast & Hs' & _).
  destruct (IH Hs') as (IH1 & IH2 & IH3). clear IH.
  rewrite !fmap_app, length_app. simpl.
  rewrite !cross_moment_snoc by (by rewrite !length_fmap).
  set (k := kel.*1) in *. set (e := kel.*2) in *.
  assert (Hdom : ∀ i a b, k !! i = Some a → e !! i = Some b →
            (1 <= x - a)%Q ∧ (x - a <= y - b)%Q).
  { intros i a b Ha Hb.
    apply list_lookup_fmap_Some in Ha as (p & -> & Hp).
    apply list_lookup_fmap_Some in Hb as (p' & -> & Hp').
    rewrite Hp in Hp'. injection Hp' as <-.
    apply (Hlast p (x, y)); [by eapply list_elem_of_lookup_2|set_solver]. }
  assert (Hke : length k = length e) by (unfold k, e; by rewrite !length_fmap).
  assert (Hpt : Forall2 Qle
            (zip_with (fun ki di => (x - ki) * (x - di))%Q k k)
            (zip_with (fun ki di => (x - ki) * (y - di))%Q k e)).
  { apply Forall2_same_length_lookup_2.
    { rewrite !length_zip_with. lia. }
    intros i u v Hu Hv.
    apply lookup_zip_with_Some in Hu as (a & a' & -> & Ha & Ha').
    apply lookup_zip_with_Some in Hv as (a2 & b & -> & Ha2 & Hb).
    rewrite Ha in Ha2. injection Ha2 as <-.
    rewrite Ha in Ha'. injection Ha' as <-.
    destruct (Hdom i a b Ha Hb). nra. }
  apply Qsum_pointwise_le in Hpt.
  assert (Hsq : Forall (fun v => (0 <= v)%Q)
            (zip_with (fun ki di => (x - ki) * (x - di))%Q k k)).
  { apply Forall_forall. intros v Hv.
    apply elem_of_lookup_zip_with in Hv as (i & a & a' & -> & Ha & Ha').
    rewrite Ha in Ha'. injection Ha' as <-.
    destruct (lookup_lt_is_Some_2 e i) as [b Hb].
    { rewrite <- Hke. by eapply lookup_lt_Some. }
    destruct (Hdom i a b Ha Hb). apply Qmult_le_0_compat; lra. }
  split; [lra|]. split.
  { apply Qsum_nonneg in Hsq. lra. }
  intros Hlen.
  destruct (lookup_lt_is_Some_2 k 0) as [a0 Ha0].
  { unfold k. rewrite length_fmap. lia. }
  destruct (lookup_lt_is_Some_2 e 0) as [b0 Hb0]; [rewrite <- Hke; by eapply lookup_lt_Some|].
  assert (Hge : ((x - a0) * (x - a0)
                 <= Qsum (zip_with (fun ki di => (x - ki) * (x - di))%Q k k))%Q).
  { apply (Qsum_ge_elem _ 0%nat); [done|]. by rewrite lookup_zip_with, Ha0. }
  destruct (Hdom 0%nat a0 b0 Ha0 Hb0) as [H1 _].
  set (D := cross_moment k k) in *. clearbody D.
  set (S := Qsum _) in *. clearbody S. nra.
Qed.

(** The least-squares line through such samples exists from two samples
    on, and its slope is at least 1. *)
Lemma fit_slope (kel : list (Q * Q)) :
  StronglySorted gap_dom kel → (2 ≤ length kel)%nat →
  ∃ b a, polyfit1 kel.*1 kel.*2 = Ok (Some (b, a))
         ∧ (1 <= b)%Q ∧ slope_unusable (Some (b, a)) = false.
Proof.
  intros Hs Hlen. destruct (fit_moments kel Hs) as (HN & _ & HD).
  specialize (HD Hlen). unfold polyfit1.
  destruct (Z.eqb_spec (len kel.*1) 0) as [E|_].
  { unfold len in E. rewrite length_fmap in E. lia. }
  fold (cross_moment kel.*1 kel.*1). fold (cross_moment kel.*1 kel.*2).
  destruct (Qeq_bool _ 0) eqn:E.
  { apply Qeq_bool_eq in E. lra. }
  eexists _, _. split; [reflexivity|].
  assert (Hb : (1 <= cross_moment kel.*1 kel.*2 / cross_moment kel.*1 kel.*1)%Q).
  { apply Qle_shift_div_l; lra. }
  split; [done|]. cbn [slope_unusable].
  destruct (Qleb _ _) eqn:E'; [|done]. apply Qleb_le in E'. lra.
Qed.

(** X24: the slope guards of [refine_events_with_tempo] cannot fire on two
    or more samples.  For strictly increasing events (as
    [_as_int_sorted_unique] and the range filter leave them) the line
    fitted to [(i, ev[i])] exists and has slope at least 1, hence above
    the 0.5 of the guard; and so has the line refitted to the samples any
    boolean mask selects, as long as it selects at least two. *)
Theorem tempo_fit_slope_at_least_one (ev : list Z) :
  StronglySorted Z.lt ev →
  ((2 ≤ length ev)%nat →
   ∃ b a, polyfit1 (arange (length ev)) (inject_Z <$> ev) = Ok (Some (b, a))
          ∧ (1 <= b)%Q ∧ slope_unusable (Some (b, a)) = false)
  ∧ (∀ good : list bool,
       (2 ≤ length (mask_select good ev))%nat →
       ∃ b a, polyfit1 (mask_select good (arange (length ev)))
                (mask_select good (inject_Z <$> ev)) = Ok (Some (b, a))
              ∧ (1 <= b)%Q ∧ slope_unusable (Some (b, a)) = false).
Proof.
  intros Hs. pose proof (events_gap_dom ev Hs) as Hd.
  set (k := arange (length ev)) in *. set (e := inject_Z <$> ev) in *.
  assert (Hke : length k = length e).
  { unfold k, e. by rewrite length_arange, length_fmap. }
  split.
  - intros Hlen. destruct (fit_slope (zip k e) Hd) as (b & a & Hfit).
    { rewrite length_zip, <- Hke, Nat.min_id. unfold k.
      by rewrite length_arange. }
    rewrite fst_zip, snd_zip in Hfit by lia. by exists b, a.
  - intros good Hlen.
    assert (Hke' : length (mask_select good k) = length (mask_select good e))
      by by apply length_mask_select_same.
    assert (Hee : length (mask_select good e) = length (mask_select good ev)).
    { apply length_mask_select_same. unfold e. by rewrite length_fmap. }
    destruct (fit_slope (zip (mask_select good k) (mask_select good e)))
      as (b & a & Hfit).
    { rewrite mask_select_zip.
      eapply sublist_StronglySorted; [apply mask_select_sublist|done]. }
    { rewrite length_zip. lia. }
    rewrite fst_zip, snd_zip in Hfit by lia. by exists b, a.
Qed.

Lemma tempo_fit_slope_at_least_one_witness :
  ((2 ≤ length [3; 7; 12]%Z)%nat →
   ∃ b a, polyfit1 (arange (length [3; 7; 12])) (inject_Z <$> [3; 7; 12])
          = Ok (Some (b, a))
          ∧ (1 <= b)%Q ∧ slope_unusable (Some (b, a)) = false)
  ∧ (∀ good : list bool,
       (2 ≤ length (mask_select good [3; 7; 12]%Z))%nat →
       ∃ b a, polyfit1 (mask_select good (arange (length [3; 7; 12])))
                (mask_select good (inject_Z <$> [3; 7; 12])) = Ok (Some (b, a))
              ∧ (1 <= b)%Q ∧ slope_unusable (Some (b, a)) = false).
Proof.
  apply (tempo_fit_slope_at_least_one [3; 7; 12]).
  repeat constructor; lia.
Defined.

Lemma events_fit (ev : list Z) :
  StronglySorted Z.lt ev → (2 ≤ length ev)%nat →
  ∃ b a, polyfit1 (arange (length ev)) (inject_Z <$> ev) = Ok (Some (b, a))
         ∧ slope_unusable (Some (b, a)) = false.
Proof.
  intros Hs Hlen. pose proof (events_gap_dom ev Hs) as Hd.
  assert (Hke : length (arange (length ev)) = length (inject_Z <$> ev)).
  { by rewrite length_arange, length_fmap. }
  destruct (fit_slope _ Hd) as (b & a & Hfit & _ & Hun).
  { rewrite length_zip, <- Hke, Nat.min_id. by rewrite length_arange. }
  rewrite fst_zip, snd_zip in Hfit by lia. by exists b, a.
Qed.

Lemma events_masked_fit (ev : list Z) (good : list bool) :
  StronglySorted Z.lt ev → (2 ≤ length (mask_select good ev))%nat →
  ∃ b a, polyfit1 (mask_select good (arange (length ev)))
           (mask_select good (inject_Z <$> ev)) = Ok (Some (b, a))
         ∧ slope_unusable (Some (b, a)) = false.
Proof.
  intros Hs Hlen. pose proof (events_gap_dom ev Hs) as Hd.
  set (k := arange (length ev)) in *. set (e := inject_Z <$> ev) in *.
  assert (Hke : length (mask_select good k) = length (mask_select good e)).
  { apply length_mask_select_same. unfold k, e.
    by rewrite length_arange, length_fmap. }
  assert (Hee : length (mask_select good e) = length (mask_select good ev)).
  { apply length_mask_select_same. unfold e. by rewrite length_fmap. }
  destruct (fit_slope (zip (mask_select good k) (mask_select good e)))
    as (b & a & Hfit & _ & Hun).
  { rewrite mask_select_zip.
    eapply sublist_StronglySorted; [apply mask_select_sublist|done]. }
  { rewrite length_zip. lia. }
  rewrite fst_zip, snd_zip in Hfit by lia. by exists b, a.
Qed.

(** X10: with [min_events >= 2], [refine_events_with_tempo] never raises;
    its result is strictly increasing and has no more events than it was
    given; and it is an event set over the score's frames whenever all
    given events are frames of the score.  (Both line fits then have at
    least two samples at distinct beat numbers.) *)
Theorem refine_events_returns (events : list Z) (score : list Q) (fps : Q)
    (max_drift_frames min_events : Z) :
  2 <= min_events →
  ∃ out, refine_events_with_tempo events score fps max_drift_frames min_events
         = Ok out
         ∧ StronglySorted Z.lt out
         ∧ (length out ≤ length events)%nat
         ∧ (Forall (fun e => 0 <= e < len score) events →
            event_set (len score) out).
Proof.
  intros Hmin.
  assert (Hgoal : ∃ out,
            refine_events_with_tempo events score fps max_drift_frames min_events
            = Ok out
            ∧ StronglySorted Z.lt out ∧ (length out ≤ length events)%nat).
  2:{ destruct Hgoal as (out & Hout & Hs & Hl). exists out.
      split; [done|]. split; [done|]. split; [done|]. intros Hev.
      exact (refine_event_set _ _ _ _ _ _ Hev Hout). }
  unfold refine_events_with_tempo.
  pose proof (as_int_sorted_unique_strict events) as Hs.
  pose proof (length_as_int_sorted_unique events) as Hl.
  set (ev := _as_int_sorted_unique events) in *.
  destruct (_ || _); [by eauto|].
  assert (Hs' : StronglySorted Z.lt (filter (fun e => 0 <= e < len score) ev)).
  { eapply sublist_StronglySorted; [apply sublist_filter|done]. }
  pose proof (length_filter (fun e => 0 <= e < len score) ev) as Hl'.
  set (ev' := filter _ ev) in *.
  destruct (Z.ltb_spec (len ev') min_events) as [|Hge].
  { exists ev'. split; [done|]. split; [done|lia]. }
  destruct (events_fit ev' Hs') as (b & a & Hfit & Hun).
  { unfold len in Hge. lia. }
  rewrite Hfit. cbn [bind]. rewrite Hun.
  destruct (default _ (Some (b, a))) as [b1 a1].
  set (k := arange (length ev')) in *.
  set (pred := (fun kk => a1 + b1 * kk)%Q <$> k).
  set (good := (fun r => Qleb (Qabs r) _) <$> _).
  assert (Hklen : length k = length ev').
  { unfold k, arange. by rewrite length_fmap, length_seq. }
  assert (Hglen : length good = length ev').
  { unfold good. rewrite length_fmap, length_zip_with, length_fmap.
    unfold pred. rewrite length_fmap. lia. }
  set (ngood := len (filter (fun g => g = true) good)).
  assert (Hsnap : ∀ pr : list Q, length pr = length ev' →
            ∃ out, (snapped <- foldR (snap_to_peak score
                                        (Z.max 0 max_drift_frames)) [] pr;;
                    Ok (_as_int_sorted_unique snapped)) = Ok out
                   ∧ StronglySorted Z.lt out
                   ∧ (length out ≤ length events)%nat).
  { intros pr Hpr.
    destruct (snap_loop_ok score (Z.max 0 max_drift_frames) pr [])
      as (sn & -> & Hsn). simpl in *.
    eexists. split; [done|]. split; [apply as_int_sorted_unique_strict|].
    pose proof (length_as_int_sorted_unique sn). lia. }
  destruct ((min_events <=? ngood) && (ngood <? len ev')) eqn:Eg; cbn [bind].
  2:{ apply Hsnap. unfold pred. by rewrite length_fmap. }
  apply andb_true_iff in Eg as [Eg _]. apply Z.leb_le in Eg.
  destruct (events_masked_fit ev' good Hs') as (b2 & a2 & Hfit2 & Hun2).
  { rewrite length_mask_select by done. unfold ngood, len in Eg. lia. }
  fold k in Hfit2. fold good in Hfit2. rewrite Hfit2. cbn [bind].
  rewrite Hun2. destruct (default _ (Some (b2, a2))) as [b3 a3]. cbn [bind].
  apply Hsnap. by rewrite length_fmap.
Qed.

Lemma refine_events_returns_witness :
  ∃ out, refine_events_with_tempo [4; 9] [0; 1; 0; 2; 0; 0; 1; 0; 3; 0; 0]%Q 30 3 3
         = Ok out
         ∧ StronglySorted Z.lt out
         ∧ (length out ≤ 2)%nat
         ∧ (Forall (fun e => 0 <= e < 11) [4; 9] → event_set 11 out).
Proof.
  apply (refine_events_returns [4; 9] [0; 1; 0; 2; 0; 0; 1; 0; 3; 0; 0]%Q 30 3 3).
  lia.
Defined.

(** ** Stacking the resolved positions *)

Section loadbvh_stack.
Context {F : Type} `{FloatOps F}.

Lemma stack_joint_ok (T : nat) (joint : Joint F) :
  has_positions T joint →
  ∃ blk, stack_joint T (d_xyz joint) = Ok blk ∧ length blk = T
         ∧ ∀ t, (t < T)%nat → blk !! t = position_at joint t.
Proof.
  intros (d & Hd & Hlen & Hall). unfold position_at. rewrite Hd.
  destruct d as [|r0 [|r1 [|r2 [|? ?]]]]; try done.
  apply Forall_cons in Hall as [H0 Hall].
  apply Forall_cons in Hall as [H1 Hall].
  apply Forall_cons in Hall as [H2 _].
  unfold stack_joint. cbn [length]. rewrite H0, Nat.eqb_refl.
  cbn [orb andb Nat.eqb]. eexists. split; [reflexivity|].
  split; [by rewrite length_fmap, length_seq|].
  intros t Ht. rewrite list_lookup_fmap, lookup_seq_lt by done.
  cbn [fmap option_fmap option_map seq list_fmap].
  assert (Ht' : (if (T =? 1)%nat then 0%nat else (0 + t)%nat) = t).
  { destruct (Nat.eqb_spec T 1); lia. }
  rewrite Ht'. unfold transpose.
  rewrite list_lookup_fmap, lookup_seq_lt by done.
  destruct (lookup_lt_is_Some_2 r0 t) as [x0 E0]; [lia|].
  destruct (lookup_lt_is_Some_2 r1 t) as [x1 E1]; [lia|].
  destruct (lookup_lt_is_Some_2 r2 t) as [x2 E2]; [lia|].
  csimpl. rewrite E0, E1, E2. by csimpl.
Qed.

(** X25: on a non-empty skeleton whose joints all carry a [(3, T)]
    position buffer, [stack_positions] returns an array of shape
    [(T, J, 3)] whose entry [P[t][j]] is the position of joint [j] at
    frame [t] (column [t] of its [d_xyz]). *)
Theorem stack_positions_layout (T : nat) (sk : list (Joint F)) :
  sk ≠ [] → Forall (has_positions T) sk →
  ∃ P, stack_positions sk = Ok P ∧ length P = T
       ∧ Forall (fun fr => length fr = length sk) P
       ∧ ∀ t j joint, (t < T)%nat → sk !! j = Some joint →
           P !! t ≫= (.!! j) = position_at joint t.
Proof.
  intros Hne Hall. rewrite Forall_forall in Hall.
  destruct (mapR_ok (fun j => stack_joint T (d_xyz j)) sk) as [blocks Hb].
  { intros j Hj. destruct (stack_joint_ok T j (Hall j Hj)) as (blk & -> & _).
    eauto. }
  pose proof (length_mapR _ _ _ Hb) as Hbl.
  unfold stack_positions. destruct sk as [|j0 rest] eqn:Esk; [done|].
  rewrite <- Esk in *.
  destruct (Hall j0) as (d0 & -> & Hl0 & Hr0); [rewrite Esk; by left|].
  destruct d0 as [|r0 d0]; [done|]. apply Forall_cons in Hr0 as [-> _].
  rewrite Hb. cbn [bind]. eexists. split; [reflexivity|].
  split; [by rewrite length_fmap, length_seq|]. split.
  { apply Forall_fmap, Forall_forall. intros t _. simpl.
    by rewrite length_fmap. }
  intros t j joint Ht Hj.
  rewrite list_lookup_fmap, lookup_seq_lt by done. csimpl.
  rewrite list_lookup_fmap.
  destruct (mapR_lookup_ok _ _ _ _ _ Hb Hj) as (blk & Hblk & ->). csimpl.
  destruct (stack_joint_ok T joint) as (blk' & Hblk' & Hlen & Hpos).
  { apply Hall. by eapply list_elem_of_lookup_2. }
  rewrite Hblk in Hblk'. injection Hblk' as <-.
  rewrite <- (Hpos t Ht).
  destruct (lookup_lt_is_Some_2 blk t) as [fr ->]; [lia|done].
Qed.

End loadbvh_stack.

Lemma stack_positions_layout_witness :
  ∃ P, @stack_positions Q float_ops_Q posed_rig = Ok P ∧ length P = 2%nat
       ∧ Forall (fun fr => length fr = length posed_rig) P
       ∧ ∀ t j joint, (t < 2)%nat → posed_rig !! j = Some joint →
           P !! t ≫= (.!! j) = position_at joint t.
Proof.
  apply (@stack_positions_layout Q float_ops_Q 2 posed_rig).
  - discriminate.
  - repeat constructor;
      (eexists; split; [reflexivity|]; split; [reflexivity|];
       repeat constructor).
Defined.

(** ** Context features stay within a clip *)

Lemma NoDup_np_where (mask : list bool) : NoDup (np_where mask).
Proof.
  induction mask as [|c cs IH]; [constructor|].
  rewrite np_where_cons. apply NoDup_app. split.
  { destruct c; repeat constructor. set_solver. }
  split.
  - intros x Hx Hin. destruct c; [|by apply elem_of_nil in Hx].
    apply elem_of_cons in Hx as [-> | Hx]; [|by apply elem_of_nil in Hx].
    apply list_elem_of_fmap in Hin as (y & Hy & Hin).
    apply elem_of_np_where in Hin. lia.
  - apply NoDup_fmap; [|done]. intros ? ?. lia.
Qed.

Lemma np_where_all_true (c : Z) (n : nat) :
  np_where ((fun c' => c' =? c) <$> replicate n c) = Z.of_nat <$> seq 0 n.
Proof.
  induction n as [|n IH]; [done|].
  change (replicate (S n) c) with (c :: replicate n c).
  rewrite fmap_cons, np_where_cons, Z.eqb_refl, IH.
  change (seq 0 (S n)) with (0%nat :: seq 1 n).
  rewrite <- fmap_S_seq, fmap_cons, <- !list_fmap_compose.
  cbn [app]. f_equal. apply list_fmap_ext. intros ? ? _. simpl. lia.
Qed.

Lemma mapR_getitem_take_at {A} (d : A) (X : list A) (idx : list Z) :
  Forall (fun g => 0 <= g ∧ (Z.to_nat g < length X)%nat) idx →
  mapR (getitem X) idx = Ok (take_at d X idx).
Proof.
  induction 1 as [|g idx [Hg Hlt] _ IH]; [done|].
  cbn [mapR]. destruct (lookup_lt_is_Some_2 X (Z.to_nat g) Hlt) as [a Ha].
  rewrite (getitem_lookup X g a Hg Ha), IH. cbn [bind].
  unfold take_at. cbn [fmap list_fmap]. by rewrite Ha.
Qed.

(** The rows written for one clip: position [idx[k]] receives the context
    row of local frame [k], all other rows are left alone. *)
Lemma write_rows_spec (Xc : list (list Q)) (radius : Z) (idx : list Z)
    (n : nat) (acc : list (list Q)) :
  NoDup idx →
  Forall (fun g => 0 <= g ∧ (Z.to_nat g < length acc)%nat) idx →
  let w := foldl (fun acc (lg : nat * Z) =>
                    <[Z.to_nat lg.2 := context_row Xc radius (Z.of_nat lg.1)]> acc)
                 acc (imap (fun i g => ((n + i)%nat, g)) idx) in
  length w = length acc
  ∧ (∀ k g, idx !! k = Some g →
       w !! Z.to_nat g = Some (context_row Xc radius (Z.of_nat (n + k))))
  ∧ (∀ j, Z.of_nat j ∉ idx → w !! j = acc !! j).
Proof.
  revert n acc. induction idx as [|g0 idx IH]; intros n acc Hnd Hr; cbn zeta.
  { split; [done|]. split; [done|]. done. }
  apply NoDup_cons in Hnd as [Hnotin Hnd].
  apply Forall_cons in Hr as [[Hg0 Hlt0] Hr].
  rewrite imap_cons. cbn [foldl fst snd].
  rewrite (imap_ext _ (fun i g => ((S n + i)%nat, g)) idx)
    by (intros; simpl; f_equal; lia).
  set (acc1 := <[Z.to_nat g0 := context_row Xc radius (Z.of_nat (n + 0))]> acc).
  assert (Hl1 : length acc1 = length acc) by apply length_insert.
  destruct (IH (S n) acc1 Hnd) as (Hlen & Hlook & Hsame).
  { rewrite Hl1. done. }
  cbn zeta in Hlen, Hlook, Hsame.
  split; [lia|]. split.
  - intros [|k] g Hk; simpl in Hk.
    + injection Hk as <-. rewrite Hsame by (rewrite Z2Nat.id by lia; done).
      unfold acc1. by rewrite list_lookup_insert_eq.
    + rewrite (Hlook k g Hk). do 2 f_equal. lia.
  - intros j Hj. rewrite Hsame by set_solver.
    unfold acc1. apply list_lookup_insert_ne. intros Heq.
    apply Hj. apply elem_of_cons. left. lia.
Qed.

(** The loop over the clips of [build_context_features]. *)
Lemma context_loop (X : list (list Q)) (clip_ids : list Z) (radius : Z)
    (clips : list Z) (out0 : list (list Q)) :
  length clip_ids = length X → length out0 = length X → NoDup clips →
  ∃ out,
    foldR (fun X_ctx clip =>
             let idx := np_where ((fun c => c =? clip) <$> clip_ids) in
             Xc <- mapR (getitem X) idx;;
             Ok (write_clip_rows Xc radius X_ctx idx)) out0 clips = Ok out
    ∧ length out = length X
    ∧ (∀ i c, clip_ids !! i = Some c → c ∈ clips →
         let idx := np_where ((fun c' => c' =? c) <$> clip_ids) in
         ∃ k, idx !! k = Some (Z.of_nat i)
              ∧ out !! i = Some (context_row (take_at [] X idx) radius
                                   (Z.of_nat k)))
    ∧ (∀ i c, clip_ids !! i = Some c → c ∉ clips → out !! i = out0 !! i).
Proof.
  intros Hlen. revert out0.
  induction clips as [|c0 clips IH]; intros out0 Hl0 Hnd.
  { exists out0. split; [done|]. split; [done|]. split; [|done].
    intros i c _ Hc. by apply elem_of_nil in Hc. }
  apply NoDup_cons in Hnd as [Hnotin Hnd]. cbn [foldR]. cbn zeta.
  set (idx0 := np_where ((fun c => c =? c0) <$> clip_ids)).
  assert (Hr0 : Forall (fun g => 0 <= g ∧ (Z.to_nat g < length X)%nat) idx0).
  { apply Forall_forall. intros g Hg. apply elem_of_np_where in Hg as [Hg Hm].
    split; [done|]. apply lookup_lt_Some in Hm.
    rewrite length_fmap in Hm. lia. }
  rewrite (mapR_getitem_take_at [] X idx0 Hr0). cbn [bind].
  set (Xc := take_at [] X idx0). unfold write_clip_rows.
  change (imap pair idx0) with (imap (fun i g => ((0 + i)%nat, g)) idx0).
  destruct (write_rows_spec Xc radius idx0 0 out0 (NoDup_np_where _))
    as (Hl1 & Hlook & Hsame).
  { by rewrite Hl0. }
  cbn zeta in Hl1, Hlook, Hsame.
  set (out1 := foldl _ out0 _) in *.
  destruct (IH out1 ltac:(lia) Hnd) as (out & Hout & Hlo & Hin & Hnot).
  exists out. split; [done|]. split; [done|]. split.
  - intros i c Hi Hc.
    destruct (decide (c = c0)) as [->|Hne].
    + rewrite (Hnot i c0 Hi Hnotin).
      assert (Hmem : Z.of_nat i ∈ idx0).
      { apply elem_of_np_where. split; [lia|].
        rewrite Nat2Z.id, list_lookup_fmap, Hi. simpl.
        by rewrite Z.eqb_refl. }
      apply list_elem_of_lookup_1 in Hmem as [k Hk]. exists k.
      split; [done|]. specialize (Hlook k _ Hk).
      by rewrite Nat2Z.id in Hlook.
    + apply (Hin i c Hi). apply elem_of_cons in Hc as [?|?]; done.
  - intros i c Hi Hc. apply not_elem_of_cons in Hc as [Hne Hc].
    rewrite (Hnot i c Hi Hc). apply Hsame.
    intros Hmem. apply elem_of_np_where in Hmem as [_ Hm].
    rewrite Nat2Z.id, list_lookup_fmap, Hi in Hm. simpl in Hm.
    injection Hm as Hm. apply Z.eqb_eq in Hm. done.
Qed.

Lemma take_at_seq {A} (d : A) (X : list A) :
  take_at d X (Z.of_nat <$> seq 0 (length X)) = X.
Proof.
  unfold take_at. rewrite <- list_fmap_compose. apply list_eq. intros i.
  rewrite list_lookup_fmap.
  destruct (decide (i < length X)%nat) as [Hi|Hi].
  - rewrite lookup_seq_lt by done. simpl. rewrite Nat2Z.id.
    destruct (lookup_lt_is_Some_2 X i Hi) as [a ->]. done.
  - rewrite lookup_seq_ge by lia. symmetry. apply lookup_ge_None. lia.
Qed.

(** X26: with one clip id per row and [radius > 0],
    [build_context_features] does not raise and returns one row per frame;
    the row of frame [i] is the context row of [i]'s local position within
    the frames of its own clip, so no context crosses a clip boundary.
    When all frames carry the same clip id the result is that of
    [build_context_single_clip], for every radius. *)
Theorem build_context_features_rows (X : list (list Q)) (clip_ids : list Z)
    (radius : Z) :
  length clip_ids = length X →
  (0 < radius →
   ∃ out, build_context_features X clip_ids radius = Ok out
          ∧ length out = length X
          ∧ ∀ i c, clip_ids !! i = Some c →
              let idx := np_where ((fun c' => c' =? c) <$> clip_ids) in
              ∃ k, idx !! k = Some (Z.of_nat i)
                   ∧ out !! i = Some (context_row (take_at [] X idx) radius
                                        (Z.of_nat k)))
  ∧ (∀ c, clip_ids = replicate (length X) c →
       build_context_features X clip_ids radius
       = Ok (build_context_single_clip X radius)).
Proof.
  intros Hlen.
  assert (Hmain : 0 < radius →
    ∃ out, build_context_features X clip_ids radius = Ok out
           ∧ length out = length X
           ∧ ∀ i c, clip_ids !! i = Some c →
               let idx := np_where ((fun c' => c' =? c) <$> clip_ids) in
               ∃ k, idx !! k = Some (Z.of_nat i)
                    ∧ out !! i = Some (context_row (take_at [] X idx) radius
                                         (Z.of_nat k))).
  { intros Hr. unfold build_context_features.
    destruct (Z.leb_spec radius 0) as [|_]; [lia|].
    destruct (context_loop X clip_ids radius (np_unique clip_ids)
                (replicate (length X)
                   (replicate (from_option length 0%nat (head X)
                               * Z.to_nat (2 * radius + 1)) 0%Q)) Hlen)
      as (out & Hout & Hlo & Hin & _).
    { apply length_replicate. }
    { unfold np_unique. rewrite merge_sort_Permutation.
      apply NoDup_remove_dups. }
    exists out. split; [done|]. split; [done|].
    intros i c Hi. apply (Hin i c Hi). apply elem_of_np_unique.
    by eapply list_elem_of_lookup_2. }
  split; [done|]. intros c Hc.
  destruct (Z.leb_spec radius 0) as [Hr|Hr].
  { unfold build_context_features, build_context_single_clip.
    by destruct (Z.leb_spec radius 0); [|lia]. }
  destruct (Hmain Hr) as (out & -> & Hlo & Hrows). f_equal.
  unfold build_context_single_clip. destruct (Z.leb_spec radius 0); [lia|].
  apply list_eq. intros i. rewrite list_lookup_fmap.
  destruct (decide (i < length X)%nat) as [Hi|Hi].
  - rewrite lookup_seq_lt by done. simpl.
    assert (Hci : clip_ids !! i = Some c).
    { rewrite Hc. by apply lookup_replicate_2. }
    destruct (Hrows i c Hci) as (k & Hk & ->).
    rewrite Hc, np_where_all_true in Hk |- *.
    rewrite take_at_seq. rewrite list_lookup_fmap in Hk.
    destruct (seq 0 (length X) !! k) as [k'|] eqn:Ek; [|done].
    apply lookup_seq in Ek as [-> _]. simpl in Hk. injection Hk as Hk.
    do 2 f_equal. lia.
  - rewrite lookup_seq_ge by lia. simpl. apply lookup_ge_None. lia.
Qed.

Lemma build_context_features_rows_witness :
  ∃ out, build_context_features [[1]; [2]; [3]]%Q [0; 0; 1] 1 = Ok out
         ∧ length out = 3%nat.
Proof.
  destruct (proj1 (build_context_features_rows [[1]; [2]; [3]]%Q [0; 0; 1] 1
                     eq_refl) ltac:(lia)) as (out & Hout & Hlen & _).
  exists out. split; [exact Hout|exact Hlen].
Defined.
